(** * A first-fit [sbrk] allocator: shallow embedding of [alloc.c]

    The C file keeps one global registry of [mem_block] headers, threaded
    through [next]/[prev], plus two [size_t] counters.  The embedding keeps
    the same globals in a record [heap], every header in a finite map keyed
    by its address, and runs the four public functions in a small state and
    error monad. *)

From Stdlib Require Import ZArith Lia.
From stdpp Require Import base gmap list.

Open Scope Z_scope.

(** ** Machine arithmetic *)

Definition NULL : Z := 0.

(** [sizeof(mem_block)] on an LP64 target: 8 + 4 (+4 padding) + 8 + 8 + 8. *)
Definition sizeof_mem_block : Z := 40.

(** [size_t] arithmetic wraps modulo 2^64. *)
Definition wrap (z : Z) : Z := z mod 2 ^ 64.

(** Conversion of a [size_t] argument to the signed [intptr_t] of [sbrk]. *)
Definition to_intptr (z : Z) : Z := if z <? 2 ^ 63 then z else z - 2 ^ 64.

(** ** Data *)

(** [struct mem_block]; the [int free] flag only ever holds 0 or 1. *)
Record mem_block := Block {
  b_size : Z;
  b_free : bool;
  b_ptr  : Z;
  b_next : Z;
  b_prev : Z
}.

Definition blank : mem_block := Block 0 false 0 0 0.

Definition with_size (v : Z) (b : mem_block) : mem_block :=
  Block v (b_free b) (b_ptr b) (b_next b) (b_prev b).
Definition with_free (v : bool) (b : mem_block) : mem_block :=
  Block (b_size b) v (b_ptr b) (b_next b) (b_prev b).
Definition with_ptr (v : Z) (b : mem_block) : mem_block :=
  Block (b_size b) (b_free b) v (b_next b) (b_prev b).
Definition with_next (v : Z) (b : mem_block) : mem_block :=
  Block (b_size b) (b_free b) (b_ptr b) v (b_prev b).
Definition with_prev (v : Z) (b : mem_block) : mem_block :=
  Block (b_size b) (b_free b) (b_ptr b) (b_next b) v.

(** The process state the allocator sees: the headers written so far (keyed
    by header address), the payload bytes, the three file-level statics, and
    the program break with the bound beyond which the system refuses to
    move it. *)
Record heap := Heap {
  hdrs : gmap Z mem_block;
  bytes : Z -> Z;
  head : Z;
  requested_size : Z;
  allocated_size : Z;
  brk : Z;
  brk_limit : Z
}.

Definition set_hdrs (f : gmap Z mem_block -> gmap Z mem_block) (s : heap) : heap :=
  Heap (f (hdrs s)) (bytes s) (head s) (requested_size s) (allocated_size s)
       (brk s) (brk_limit s).
Definition set_bytes (m : Z -> Z) (s : heap) : heap :=
  Heap (hdrs s) m (head s) (requested_size s) (allocated_size s)
       (brk s) (brk_limit s).
Definition set_head (h : Z) (s : heap) : heap :=
  Heap (hdrs s) (bytes s) h (requested_size s) (allocated_size s)
       (brk s) (brk_limit s).
Definition set_requested (v : Z) (s : heap) : heap :=
  Heap (hdrs s) (bytes s) (head s) v (allocated_size s) (brk s) (brk_limit s).
Definition set_allocated (v : Z) (s : heap) : heap :=
  Heap (hdrs s) (bytes s) (head s) (requested_size s) v (brk s) (brk_limit s).
Definition set_brk (v : Z) (s : heap) : heap :=
  Heap (hdrs s) (bytes s) (head s) (requested_size s) (allocated_size s)
       v (brk_limit s).

(** ** The monad

    [Done] is a normal return.  [Fault] is an access through the null
    pointer or to a header that was never written; [AssertFail] is a failed
    [assert]; [Diverge] is a registry scan that never meets the end of the
    list. *)
Inductive outcome (A : Type) : Type :=
  | Done (a : A) (s : heap)
  | Fault
  | AssertFail
  | Diverge.
Arguments Done {A} a s.
Arguments Fault {A}.
Arguments AssertFail {A}.
Arguments Diverge {A}.

Definition M (A : Type) : Type := heap -> outcome A.

Definition ret {A} (a : A) : M A := fun s => Done a s.

Definition bind {A B} (m : M A) (k : A -> M B) : M B := fun s =>
  match m s with
  | Done a s' => k a s'
  | Fault => Fault
  | AssertFail => AssertFail
  | Diverge => Diverge
  end.

Notation "x <- m ;; k" := (bind m (fun x => k))
  (at level 100, m at next level, right associativity).
Notation "m ;;; k" := (bind m (fun _ => k))
  (at level 100, right associativity).

Definition get : M heap := fun s => Done s s.
Definition modify (f : heap -> heap) : M unit := fun s => Done tt (f s).
Definition assert (b : bool) : M unit := fun s => if b then Done tt s else AssertFail.

(** Reading a header: defined only where a header has been written. *)
Definition load (a : Z) : M mem_block := fun s =>
  match hdrs s !! a with
  | Some b => Done b s
  | None => Fault
  end.

(** Writing one field of the header at [a].  The C code checks nothing: a
    header is written wherever the pointer leads, also at or above the
    break; only a write through the null pointer stops the program.  Fields
    of a header that were never written hold the placeholder [blank]; the
    program writes all five before it reads any. *)
Definition store (a : Z) (f : mem_block -> mem_block) : M unit := fun s =>
  if 0 <? a then
    Done tt (set_hdrs (fun h => <[a := f (default blank (h !! a))]> h) s)
  else Fault.

(** [sbrk]: returns the old break and moves it, or refuses ([None] stands
    for [(void * ) -1]) and changes nothing.  The increment is signed: a
    negative one lowers the break. *)
Definition sbrk (increment : Z) : M (option Z) := fun s =>
  let nb := brk s + increment in
  if (0 <=? nb) && (nb <=? brk_limit s) then Done (Some (brk s)) (set_brk nb s)
  else Done None s.

Definition memset (dst c n : Z) : M unit := fun s =>
  if dst =? NULL then Fault
  else Done tt (set_bytes
         (fun a => if (dst <=? a) && (a <? dst + n) then c else bytes s a) s).

Definition memcpy (dst src n : Z) : M unit := fun s =>
  if (dst =? NULL) || (src =? NULL) then Fault
  else Done tt (set_bytes
         (fun a => if (dst <=? a) && (a <? dst + n)
                   then bytes s (src + (a - dst)) else bytes s a) s).

(** ** Helper functions of [alloc.c] *)

Definition get_addr (ptr : Z) : Z := ptr - sizeof_mem_block.

Definition coalesce_prev (block : Z) : M unit :=
  b <- load block ;;
  if b_prev b =? NULL then ret tt else
  p <- load (b_prev b) ;;
  if negb (b_free p) then ret tt else
  store block (with_size (wrap (b_size b + (b_size p + sizeof_mem_block)))) ;;;
  b <- load block ;;
  p <- load (b_prev b) ;;
  store block (with_prev (b_prev p)) ;;;
  b <- load block ;;
  (if b_prev b =? NULL then modify (set_head block)
   else store (b_prev b) (with_next block)) ;;;
  modify (fun s => set_requested (wrap (requested_size s - sizeof_mem_block)) s).

Definition coalesce_next (block : Z) : M unit :=
  b <- load block ;;
  if b_next b =? NULL then ret tt else
  n <- load (b_next b) ;;
  if negb (b_free n) then ret tt else
  store (b_next b) (with_size (wrap (b_size n + (b_size b + sizeof_mem_block)))) ;;;
  b <- load block ;;
  store (b_next b) (with_prev (b_prev b)) ;;;
  b <- load block ;;
  (if b_prev b =? NULL then modify (set_head (b_next b))
   else store (b_prev b) (with_next (b_next b))) ;;;
  modify (fun s => set_requested (wrap (requested_size s - sizeof_mem_block)) s).

Definition split_mem (block size : Z) : M unit :=
  b <- load block ;;
  let new_block := b_ptr b + size in
  store new_block (with_size (wrap (b_size b - size - sizeof_mem_block))) ;;;
  store new_block (with_free true) ;;;
  store new_block (with_ptr (new_block + sizeof_mem_block)) ;;;
  store new_block (with_next block) ;;;
  b <- load block ;;
  (if b_prev b =? NULL then modify (set_head new_block)
   else store (b_prev b) (with_next new_block)) ;;;
  b <- load block ;;
  store new_block (with_prev (b_prev b)) ;;;
  store block (with_size size) ;;;
  store block (with_prev new_block).

(** ** The public functions *)

(** The [while (p)] scan of [malloc], with the split inside the loop body.
    Returns the chosen header, or [NULL]. *)
Fixpoint first_fit (fuel : nat) (p size : Z) : M Z :=
  match fuel with
  | O => fun _ => Diverge
  | S fuel' =>
      if p =? NULL then ret NULL else
      b <- load p ;;
      if b_free b && (size <=? b_size b) then
        (if (wrap (2 * size) <=? b_size b) && (1024 <=? wrap (b_size b - size))
         then split_mem p size ;;;
              modify (fun s => set_requested
                                 (wrap (requested_size s + sizeof_mem_block)) s)
         else ret tt) ;;;
        ret p
      else first_fit fuel' (b_next b) size
  end.

(** A scan that has taken more steps than there are headers has met some
    header twice, and since it writes nothing before it stops, it would go
    round for ever. *)
Definition scan_fuel (s : heap) : nat := S (base.size (hdrs s)).

Definition grow (size : Z) : M Z :=
  r <- sbrk (to_intptr (wrap (sizeof_mem_block + size))) ;;
  match r with
  | None => ret NULL
  | Some chosen =>
      store chosen (with_ptr (chosen + sizeof_mem_block)) ;;;
      store chosen (with_size size) ;;;
      store chosen (with_free false) ;;;
      s <- get ;;
      store chosen (with_next (head s)) ;;;
      (if head s =? NULL then store chosen (with_prev NULL)
       else h <- load (head s) ;;
            store chosen (with_prev (b_prev h)) ;;;
            store (head s) (with_prev chosen)) ;;;
      modify (set_head chosen) ;;;
      modify (fun s => set_allocated
                         (wrap (allocated_size s + (size + sizeof_mem_block))) s) ;;;
      modify (fun s => set_requested
                         (wrap (requested_size s + (size + sizeof_mem_block))) s) ;;;
      c <- load chosen ;;
      ret (b_ptr c)
  end.

Definition malloc (size : Z) : M Z :=
  if size =? 0 then ret NULL else
  s <- get ;;
  chosen <- (if size <=? wrap (allocated_size s - requested_size s)
             then first_fit (scan_fuel s) (head s) size
             else ret NULL) ;;
  if chosen =? NULL then grow size else
  store chosen (with_free false) ;;;
  c <- load chosen ;;
  modify (fun s => set_requested (wrap (requested_size s + b_size c)) s) ;;;
  ret (b_ptr c).

Definition calloc (num size : Z) : M Z :=
  let totalSize := wrap (num * size) in
  ptr <- malloc totalSize ;;
  if ptr =? NULL then ret NULL else
  memset ptr 0 totalSize ;;;
  ret ptr.

Definition free (ptr : Z) : M unit :=
  if ptr =? NULL then ret tt else
  let block_ptr := get_addr ptr in
  b <- load block_ptr ;;
  if b_free b then ret tt else
  store block_ptr (with_free true) ;;;
  b <- load block_ptr ;;
  modify (fun s => set_requested (wrap (requested_size s - b_size b)) s) ;;;
  coalesce_prev block_ptr ;;;
  coalesce_next block_ptr.

(** The tail of [realloc]: allocate, copy, release. *)
Definition realloc_move (ptr size oldSize : Z) : M Z :=
  result <- malloc size ;;
  let minSize := if size <=? oldSize then size else oldSize in
  memcpy result ptr minSize ;;;
  free ptr ;;;
  ret result.

Definition realloc (ptr size : Z) : M Z :=
  (if size <=? 0 then free ptr else ret tt) ;;;
  if ptr =? NULL then malloc size else
  let block := get_addr ptr in
  b <- load block ;;
  assert (b_ptr b =? ptr) ;;;
  assert (negb (b_free b)) ;;;
  let oldSize := b_size b in
  if size <=? oldSize then ret ptr else
  if b_prev b =? NULL then realloc_move ptr size oldSize else
  p <- load (b_prev b) ;;
  if negb (b_free p) then realloc_move ptr size oldSize else
  if size <=? wrap (oldSize + b_size p + sizeof_mem_block) then
    modify (fun s => set_requested (wrap (requested_size s + b_size p)) s) ;;;
    coalesce_prev block ;;;
    b <- load block ;;
    ret (b_ptr b)
  else realloc_move ptr size oldSize.

(** ** Concrete heaps used below *)

Definition empty_heap (b0 lim : Z) : heap :=
  Heap ∅ (fun _ => 0) NULL 0 0 b0 lim.

Definition result_of {A} (o : outcome A) : option A :=
  match o with Done a _ => Some a | _ => None end.
Definition state_of {A} (o : outcome A) (d : heap) : heap :=
  match o with Done _ s => s | _ => d end.

(** Run a computation and continue with the state only. *)
Definition exec {A} (m : M A) (s : heap) : heap := state_of (m s) s.

(** Two grown blocks, the older (lower) one of 2048 bytes, both in use. *)
Definition heap_two : heap :=
  exec (malloc 16) (exec (malloc 2048) (empty_heap 4096 1000000)).

(** A heap whose break cannot move any more, holding one 8-byte block. *)
Definition heap_full : heap :=
  exec (malloc 8) (empty_heap 4096 4144).

(** ** Basic facts about the monad and the primitives *)

Lemma bind_done {A B} (m : M A) (k : A -> M B) s a s' :
  m s = Done a s' -> bind m k s = k a s'.
Proof. intros H. unfold bind. now rewrite H. Qed.

Lemma bind_inv {A B} (m : M A) (k : A -> M B) s r s' :
  bind m k s = Done r s' -> exists a s1, m s = Done a s1 /\ k a s1 = Done r s'.
Proof.
  unfold bind. destruct (m s) as [a s1| | |] eqn:E; try discriminate.
  intros H. now exists a, s1.
Qed.

Lemma load_ok a s b : hdrs s !! a = Some b -> load a s = Done b s.
Proof. intros H. unfold load. now rewrite H. Qed.

Lemma load_inv a s b s' :
  load a s = Done b s' -> s' = s /\ hdrs s !! a = Some b.
Proof.
  unfold load. destruct (hdrs s !! a) eqn:E; try discriminate.
  intros [= -> ->]. now split.
Qed.

(** The header map with one header replaced. *)
Definition put (a : Z) (v : mem_block) (s : heap) : heap :=
  set_hdrs (fun h => <[a := v]> h) s.

Lemma store_ok a f s b :
  hdrs s !! a = Some b -> 0 < a ->
  store a f s = Done tt (put a (f b) s).
Proof.
  intros H H1. unfold store, put, set_hdrs.
  rewrite (proj2 (Z.ltb_lt 0 a)) by lia.
  cbv beta. now rewrite H.
Qed.

Lemma store_new a f s :
  hdrs s !! a = None -> 0 < a ->
  store a f s = Done tt (put a (f blank) s).
Proof.
  intros H H1. unfold store, put, set_hdrs.
  rewrite (proj2 (Z.ltb_lt 0 a)) by lia.
  cbv beta. now rewrite H.
Qed.

Lemma store_inv a f s u s' :
  store a f s = Done u s' ->
  s' = put a (f (default blank (hdrs s !! a))) s.
Proof.
  unfold store. destruct (0 <? a); [|discriminate]. now intros [= _ <-].
Qed.

(** ** Properties kept by every step of a computation *)

Definition keeps (P : heap -> Prop) {A} (m : M A) : Prop :=
  forall s a s', P s -> m s = Done a s' -> P s'.

Lemma keeps_ret P {A} (a : A) : keeps P (ret a).
Proof. intros s a' s' H E. unfold ret in E. inversion E; subst. exact H. Qed.

Lemma keeps_bind P {A B} (m : M A) (k : A -> M B) :
  keeps P m -> (forall a, keeps P (k a)) -> keeps P (bind m k).
Proof.
  intros Hm Hk s b s' HP H.
  apply bind_inv in H as (a & s1 & H1 & H2).
  eapply Hk; [|exact H2]. eapply Hm; eauto.
Qed.

Lemma keeps_load P a : keeps P (load a).
Proof. intros s b s' HP H. apply load_inv in H as [-> _]. exact HP. Qed.

Lemma keeps_modify P f : (forall s, P s -> P (f s)) -> keeps P (modify f).
Proof.
  intros Hf s u s' HP H. unfold modify in H. inversion H; subst. now apply Hf.
Qed.

Lemma keeps_if P {A} (c : bool) (m1 m2 : M A) :
  keeps P m1 -> keeps P m2 -> keeps P (if c then m1 else m2).
Proof. now destruct c. Qed.

(** The header at [a] is marked free and records payload pointer [p]. *)
Definition marked_free (a p : Z) (s : heap) : Prop :=
  exists b, hdrs s !! a = Some b /\ b_free b = true /\ b_ptr b = p.

(** A field update that leaves [free] and [ptr] alone. *)
Definition link_update (f : mem_block -> mem_block) : Prop :=
  forall b, b_free (f b) = b_free b /\ b_ptr (f b) = b_ptr b.

Lemma link_update_size v : link_update (with_size v).
Proof. now intros b. Qed.
Lemma link_update_next v : link_update (with_next v).
Proof. now intros b. Qed.
Lemma link_update_prev v : link_update (with_prev v).
Proof. now intros b. Qed.

Lemma keeps_store_marked a p x f :
  link_update f -> keeps (marked_free a p) (store x f).
Proof.
  intros Hf s u s' (b & Hb & Hfree & Hptr) H.
  apply store_inv in H as ->. unfold marked_free, put; simpl.
  destruct (decide (x = a)) as [->|Hne].
  - rewrite lookup_insert_eq, Hb. simpl. eexists; split; [reflexivity|].
    destruct (Hf b) as [-> ->]. now split.
  - rewrite lookup_insert_ne by exact Hne. now exists b.
Qed.

Lemma keeps_coalesce_prev a p x : keeps (marked_free a p) (coalesce_prev x).
Proof.
  unfold coalesce_prev.
  repeat first
    [ apply keeps_ret | apply keeps_load
    | apply keeps_store_marked;
      first [apply link_update_size | apply link_update_next | apply link_update_prev]
    | apply keeps_modify; intros s Hs; exact Hs
    | apply keeps_if
    | apply keeps_bind; [|intros ?] ].
Qed.

Lemma keeps_coalesce_next a p x : keeps (marked_free a p) (coalesce_next x).
Proof.
  unfold coalesce_next.
  repeat first
    [ apply keeps_ret | apply keeps_load
    | apply keeps_store_marked;
      first [apply link_update_size | apply link_update_next | apply link_update_prev]
    | apply keeps_modify; intros s Hs; exact Hs
    | apply keeps_if
    | apply keeps_bind; [|intros ?] ].
Qed.

(** After a release that returned, the header is marked free. *)
Lemma free_marks p s s' b :
  p <> NULL -> hdrs s !! get_addr p = Some b ->
  free p s = Done tt s' -> marked_free (get_addr p) (b_ptr b) s'.
Proof.
  intros Hp Hb H. unfold free in H.
  destruct (Z.eqb_spec p NULL); [contradiction|].
  rewrite (bind_done _ _ _ _ _ (load_ok _ _ _ Hb)) in H.
  destruct (b_free b) eqn:Hfree.
  - injection H as <-. now exists b.
  - apply bind_inv in H as ([] & s1 & H1 & H).
    apply store_inv in H1. rewrite Hb in H1. simpl in H1.
    assert (marked_free (get_addr p) (b_ptr b) s1) as Hm.
    { subst s1. unfold marked_free, put; simpl. rewrite lookup_insert_eq.
      eexists; split; [reflexivity|]. now split. }
    revert H. generalize Hm. generalize s1. intros s2 Hm2 H.
    eapply (keeps_bind (marked_free (get_addr p) (b_ptr b))); [| |exact Hm2|exact H].
    + apply keeps_load.
    + intros b'. apply keeps_bind; [apply keeps_modify; now intros|intros _].
      apply keeps_bind; [apply keeps_coalesce_prev|intros _; apply keeps_coalesce_next].
Qed.

Lemma free_marked_noop p s b :
  p <> NULL -> hdrs s !! get_addr p = Some b -> b_free b = true ->
  free p s = Done tt s.
Proof.
  intros Hp Hb Hf. unfold free.
  destruct (Z.eqb_spec p NULL); [contradiction|].
  rewrite (bind_done _ _ _ _ _ (load_ok _ _ _ Hb)). now rewrite Hf.
Qed.

Lemma free_Done_header p s s' :
  p <> NULL -> free p s = Done tt s' -> exists b, hdrs s !! get_addr p = Some b.
Proof.
  intros Hp H. unfold free in H.
  destruct (Z.eqb_spec p NULL); [contradiction|].
  apply bind_inv in H as (b & s1 & H1 & _).
  apply load_inv in H1 as [_ H1]. now exists b.
Qed.

(** ** Release twice *)

(** C7. Whenever [free p] returns, the block's header is marked free, and a
    second [free p] returns at once with exactly the state the first call
    left: flags, sizes, links, head and both counters are untouched. *)
Theorem free_twice_is_noop (s s' : heap) (p : Z) :
  free p s = Done tt s' ->
  (p <> NULL ->
   exists b, hdrs s' !! get_addr p = Some b /\ b_free b = true) /\
  free p s' = Done tt s'.
Proof.
  intros H. destruct (Z.eq_dec p NULL) as [->|Hp].
  - split; [intros Hn; now elim Hn|]. reflexivity.
  - destruct (free_Done_header _ _ _ Hp H) as [b Hb].
    destruct (free_marks _ _ _ _ Hp Hb H) as (b' & Hb' & Hf & _).
    split.
    + intros _. now exists b'.
    + now apply (free_marked_noop p s' b').
Qed.

Lemma free_twice_is_noop_witness :
  exists s', free 4136 heap_two = Done tt s' /\ free 4136 s' = Done tt s'.
Proof.
  eexists. split; [vm_compute; reflexivity|].
  refine (proj2 (free_twice_is_noop heap_two _ 4136 _)).
  vm_compute; reflexivity.
Defined.

(** ** Resize to zero *)

(** Once [free ptr] has run inside [realloc], control falls through to the
    two assertions, and the second one fails on the block just released. *)
Lemma realloc_zero_falls_through p s s' b :
  p <> NULL -> hdrs s !! get_addr p = Some b -> b_ptr b = p ->
  free p s = Done tt s' -> realloc p 0 s = AssertFail.
Proof.
  intros Hp Hb Hptr H.
  destruct (free_marks _ _ _ _ Hp Hb H) as (b' & Hb' & Hf & Hp').
  unfold realloc. cbn [Z.leb Z.compare].
  rewrite (bind_done _ _ _ _ _ H).
  destruct (Z.eqb_spec p NULL); [contradiction|].
  rewrite (bind_done _ _ _ _ _ (load_ok _ _ _ Hb')).
  rewrite Hp', Hptr, Z.eqb_refl, Hf. reflexivity.
Qed.

(** C1 (the code departs from the claim). On the in-use block of 2048 bytes
    of [heap_two], [free] returns, but [realloc] with size 0 stops on its
    assertion [block->free == 0] instead of returning the null pointer. *)
Theorem realloc_zero_aborts :
  (exists b, hdrs heap_two !! get_addr 4136 = Some b /\
             b_free b = false /\ b_ptr b = 4136) /\
  (exists s', free 4136 heap_two = Done tt s') /\
  realloc 4136 0 heap_two = AssertFail.
Proof.
  split; [|split].
  - eexists. split; [vm_compute; reflexivity|]. now split.
  - eexists. vm_compute. reflexivity.
  - vm_compute. reflexivity.
Qed.

(** ** Resize when the fresh allocation fails *)

Lemma realloc_move_null ptr size oldSize s s' :
  malloc size s = Done NULL s' -> realloc_move ptr size oldSize s = Fault.
Proof.
  intros H. unfold realloc_move. rewrite (bind_done _ _ _ _ _ H).
  reflexivity.
Qed.

(** On every path that reaches the allocate-copy-release tail, a failed
    allocation is followed by [memcpy] into the null pointer. *)
Lemma realloc_alloc_failure p size s s' b :
  p <> NULL -> 0 < size -> hdrs s !! get_addr p = Some b ->
  b_ptr b = p -> b_free b = false -> b_size b < size ->
  (b_prev b = NULL \/
   exists q, hdrs s !! b_prev b = Some q /\
     (b_free q = false \/ wrap (b_size b + b_size q + sizeof_mem_block) < size)) ->
  malloc size s = Done NULL s' ->
  realloc p size s = Fault.
Proof.
  intros Hp Hsz Hb Hptr Hfree Hlt Hprev Hm.
  unfold realloc.
  rewrite (proj2 (Z.leb_gt size 0)) by lia.
  unfold bind at 1. unfold ret at 1.
  destruct (Z.eqb_spec p NULL); [contradiction|].
  rewrite (bind_done _ _ _ _ _ (load_ok _ _ _ Hb)).
  rewrite Hptr, Z.eqb_refl, Hfree. unfold assert, bind at 1. cbn [negb].
  unfold bind at 1.
  rewrite (proj2 (Z.leb_gt size (b_size b))) by lia.
  destruct Hprev as [Hnull | (q & Hq & Hcase)].
  - rewrite Hnull. cbn [Z.eqb NULL]. eapply realloc_move_null; eauto.
  - destruct (Z.eqb_spec (b_prev b) NULL);
      [eapply realloc_move_null; eauto|].
    rewrite (bind_done _ _ _ _ _ (load_ok _ _ _ Hq)).
    destruct (b_free q) eqn:Hfq; cbn [negb];
      [|eapply realloc_move_null; eauto].
    destruct Hcase as [Hc|Hc]; [discriminate|].
    rewrite (proj2 (Z.leb_gt _ _)) by lia.
    eapply realloc_move_null; eauto.
Qed.

(** C2 (the code departs from the claim). [heap_full] holds one in-use
    block of 8 bytes and its break cannot move.  Growing the block to 16
    bytes makes the fresh allocation fail, and [realloc] then does not
    return the null pointer: it copies into the null result, a fault. *)
Theorem realloc_failed_allocation_faults :
  (exists b, hdrs heap_full !! get_addr 4136 = Some b /\
             b_free b = false /\ b_size b = 8) /\
  malloc 16 heap_full = Done NULL heap_full /\
  realloc 4136 16 heap_full = Fault.
Proof.
  split; [|split].
  - eexists. split; [vm_compute; reflexivity|]. now split.
  - vm_compute. reflexivity.
  - vm_compute. reflexivity.
Qed.

(** ** Zero-size requests *)

(** The claim of C8 about the result of a zero-size request: that it can be
    told apart from the null pointer by which [malloc] reports failure. *)
Definition zero_size_result_is_not_failure_signal : Prop :=
  forall s r s', malloc 0 s = Done r s' -> r <> NULL.

(** C8, as the code has it. [malloc 0] changes nothing in the heap (headers,
    bytes, head, counters and break are the same state) and returns the null
    pointer, the very value a failed allocation returns. *)
Theorem malloc_zero_returns_null (s : heap) : malloc 0 s = Done NULL s.
Proof. reflexivity. Qed.

(** C8 as stated fails: a failed allocation on [heap_full] returns [NULL],
    and so does a zero-size request. *)
Lemma malloc_zero_not_distinct :
  malloc 16 heap_full = Done NULL heap_full /\
  ~ zero_size_result_is_not_failure_signal.
Proof.
  split; [vm_compute; reflexivity|].
  intros H. apply (H heap_full NULL heap_full); reflexivity.
Qed.

(** ** Zeroing allocation *)


(** The product is modular: 2^63 elements of 2 bytes are a zero-size
    request. *)
Example calloc_overflow :
  calloc (2 ^ 63) 2 heap_full = Done NULL heap_full.
Proof. reflexivity. Qed.

(** ** The registry read as a list

    Following [next] from [head] gives the blocks of the registry, newest
    (highest address) first.  An [entry] keeps what identifies a block:
    where its header is, its capacity and its flag. *)

Record entry := Entry { e_addr : Z; e_size : Z; e_free : bool }.

Fixpoint walk (fuel : nat) (p : Z) (h : gmap Z mem_block) : list entry :=
  match fuel with
  | O => []
  | S fuel' =>
      if p =? NULL then [] else
      match h !! p with
      | None => []
      | Some b => Entry p (b_size b) (b_free b) :: walk fuel' (b_next b) h
      end
  end.

Definition registry (s : heap) : list entry :=
  walk (scan_fuel s) (head s) (hdrs s).

(** The header a well-formed registry holds for entry [x] whose list
    neighbours have headers at [nx] (towards the tail) and [pv] (towards
    the head). *)
Definition hdr_of (x : entry) (nx pv : Z) : mem_block :=
  Block (e_size x) (e_free x) (e_addr x + sizeof_mem_block) nx pv.

Definition first_addr (l : list entry) (d : Z) : Z :=
  match l with [] => d | x :: _ => e_addr x end.

Fixpoint last_addr (l : list entry) (d : Z) : Z :=
  match l with [] => d | x :: l' => last_addr l' (e_addr x) end.

(** [seg h pv l nx]: the headers of [l] are in [h], linked to one another
    in list order, the first one's [prev] being [pv] and the last one's
    [next] being [nx]. *)
Fixpoint seg (h : gmap Z mem_block) (pv : Z) (l : list entry) (nx : Z) : Prop :=
  match l with
  | [] => True
  | x :: l' =>
      h !! e_addr x = Some (hdr_of x (first_addr l' nx) pv) /\
      seg h (e_addr x) l' nx
  end.

(** [layout top l]: the blocks of [l] tile memory downwards from [top]
    without gap or overlap, each header directly above the payload of the
    next entry. *)
Fixpoint layout (top : Z) (l : list entry) : Prop :=
  match l with
  | [] => True
  | x :: l' =>
      e_addr x + sizeof_mem_block + e_size x = top /\
      0 < e_addr x /\ 0 <= e_size x /\ layout (e_addr x) l'
  end.

(** The state holds exactly the registry [l]. *)
Definition repr (s : heap) (l : list entry) : Prop :=
  head s = first_addr l NULL /\
  seg (hdrs s) NULL l NULL /\
  layout (brk s) l /\
  0 < brk s /\ brk s <= brk_limit s /\ brk_limit s < 2 ^ 63.

Lemma first_addr_app l1 l2 d :
  first_addr (l1 ++ l2) d = first_addr l1 (first_addr l2 d).
Proof. now destruct l1. Qed.

Lemma last_addr_app l1 l2 d :
  last_addr (l1 ++ l2) d = last_addr l2 (last_addr l1 d).
Proof. revert d. induction l1 as [|x l1 IH]; intros d; simpl; auto. Qed.

Lemma seg_app h pv l1 l2 nx :
  seg h pv (l1 ++ l2) nx <->
  seg h pv l1 (first_addr l2 nx) /\ seg h (last_addr l1 pv) l2 nx.
Proof.
  revert pv. induction l1 as [|x l1 IH]; intros pv; simpl.
  - tauto.
  - rewrite IH, first_addr_app. tauto.
Qed.

Lemma layout_app top l1 l2 :
  layout top (l1 ++ l2) <-> layout top l1 /\ layout (last_addr l1 top) l2.
Proof.
  revert top. induction l1 as [|x l1 IH]; intros top; simpl.
  - tauto.
  - rewrite IH. tauto.
Qed.

Lemma layout_last_le top l : layout top l -> last_addr l top <= top.
Proof.
  revert top. induction l as [|x l IH]; intros top; simpl; [lia|].
  intros (H1 & H2 & H3 & H4). specialize (IH _ H4).
  unfold sizeof_mem_block in *. lia.
Qed.

Lemma layout_last_pos top l : 0 < top -> layout top l -> 0 < last_addr l top.
Proof.
  revert top. induction l as [|x l IH]; intros top Ht; simpl; [lia|].
  intros (H1 & H2 & H3 & H4). now apply IH.
Qed.

Lemma layout_bounds top l x :
  layout top l -> x ∈ l ->
  0 < e_addr x /\ 0 <= e_size x /\
  e_addr x + sizeof_mem_block + e_size x <= top /\
  last_addr l top <= e_addr x.
Proof.
  revert top. induction l as [|y l IH]; intros top; simpl.
  - intros _ H. now apply elem_of_nil in H.
  - intros (H1 & H2 & H3 & H4) Hx. apply elem_of_cons in Hx as [->|Hx].
    + pose proof (layout_last_le _ _ H4). lia.
    + destruct (IH _ H4 Hx) as (? & ? & ? & ?).
      unfold sizeof_mem_block in *. lia.
Qed.

Lemma seg_frame h h' pv l nx :
  seg h pv l nx ->
  (forall x, x ∈ l -> h' !! e_addr x = h !! e_addr x) ->
  seg h' pv l nx.
Proof.
  revert pv. induction l as [|x l IH]; intros pv; simpl; [trivial|].
  intros [H1 H2] Hf. split.
  - rewrite Hf; [exact H1|]. apply elem_of_cons. now left.
  - apply IH; [exact H2|]. intros y Hy. apply Hf, elem_of_cons. now right.
Qed.

(** Headers below [top] are untouched: a segment lying below keeps. *)
Lemma seg_frame_below h h' pv l nx top :
  seg h pv l nx -> layout top l ->
  (forall a, a < top -> h' !! a = h !! a) ->
  seg h' pv l nx.
Proof.
  intros Hs Hl Hf. eapply seg_frame; [exact Hs|].
  intros x Hx. apply Hf.
  destruct (layout_bounds _ _ _ Hl Hx) as (? & ? & ? & ?).
  unfold sizeof_mem_block in *. lia.
Qed.

(** Headers from the lowest of [l] upwards are untouched. *)
Lemma seg_frame_above h h' pv l nx top :
  seg h pv l nx -> layout top l ->
  (forall a, last_addr l top <= a -> h' !! a = h !! a) ->
  seg h' pv l nx.
Proof.
  intros Hs Hl Hf. eapply seg_frame; [exact Hs|].
  intros x Hx. apply Hf.
  now destruct (layout_bounds _ _ _ Hl Hx) as (? & ? & ? & ?).
Qed.

Lemma first_addr_irrel l d d' : l <> [] -> first_addr l d = first_addr l d'.
Proof. now destruct l. Qed.

Lemma seg_length h pv l nx top :
  seg h pv l nx -> layout top l -> (length l <= base.size h)%nat.
Proof.
  revert h pv top. induction l as [|x l IH]; intros h pv top; simpl; [lia|].
  intros [H1 H2] (L1 & L2 & L3 & L4).
  assert (seg (delete (e_addr x) h) (e_addr x) l nx) as Hd.
  { eapply seg_frame; [exact H2|]. intros y Hy.
    apply lookup_delete_ne.
    destruct (layout_bounds _ _ _ L4 Hy) as (? & ? & ? & ?).
    unfold sizeof_mem_block in *. lia. }
  specialize (IH _ _ _ Hd L4).
  rewrite map_size_delete_Some in IH by (eexists; exact H1).
  assert (base.size h <> 0)%nat.
  { intros E. apply map_size_empty_inv in E. rewrite E in H1.
    now rewrite lookup_empty in H1. }
  lia.
Qed.

Lemma walk_seg h pv l top fuel :
  seg h pv l NULL -> layout top l -> (length l < fuel)%nat ->
  walk fuel (first_addr l NULL) h = l.
Proof.
  revert pv top fuel. induction l as [|x l IH]; intros pv top fuel; simpl.
  - intros _ _ Hf. destruct fuel; [lia|]. reflexivity.
  - intros [H1 H2] (L1 & L2 & L3 & L4) Hf. destruct fuel; [lia|]. simpl.
    destruct (Z.eqb_spec (e_addr x) NULL) as [E|_]; [unfold NULL in E; lia|].
    rewrite H1. simpl. rewrite (IH _ _ _ H2 L4) by lia. now destruct x.
Qed.

Lemma repr_registry s l : repr s l -> registry s = l.
Proof.
  intros (Hh & Hs & Hl & _). unfold registry. rewrite Hh.
  eapply walk_seg; eauto.
  pose proof (seg_length _ _ _ _ _ Hs Hl). unfold scan_fuel. lia.
Qed.

(** ** Running the code on a well-formed registry

    From here on states are written out as [Heap h by_ hd rq al bk lm], so
    that each step of a function rewrites one component. *)

Lemma bind_load {B} a (k : mem_block -> M B) h by_ hd rq al bk lm b :
  h !! a = Some b ->
  bind (load a) k (Heap h by_ hd rq al bk lm) = k b (Heap h by_ hd rq al bk lm).
Proof. intros H. apply bind_done. now apply load_ok. Qed.

Lemma bind_store {B} a f (k : unit -> M B) h by_ hd rq al bk lm b :
  h !! a = Some b -> 0 < a ->
  bind (store a f) k (Heap h by_ hd rq al bk lm)
  = k tt (Heap (<[a := f b]> h) by_ hd rq al bk lm).
Proof.
  intros H H1. apply bind_done.
  rewrite (store_ok a f _ b); [reflexivity|exact H|exact H1].
Qed.

Lemma relink_spec h by_ hd rq al bk lm l1 nx top target :
  seg h NULL l1 nx -> layout top l1 -> top <= bk ->
  (l1 <> [] -> hd = first_addr l1 NULL) ->
  exists h',
    (if last_addr l1 NULL =? NULL then modify (set_head target)
     else store (last_addr l1 NULL) (with_next target))
      (Heap h by_ hd rq al bk lm)
    = Done tt (Heap h' by_ (first_addr l1 target) rq al bk lm) /\
    seg h' NULL l1 target /\
    (forall a, a < last_addr l1 top -> h' !! a = h !! a).
Proof.
  intros Hs Hl Ht Hh.
  destruct l1 as [|q l0 _] using rev_ind.
  - exists h. simpl. split; [reflexivity|]. split; [exact I|]. auto.
  - rewrite !last_addr_app. simpl.
    apply seg_app in Hs as [Hs1 Hs2]. simpl in Hs2. destruct Hs2 as [Hq _].
    apply layout_app in Hl as [Hl1 Hl2]. simpl in Hl2.
    destruct Hl2 as (L1 & L2 & L3 & _).
    pose proof (layout_last_le _ _ Hl1) as Hle.
    unfold sizeof_mem_block in *.
    destruct (Z.eqb_spec (e_addr q) NULL) as [E|_]; [unfold NULL in E; lia|].
    exists (<[e_addr q := hdr_of q target (last_addr l0 NULL)]> h).
    split; [|split].
    + rewrite (store_ok _ _ (Heap h by_ hd rq al bk lm) _ Hq)
        by (simpl; unfold sizeof_mem_block; lia).
      unfold put, set_hdrs. simpl. rewrite Hh by (now destruct l0).
      rewrite !first_addr_app. reflexivity.
    + apply seg_app. split.
      * simpl. eapply seg_frame_above; [exact Hs1|exact Hl1|].
        intros a Ha. apply lookup_insert_ne. lia.
      * simpl. split; [|exact I]. apply lookup_insert_eq.
    + intros a Ha. apply lookup_insert_ne. lia.
Qed.

Lemma wrap_small z : 0 <= z < 2 ^ 64 -> wrap z = z.
Proof. intros H. unfold wrap. now apply Z.mod_small. Qed.

Ltac lk :=
  repeat first [rewrite lookup_insert_eq | rewrite lookup_insert_ne by lia];
  try eassumption; try reflexivity.

Lemma coalesce_prev_merge_hdr h by_ hd rq al bk lm l1 p x l2 :
  repr (Heap h by_ hd rq al bk lm) (l1 ++ p :: x :: l2) ->
  e_free p = true ->
  let x' := Entry (e_addr x) (e_size x + e_size p + sizeof_mem_block) (e_free x) in
  exists h',
    coalesce_prev (e_addr x) (Heap h by_ hd rq al bk lm)
    = Done tt (Heap h' by_ (first_addr (l1 ++ x' :: l2) NULL)
                 (wrap (rq - sizeof_mem_block)) al bk lm) /\
    repr (Heap h' by_ (first_addr (l1 ++ x' :: l2) NULL)
            (wrap (rq - sizeof_mem_block)) al bk lm) (l1 ++ x' :: l2) /\
    h' !! e_addr p = h !! e_addr p.
Proof.
  intros (Hh & Hs & Hl & Hb0 & Hb1 & Hb2) Hfree x'. simpl in Hh, Hs, Hl, Hb0, Hb1, Hb2.
  apply seg_app in Hs as [Hs1 Hs2]. simpl in Hs1, Hs2.
  destruct Hs2 as (Hp & Hx & Hs2).
  apply layout_app in Hl as [Hl1 Hl2]. simpl in Hl2.
  destruct Hl2 as (P1 & P2 & P3 & X1 & X2 & X3 & Hl2).
  pose proof (layout_last_le _ _ Hl1) as Hle.
  unfold sizeof_mem_block in *.
  unfold coalesce_prev.
  erewrite bind_load by lk. cbn [b_prev hdr_of].
  destruct (Z.eqb_spec (e_addr p) NULL) as [E|_]; [unfold NULL in E; lia|].
  erewrite bind_load by lk. cbn [b_free hdr_of]. rewrite Hfree. cbn [negb].
  erewrite bind_store; [|lk|lia].
  erewrite bind_load by lk. cbn [b_prev hdr_of with_size].
  erewrite bind_load by lk. cbn [b_prev hdr_of with_size].
  erewrite bind_store; [|lk|lia].
  erewrite bind_load by lk. cbn [b_prev hdr_of with_size with_prev].
  set (h2 := <[e_addr x := _]> _).
  assert (forall a, a <> e_addr x -> h2 !! a = h !! a) as Hh2.
  { intros a Ha. unfold h2. now rewrite !lookup_insert_ne by auto. }
  destruct (relink_spec h2 by_ hd rq al bk lm l1 (e_addr p) bk (e_addr x))
    as (h3 & Hrun & Hs3 & Hfr); [| exact Hl1 | lia | |].
  { eapply seg_frame_above; [exact Hs1|exact Hl1|].
    intros a Ha. apply Hh2. lia. }
  { intros Hne. rewrite Hh, first_addr_app. now apply first_addr_irrel. }
  rewrite (bind_done _ _ _ _ _ Hrun).
  exists h3. unfold modify. cbn.
  rewrite first_addr_app. split; [reflexivity|].
  split; [|rewrite Hfr by lia; apply Hh2; lia].
  repeat split; try assumption.
  - cbn. now rewrite first_addr_app.
  - cbn. apply seg_app. split; [exact Hs3|]. cbn. split.
    + rewrite Hfr by lia. unfold h2. rewrite lookup_insert_eq.
      unfold hdr_of, with_prev, with_size. cbn. unfold sizeof_mem_block.
      rewrite wrap_small by lia. do 2 f_equal. lia.
    + eapply seg_frame_below; [exact Hs2|exact Hl2|].
      intros a Ha. rewrite Hfr by lia. apply Hh2. lia.
  - cbn. apply layout_app. split; [exact Hl1|]. cbn.
    unfold sizeof_mem_block. repeat split; try lia. exact Hl2.
Qed.

Lemma coalesce_prev_merge h by_ hd rq al bk lm l1 p x l2 :
  repr (Heap h by_ hd rq al bk lm) (l1 ++ p :: x :: l2) ->
  e_free p = true ->
  let x' := Entry (e_addr x) (e_size x + e_size p + sizeof_mem_block) (e_free x) in
  exists h',
    coalesce_prev (e_addr x) (Heap h by_ hd rq al bk lm)
    = Done tt (Heap h' by_ (first_addr (l1 ++ x' :: l2) NULL)
                 (wrap (rq - sizeof_mem_block)) al bk lm) /\
    repr (Heap h' by_ (first_addr (l1 ++ x' :: l2) NULL)
            (wrap (rq - sizeof_mem_block)) al bk lm) (l1 ++ x' :: l2).
Proof.
  intros Hr Hf x'.
  destruct (coalesce_prev_merge_hdr _ _ _ _ _ _ _ _ _ _ _ Hr Hf)
    as (h' & H1 & H2 & _).
  now exists h'.
Qed.

Lemma bind_store_any {B} a f (k : unit -> M B) h by_ hd rq al bk lm :
  0 < a ->
  bind (store a f) k (Heap h by_ hd rq al bk lm)
  = k tt (Heap (<[a := f (default blank (h !! a))]> h) by_ hd rq al bk lm).
Proof.
  intros H1. apply bind_done. unfold store.
  rewrite (proj2 (Z.ltb_lt 0 a)) by lia.
  reflexivity.
Qed.

Lemma coalesce_prev_skip h by_ hd rq al bk lm l1 x l2 :
  repr (Heap h by_ hd rq al bk lm) (l1 ++ x :: l2) ->
  (forall l0 p, l1 = l0 ++ [p] -> e_free p = false) ->
  coalesce_prev (e_addr x) (Heap h by_ hd rq al bk lm)
  = Done tt (Heap h by_ hd rq al bk lm).
Proof.
  intros (Hh & Hs & Hl & Hb0 & Hb1 & Hb2) Hnf. simpl in Hh, Hs, Hl, Hb0, Hb1, Hb2.
  apply seg_app in Hs as [Hs1 Hs2]. simpl in Hs1, Hs2. destruct Hs2 as (Hx & Hs2).
  unfold coalesce_prev. erewrite bind_load by lk. cbn [b_prev hdr_of].
  destruct l1 as [|p l0 _] using rev_ind; [reflexivity|].
  rewrite last_addr_app. simpl.
  apply layout_app in Hl as [Hl1 _]. apply layout_app in Hl1 as [_ Hl1].
  simpl in Hl1. destruct Hl1 as (_ & P2 & _).
  destruct (Z.eqb_spec (e_addr p) NULL) as [E|_]; [unfold NULL in E; lia|].
  apply seg_app in Hs1 as [_ Hp]. simpl in Hp. destruct Hp as [Hp _].
  erewrite bind_load by lk. cbn [b_free hdr_of].
  rewrite (Hnf l0 p eq_refl). reflexivity.
Qed.

Lemma coalesce_next_merge h by_ hd rq al bk lm l1 x n l2 :
  repr (Heap h by_ hd rq al bk lm) (l1 ++ x :: n :: l2) ->
  e_free n = true ->
  let n' := Entry (e_addr n) (e_size n + e_size x + sizeof_mem_block) (e_free n) in
  exists h',
    coalesce_next (e_addr x) (Heap h by_ hd rq al bk lm)
    = Done tt (Heap h' by_ (first_addr (l1 ++ n' :: l2) NULL)
                 (wrap (rq - sizeof_mem_block)) al bk lm) /\
    repr (Heap h' by_ (first_addr (l1 ++ n' :: l2) NULL)
            (wrap (rq - sizeof_mem_block)) al bk lm) (l1 ++ n' :: l2).
Proof.
  intros (Hh & Hs & Hl & Hb0 & Hb1 & Hb2) Hfree n'. simpl in Hh, Hs, Hl, Hb0, Hb1, Hb2.
  apply seg_app in Hs as [Hs1 Hs2]. simpl in Hs1, Hs2.
  destruct Hs2 as (Hx & Hn & Hs2).
  apply layout_app in Hl as [Hl1 Hl2]. simpl in Hl2.
  destruct Hl2 as (X1 & X2 & X3 & N1 & N2 & N3 & Hl2).
  pose proof (layout_last_le _ _ Hl1) as Hle.
  unfold coalesce_next, sizeof_mem_block in *.
  erewrite bind_load by lk. cbn [b_next b_prev hdr_of].
  destruct (Z.eqb_spec (e_addr n) NULL) as [E|_]; [unfold NULL in E; lia|].
  erewrite bind_load by lk. cbn [b_free hdr_of]. rewrite Hfree. cbn [negb].
  erewrite bind_store; [|lk|lia].
  erewrite bind_load by lk. cbn [b_next b_prev hdr_of].
  erewrite bind_store; [|lk|lia].
  erewrite bind_load by lk. cbn [b_next b_prev hdr_of with_size with_prev].
  set (h2 := <[e_addr n := _]> _).
  assert (forall a, a <> e_addr n -> h2 !! a = h !! a) as Hh2.
  { intros a Ha. unfold h2. now rewrite !lookup_insert_ne by auto. }
  destruct (relink_spec h2 by_ hd rq al bk lm l1 (e_addr x) bk (e_addr n))
    as (h3 & Hrun & Hs3 & Hfr); [| exact Hl1 | lia | |].
  { eapply seg_frame_above; [exact Hs1|exact Hl1|].
    intros a Ha. apply Hh2. lia. }
  { intros Hne. rewrite Hh, first_addr_app. now apply first_addr_irrel. }
  rewrite (bind_done _ _ _ _ _ Hrun).
  exists h3. unfold modify. cbn.
  rewrite first_addr_app. split; [reflexivity|].
  repeat split; try assumption.
  - cbn. now rewrite first_addr_app.
  - cbn. apply seg_app. split; [exact Hs3|]. cbn. split.
    + rewrite Hfr by lia. unfold h2. rewrite lookup_insert_eq.
      unfold hdr_of, with_prev, with_size. cbn. unfold sizeof_mem_block.
      rewrite wrap_small by lia. do 2 f_equal. lia.
    + eapply seg_frame_below; [exact Hs2|exact Hl2|].
      intros a Ha. rewrite Hfr by lia. apply Hh2. lia.
  - cbn. apply layout_app. split; [exact Hl1|]. cbn.
    unfold sizeof_mem_block. repeat split; try lia. exact Hl2.
Qed.

Lemma coalesce_next_skip h by_ hd rq al bk lm l1 x l2 :
  repr (Heap h by_ hd rq al bk lm) (l1 ++ x :: l2) ->
  (forall n l0, l2 = n :: l0 -> e_free n = false) ->
  coalesce_next (e_addr x) (Heap h by_ hd rq al bk lm)
  = Done tt (Heap h by_ hd rq al bk lm).
Proof.
  intros (Hh & Hs & Hl & Hb0 & Hb1 & Hb2) Hnf. simpl in Hh, Hs, Hl, Hb0, Hb1, Hb2.
  apply seg_app in Hs as [Hs1 Hs2]. simpl in Hs1, Hs2. destruct Hs2 as (Hx & Hs2).
  unfold coalesce_next. erewrite bind_load by lk. cbn [b_next hdr_of].
  destruct l2 as [|n l0]; [reflexivity|]. simpl. simpl in Hs2.
  destruct Hs2 as [Hn _].
  apply layout_app in Hl as [_ Hl]. simpl in Hl.
  destruct Hl as (_ & _ & _ & _ & N2 & _).
  destruct (Z.eqb_spec (e_addr n) NULL) as [E|_]; [unfold NULL in E; lia|].
  erewrite bind_load by lk. cbn [b_free hdr_of].
  rewrite (Hnf n l0 eq_refl). reflexivity.
Qed.

Lemma run_store a f h by_ hd rq al bk lm b :
  h !! a = Some b -> 0 < a ->
  store a f (Heap h by_ hd rq al bk lm)
  = Done tt (Heap (<[a := f b]> h) by_ hd rq al bk lm).
Proof.
  intros H H1.
  rewrite (store_ok a f (Heap h by_ hd rq al bk lm) b); [reflexivity|exact H|exact H1].
Qed.

Lemma split_mem_spec h by_ hd rq al bk lm l1 x l2 size :
  repr (Heap h by_ hd rq al bk lm) (l1 ++ x :: l2) ->
  0 <= size -> size + sizeof_mem_block <= e_size x ->
  let nb := Entry (e_addr x + sizeof_mem_block + size)
                  (e_size x - size - sizeof_mem_block) true in
  let x' := Entry (e_addr x) size (e_free x) in
  exists h',
    split_mem (e_addr x) size (Heap h by_ hd rq al bk lm)
    = Done tt (Heap h' by_ (first_addr (l1 ++ nb :: x' :: l2) NULL) rq al bk lm) /\
    repr (Heap h' by_ (first_addr (l1 ++ nb :: x' :: l2) NULL) rq al bk lm)
         (l1 ++ nb :: x' :: l2).
Proof.
  intros (Hh & Hs & Hl & Hb0 & Hb1 & Hb2) Hsz Hfit nb x'.
  simpl in Hh, Hs, Hl, Hb0, Hb1, Hb2.
  apply seg_app in Hs as [Hs1 Hs2]. simpl in Hs1, Hs2. destruct Hs2 as (Hx & Hs2).
  apply layout_app in Hl as [Hl1 Hl2]. simpl in Hl2.
  destruct Hl2 as (X1 & X2 & X3 & Hl2).
  pose proof (layout_last_le _ _ Hl1) as Hle.
  unfold split_mem, sizeof_mem_block in *.
  erewrite bind_load by lk. cbn [b_ptr b_size hdr_of].
  unfold sizeof_mem_block.
  rewrite bind_store_any by lia.
  erewrite bind_store; [|lk|lia].
  erewrite bind_store; [|lk|lia].
  erewrite bind_store; [|lk|lia].
  erewrite bind_load by lk. cbn [b_prev hdr_of].
  set (h2 := <[e_addr x + 40 + size := _]> _).
  assert (forall a, a <> e_addr x + 40 + size -> h2 !! a = h !! a) as Hh2.
  { intros a Ha. unfold h2. now rewrite !lookup_insert_ne by auto. }
  destruct (relink_spec h2 by_ hd rq al bk lm l1 (e_addr x) bk
              (e_addr x + 40 + size))
    as (h3 & Hrun & Hs3 & Hfr); [| exact Hl1 | lia | |].
  { eapply seg_frame_above; [exact Hs1|exact Hl1|].
    intros a Ha. apply Hh2. lia. }
  { intros Hne. rewrite Hh, first_addr_app. now apply first_addr_irrel. }
  rewrite (bind_done _ _ _ _ _ Hrun).
  assert (h3 !! e_addr x = Some (hdr_of x (first_addr l2 NULL) (last_addr l1 NULL)))
    as Hx3.
  { rewrite Hfr by lia. rewrite Hh2 by lia. exact Hx. }
  erewrite bind_load by exact Hx3. cbn [b_prev hdr_of].
  erewrite bind_store; [| rewrite Hfr by lia; unfold h2; lk |lia].
  erewrite bind_store; [| lk |lia].
  eexists. split.
  { erewrite run_store; [| lk |lia].
    rewrite first_addr_app. reflexivity. }
  repeat split; try assumption.
  - cbn. apply seg_app. split; [|cbn; split; [|split]].
    + eapply seg_frame_above; [exact Hs3|exact Hl1|].
      intros a Ha. now rewrite !lookup_insert_ne by lia.
    + lk. unfold hdr_of. cbn. unfold sizeof_mem_block.
      rewrite wrap_small by lia. reflexivity.
    + lk.
    + eapply seg_frame_below; [exact Hs2|exact Hl2|].
      intros a Ha. rewrite !lookup_insert_ne by lia.
      rewrite Hfr by lia. apply Hh2. lia.
  - cbn. apply layout_app. split; [exact Hl1|]. cbn.
    unfold sizeof_mem_block. repeat split; try lia. exact Hl2.
Qed.

Lemma to_intptr_small z : 0 <= z < 2 ^ 63 -> to_intptr (wrap z) = z.
Proof.
  intros H. rewrite wrap_small by lia. unfold to_intptr.
  now rewrite (proj2 (Z.ltb_lt _ _)) by lia.
Qed.

Lemma to_intptr_large z :
  2 ^ 63 <= z < 2 ^ 64 + 2 ^ 63 -> to_intptr (wrap z) = z - 2 ^ 64.
Proof.
  intros H. unfold to_intptr, wrap.
  destruct (Z_lt_dec z (2 ^ 64)).
  - rewrite Z.mod_small by lia. now rewrite (proj2 (Z.ltb_ge _ _)) by lia.
  - assert (z mod 2 ^ 64 = z - 2 ^ 64) as ->.
    { symmetry. apply (Z.mod_unique z (2 ^ 64) 1); lia. }
    now rewrite (proj2 (Z.ltb_lt _ _)) by lia.
Qed.

Lemma bind_assoc {A B C} (m : M A) (k1 : A -> M B) (k2 : B -> M C) s :
  bind (bind m k1) k2 s = bind m (fun a => bind (k1 a) k2) s.
Proof. unfold bind. now destruct (m s). Qed.

Ltac hsimpl :=
  unfold set_hdrs, set_bytes, set_head, set_requested, set_allocated, set_brk, put;
  cbn [hdrs bytes head requested_size allocated_size brk brk_limit
       b_size b_free b_ptr b_next b_prev
       with_size with_free with_ptr with_next with_prev].

Lemma grow_spec h by_ hd rq al bk lm l size :
  repr (Heap h by_ hd rq al bk lm) l ->
  0 < size < 2 ^ 63 - sizeof_mem_block ->
  match grow size (Heap h by_ hd rq al bk lm) with
  | Done p s' =>
      (p = NULL /\ s' = Heap h by_ hd rq al bk lm /\
       lm < bk + sizeof_mem_block + size) \/
      (p = bk + sizeof_mem_block /\ bk + sizeof_mem_block + size <= lm /\
       exists h',
         s' = Heap h' by_ bk (wrap (rq + (size + sizeof_mem_block)))
                (wrap (al + (size + sizeof_mem_block)))
                (bk + sizeof_mem_block + size) lm /\
         repr s' (Entry bk size false :: l))
  | _ => False
  end.
Proof.
  intros (Hh & Hs & Hl & Hb0 & Hb1 & Hb2) Hsz.
  simpl in Hh, Hs, Hl, Hb0, Hb1, Hb2.
  unfold grow, sizeof_mem_block in *.
  - rewrite to_intptr_small by lia.
    unfold bind at 1. unfold sbrk. cbn [brk brk_limit].
    rewrite (proj2 (Z.leb_le 0 _)) by lia. cbn [andb].
    destruct (Z.leb_spec (bk + (40 + size)) lm) as [Hroom|Hfull].
    2:{ left. split; [reflexivity|]. split; [reflexivity|]. lia. }
    unfold set_brk.
    cbn [hdrs bytes head requested_size allocated_size brk brk_limit].
    rewrite bind_store_any by lia.
    erewrite bind_store; [|lk|lia].
    erewrite bind_store; [|lk|lia].
    unfold bind at 1. unfold get. cbn [head].
    erewrite bind_store; [|lk|lia].
    set (h1 := <[bk := _]> _).
    assert (forall a, a <> bk -> h1 !! a = h !! a) as Hh1.
    { intros a Ha. unfold h1. now rewrite !lookup_insert_ne by auto. }
    assert (exists b0, h1 !! bk = Some b0 /\ b_size b0 = size /\ b_free b0 = false
                       /\ b_ptr b0 = bk + 40 /\ b_next b0 = hd) as (b0 & Hb & B1 & B2 & B3 & B4).
    { eexists. split; [unfold h1; apply lookup_insert_eq|]. now cbn. }
    clearbody h1.
    destruct l as [|y l'].
    + simpl in Hh. subst hd. cbn [Z.eqb NULL].
      erewrite bind_store; [|lk|lia].
      unfold modify, bind, load, ret. hsimpl. rewrite lookup_insert_eq. hsimpl.
      replace (bk + (40 + size)) with (bk + 40 + size) by lia.
      right. rewrite B3. split; [reflexivity|]. split; [lia|].
      eexists. split; [reflexivity|].
      repeat split; cbn; unfold sizeof_mem_block; try lia.
      rewrite lookup_insert_eq. destruct b0; cbn in *. subst. reflexivity.
    + simpl in Hh, Hs, Hl. destruct Hs as [Hy Hs]. destruct Hl as (Y1 & Y2 & Y3 & Hl).
      subst hd. unfold sizeof_mem_block in *.
      destruct (Z.eqb_spec (e_addr y) NULL) as [E|_]; [unfold NULL in E; lia|].
      rewrite bind_assoc.
      erewrite bind_load by (rewrite Hh1 by lia; exact Hy).
      cbn [b_prev hdr_of]. rewrite bind_assoc.
      erewrite bind_store; [|lk|lia].
      erewrite bind_store; [|rewrite lookup_insert_ne by lia; rewrite Hh1 by lia; exact Hy|lia].
      unfold modify, bind, load, ret. hsimpl. rewrite lookup_insert_ne by lia.
      rewrite lookup_insert_eq. hsimpl.
      replace (bk + (40 + size)) with (bk + 40 + size) by lia.
      right. rewrite B3. split; [reflexivity|]. split; [lia|].
      eexists. split; [reflexivity|].
      repeat split; cbn; unfold sizeof_mem_block; try lia; try exact Hl.
      * rewrite lookup_insert_ne by lia. rewrite lookup_insert_eq.
        destruct b0; cbn in *. subst. reflexivity.
      * rewrite lookup_insert_eq. reflexivity.
      * eapply seg_frame_below; [exact Hs|exact Hl|].
        intros a Ha. rewrite !lookup_insert_ne by lia. apply Hh1. lia.
Qed.

Definition fits (size : Z) (x : entry) : bool :=
  e_free x && (size <=? e_size x).

Lemma first_fit_none h by_ hd rq al bk lm size l2 : forall l0 fuel,
  repr (Heap h by_ hd rq al bk lm) (l0 ++ l2) ->
  Forall (fun y => fits size y = false) l2 ->
  (length l2 < fuel)%nat ->
  first_fit fuel (first_addr l2 NULL) size (Heap h by_ hd rq al bk lm)
  = Done NULL (Heap h by_ hd rq al bk lm).
Proof.
  induction l2 as [|y l2 IH]; intros l0 fuel Hr Hn Hf.
  - destruct fuel; [simpl in Hf; lia|]. reflexivity.
  - destruct fuel; [simpl in Hf; lia|]. simpl in Hf.
    pose proof Hr as (Hh & Hs & Hl & _). cbn in Hs, Hl.
    apply seg_app in Hs as [_ Hs]. simpl in Hs. destruct Hs as [Hy _].
    apply layout_app in Hl as [_ Hl]. simpl in Hl. destruct Hl as (_ & Y2 & _).
    cbn [first_fit first_addr].
    destruct (Z.eqb_spec (e_addr y) NULL) as [E|_]; [unfold NULL in E; lia|].
    erewrite bind_load by exact Hy. cbn [b_free b_size b_next hdr_of].
    apply Forall_cons in Hn as [Hy0 Hn]. unfold fits in Hy0. rewrite Hy0.
    apply (IH (l0 ++ [y])); [now rewrite <- app_assoc|exact Hn|lia].
Qed.

Lemma first_fit_some h by_ hd rq al bk lm size x lb la : forall l0 fuel,
  repr (Heap h by_ hd rq al bk lm) (l0 ++ la ++ x :: lb) ->
  Forall (fun y => fits size y = false) la ->
  fits size x = true ->
  (length (la ++ x :: lb) < fuel)%nat ->
  first_fit fuel (first_addr (la ++ x :: lb) NULL) size (Heap h by_ hd rq al bk lm)
  = ((if (wrap (2 * size) <=? e_size x) && (1024 <=? wrap (e_size x - size))
      then split_mem (e_addr x) size ;;;
           modify (fun s => set_requested
                              (wrap (requested_size s + sizeof_mem_block)) s)
      else ret tt) ;;;
     ret (e_addr x)) (Heap h by_ hd rq al bk lm).
Proof.
  induction la as [|y la IH]; intros l0 fuel Hr Hn Hx Hf.
  - destruct fuel; [simpl in Hf; lia|].
    pose proof Hr as (Hh & Hs & Hl & _). cbn in Hs, Hl.
    apply seg_app in Hs as [_ Hs]. simpl in Hs. destruct Hs as [Hy _].
    apply layout_app in Hl as [_ Hl]. simpl in Hl. destruct Hl as (_ & Y2 & _).
    cbn [first_fit first_addr app].
    destruct (Z.eqb_spec (e_addr x) NULL) as [E|_]; [unfold NULL in E; lia|].
    erewrite bind_load by exact Hy. cbn [b_free b_size b_next hdr_of].
    unfold fits in Hx. rewrite Hx. reflexivity.
  - destruct fuel; [simpl in Hf; lia|]. simpl in Hf.
    pose proof Hr as (Hh & Hs & Hl & _). cbn in Hs, Hl.
    apply seg_app in Hs as [_ Hs]. simpl in Hs. destruct Hs as [Hy _].
    apply layout_app in Hl as [_ Hl]. simpl in Hl. destruct Hl as (_ & Y2 & _).
    cbn [first_fit first_addr app].
    destruct (Z.eqb_spec (e_addr y) NULL) as [E|_]; [unfold NULL in E; lia|].
    erewrite bind_load by exact Hy. cbn [b_free b_size b_next hdr_of].
    apply Forall_cons in Hn as [Hy0 Hn]. unfold fits in Hy0. rewrite Hy0.
    apply (IH (l0 ++ [y])); [now rewrite <- app_assoc|exact Hn|exact Hx|lia].
Qed.

Lemma first_fit_split size (l : list entry) :
  Forall (fun y => fits size y = false) l \/
  exists la x lb, l = la ++ x :: lb /\
    Forall (fun y => fits size y = false) la /\ fits size x = true.
Proof.
  induction l as [|y l IH]; [left; constructor|].
  destruct (fits size y) eqn:E.
  - right. exists [], y, l. repeat split; [constructor|exact E].
  - destruct IH as [IH|(la & x & lb & -> & Hla & Hx)].
    + left. now constructor.
    + right. exists (y :: la), x, lb. repeat split; [now constructor|exact Hx].
Qed.

Lemma mark_spec h by_ hd rq al bk lm l1 x l2 v :
  repr (Heap h by_ hd rq al bk lm) (l1 ++ x :: l2) ->
  let x' := Entry (e_addr x) (e_size x) v in
  let h' := <[e_addr x := hdr_of x' (first_addr l2 NULL) (last_addr l1 NULL)]> h in
  h !! e_addr x = Some (hdr_of x (first_addr l2 NULL) (last_addr l1 NULL)) /\
  0 < e_addr x /\ e_addr x + 40 <= bk /\
  repr (Heap h' by_ hd rq al bk lm) (l1 ++ x' :: l2).
Proof.
  intros (Hh & Hs & Hl & Hb0 & Hb1 & Hb2) x' h'. simpl in Hh, Hs, Hl, Hb0, Hb1, Hb2.
  apply seg_app in Hs as [Hs1 Hs2]. simpl in Hs1, Hs2. destruct Hs2 as (Hx & Hs2).
  apply layout_app in Hl as [Hl1 Hl2]. simpl in Hl2.
  destruct Hl2 as (X1 & X2 & X3 & Hl2).
  pose proof (layout_last_le _ _ Hl1) as Hle.
  unfold sizeof_mem_block in *.
  split; [exact Hx|]. split; [lia|]. split; [lia|].
  repeat split; try assumption.
  - cbn. rewrite Hh, !first_addr_app. reflexivity.
  - cbn. apply seg_app. split; [|cbn; split].
    + eapply seg_frame_above; [exact Hs1|exact Hl1|].
      intros a Ha. apply lookup_insert_ne. lia.
    + apply lookup_insert_eq.
    + eapply seg_frame_below; [exact Hs2|exact Hl2|].
      intros a Ha. apply lookup_insert_ne. cbn. lia.
  - cbn. apply layout_app. split; [exact Hl1|]. cbn.
    unfold sizeof_mem_block. repeat split; try lia. exact Hl2.
Qed.

Lemma repr_fuel h by_ hd rq al bk lm l :
  repr (Heap h by_ hd rq al bk lm) l ->
  (length l < scan_fuel (Heap h by_ hd rq al bk lm))%nat.
Proof.
  intros (_ & Hs & Hl & _). cbn in Hs, Hl.
  pose proof (seg_length _ _ _ _ _ Hs Hl). unfold scan_fuel. cbn. lia.
Qed.

Lemma repr_size_bound h by_ hd rq al bk lm l x :
  repr (Heap h by_ hd rq al bk lm) l -> x ∈ l ->
  0 < e_addr x /\ 0 <= e_size x /\ e_addr x + 40 + e_size x <= bk /\ bk < 2 ^ 63.
Proof.
  intros (_ & _ & Hl & Hb0 & Hb1 & Hb2) Hx. cbn in Hl, Hb0, Hb1, Hb2.
  destruct (layout_bounds _ _ _ Hl Hx) as (? & ? & ? & ?).
  unfold sizeof_mem_block in *. lia.
Qed.

Lemma repr_ext s s' l :
  hdrs s' = hdrs s -> head s' = head s -> brk s' = brk s ->
  brk_limit s' = brk_limit s -> repr s l -> repr s' l.
Proof.
  intros E1 E2 E3 E4 H. unfold repr in *. now rewrite E1, E2, E3, E4.
Qed.

Lemma malloc_reuse h by_ hd rq al bk lm size l1 x l2 :
  repr (Heap h by_ hd rq al bk lm) (l1 ++ x :: l2) ->
  0 < size ->
  Forall (fun y => fits size y = false) l1 -> fits size x = true ->
  size <= wrap (al - rq) ->
  if (2 * size <=? e_size x) && (1024 <=? e_size x - size) then
    let nb := Entry (e_addr x + sizeof_mem_block + size)
                    (e_size x - size - sizeof_mem_block) true in
    let x' := Entry (e_addr x) size false in
    exists h',
      malloc size (Heap h by_ hd rq al bk lm)
      = Done (e_addr x + sizeof_mem_block)
          (Heap h' by_ (first_addr (l1 ++ nb :: x' :: l2) NULL)
             (wrap (wrap (rq + sizeof_mem_block) + size)) al bk lm) /\
      repr (Heap h' by_ (first_addr (l1 ++ nb :: x' :: l2) NULL)
              (wrap (wrap (rq + sizeof_mem_block) + size)) al bk lm)
           (l1 ++ nb :: x' :: l2)
  else
    let x' := Entry (e_addr x) (e_size x) false in
    exists h',
      malloc size (Heap h by_ hd rq al bk lm)
      = Done (e_addr x + sizeof_mem_block)
          (Heap h' by_ hd (wrap (rq + e_size x)) al bk lm) /\
      repr (Heap h' by_ hd (wrap (rq + e_size x)) al bk lm) (l1 ++ x' :: l2).
Proof.
  intros Hr Hsz Hn Hx Hpre.
  pose proof Hr as (Hh & _). cbn in Hh.
  assert (x ∈ l1 ++ x :: l2) as Hin by (apply elem_of_app; right; apply elem_of_cons; now left).
  destruct (repr_size_bound _ _ _ _ _ _ _ _ _ Hr Hin) as (X2 & X3 & X4 & Hbk).
  pose proof Hx as Hfit. unfold fits in Hfit.
  apply andb_prop in Hfit as [Hxf Hxs]. apply Z.leb_le in Hxs.
  assert (malloc size (Heap h by_ hd rq al bk lm)
          = bind ((if (wrap (2 * size) <=? e_size x) && (1024 <=? wrap (e_size x - size))
                   then split_mem (e_addr x) size ;;;
                        modify (fun s => set_requested
                                 (wrap (requested_size s + sizeof_mem_block)) s)
                   else ret tt))
              (fun _ => store (e_addr x) (with_free false) ;;;
                        c <- load (e_addr x) ;;
                        modify (fun s => set_requested (wrap (requested_size s + b_size c)) s) ;;;
                        ret (b_ptr c)) (Heap h by_ hd rq al bk lm)) as ->.
  { unfold malloc. destruct (Z.eqb_spec size 0); [lia|].
    unfold bind at 1. unfold get. cbn [allocated_size requested_size head].
    rewrite (proj2 (Z.leb_le _ _) Hpre).
    pose proof (first_fit_some h by_ hd rq al bk lm size x l2 l1 [] _
                  Hr Hn Hx (repr_fuel _ _ _ _ _ _ _ _ Hr)) as Hff.
    rewrite <- Hh in Hff. unfold bind at 1. rewrite Hff. clear Hff.
    set (m := if (wrap (2 * size) <=? e_size x) && _ then _ else _).
    unfold bind at 1. symmetry. unfold bind at 1. symmetry.
    destruct (m _) as [u s1| | |]; try reflexivity.
    unfold ret at 1.
    destruct (Z.eqb_spec (e_addr x) NULL) as [E|_]; [unfold NULL in E; lia|].
    reflexivity. }
  rewrite (wrap_small (2 * size)) by lia.
  rewrite (wrap_small (e_size x - size)) by lia.
  destruct ((2 * size <=? e_size x) && (1024 <=? e_size x - size)) eqn:Hc.
  - apply andb_prop in Hc as [Hc1 Hc2]. apply Z.leb_le in Hc1, Hc2.
    intros nb x'.
    destruct (split_mem_spec h by_ hd rq al bk lm l1 x l2 size Hr)
      as (h1 & Hrun & Hr1); [lia|unfold sizeof_mem_block; lia|].
    rewrite bind_assoc. rewrite (bind_done _ _ _ _ _ Hrun).
    unfold bind at 1. unfold modify. hsimpl.
    fold nb in Hr1, Hrun |- *.
    set (xs := Entry (e_addr x) size (e_free x)) in *.
    assert (repr (Heap h1 by_ (first_addr (l1 ++ nb :: xs :: l2) NULL)
                    (wrap (wrap (rq + sizeof_mem_block) + size)) al bk lm)
                 ((l1 ++ [nb]) ++ xs :: l2)) as Hr2.
    { rewrite <- app_assoc. cbn [app].
      eapply repr_ext; [..|exact Hr1]; reflexivity. }
    destruct (mark_spec _ _ _ _ _ _ _ _ _ _ false Hr2) as (Hlk & A1 & A2 & Hr3).
    erewrite bind_store; [|exact Hlk|lia].
    erewrite bind_load by apply lookup_insert_eq.
    unfold bind, modify, ret. hsimpl. cbn [hdr_of b_size b_ptr xs e_size e_addr].
    eexists. split.
    + assert (first_addr (l1 ++ nb :: xs :: l2) NULL = first_addr (l1 ++ nb :: x' :: l2) NULL) as <-.
      { now rewrite !first_addr_app. }
      reflexivity.
    + rewrite <- app_assoc in Hr3. cbn [app] in Hr3.
      eapply repr_ext; [..|exact Hr3]; try reflexivity.
      cbn. now rewrite !first_addr_app.
  - intros x'.
    unfold bind at 1. unfold ret at 1.
    destruct (mark_spec _ _ _ _ _ _ _ _ _ _ false Hr) as (Hlk & A1 & A2 & Hr3).
    erewrite bind_store; [|exact Hlk|lia].
    erewrite bind_load by apply lookup_insert_eq.
    unfold bind, modify, ret. hsimpl. cbn [hdr_of b_size b_ptr e_size e_addr].
    eexists. split; [reflexivity|].
    eapply repr_ext; [..|exact Hr3]; reflexivity.
Qed.

Lemma malloc_no_fit h by_ hd rq al bk lm size l :
  repr (Heap h by_ hd rq al bk lm) l -> 0 < size ->
  wrap (al - rq) < size \/ Forall (fun y => fits size y = false) l ->
  malloc size (Heap h by_ hd rq al bk lm) = grow size (Heap h by_ hd rq al bk lm).
Proof.
  intros Hr Hsz Hc. unfold malloc.
  destruct (Z.eqb_spec size 0); [lia|].
  unfold bind at 1. unfold get. cbn [allocated_size requested_size head].
  destruct (Z.leb_spec size (wrap (al - rq))) as [Hpre|Hpre].
  - destruct Hc as [Hc|Hc]; [lia|].
    pose proof (first_fit_none h by_ hd rq al bk lm size l [] _ Hr Hc
                  (repr_fuel _ _ _ _ _ _ _ _ Hr)) as Hff.
    pose proof Hr as (Hh & _). cbn in Hh. rewrite <- Hh in Hff.
    unfold bind at 1. rewrite Hff. reflexivity.
  - reflexivity.
Qed.

(** ** Accounting and adjacency on the registry list *)

Fixpoint sum_all (l : list entry) : Z :=
  match l with
  | [] => 0
  | x :: l' => e_size x + sizeof_mem_block + sum_all l'
  end.

Fixpoint sum_free (l : list entry) : Z :=
  match l with
  | [] => 0
  | x :: l' => (if e_free x then e_size x else 0) + sum_free l'
  end.

Definition first_free (l : list entry) : bool :=
  match l with [] => false | x :: _ => e_free x end.

Fixpoint last_free (l : list entry) (d : bool) : bool :=
  match l with [] => d | x :: l' => last_free l' (e_free x) end.

(** No two neighbours of the list are both free. *)
Fixpoint no_free_pair (l : list entry) : bool :=
  match l with
  | [] => true
  | x :: l' => negb (e_free x && first_free l') && no_free_pair l'
  end.

Lemma sum_all_app l1 l2 : sum_all (l1 ++ l2) = sum_all l1 + sum_all l2.
Proof. induction l1 as [|x l1 IH]; simpl; lia. Qed.

Lemma sum_free_app l1 l2 : sum_free (l1 ++ l2) = sum_free l1 + sum_free l2.
Proof. induction l1 as [|x l1 IH]; simpl; lia. Qed.

Lemma last_free_app l1 l2 d :
  last_free (l1 ++ l2) d = last_free l2 (last_free l1 d).
Proof. revert d. induction l1 as [|x l1 IH]; intros d; simpl; auto. Qed.

Lemma first_free_app l1 l2 :
  first_free (l1 ++ l2) = match l1 with [] => first_free l2 | x :: _ => e_free x end.
Proof. now destruct l1. Qed.

Lemma no_free_pair_app l1 l2 :
  no_free_pair (l1 ++ l2)
  = no_free_pair l1 && no_free_pair l2
    && negb (last_free l1 false && first_free l2).
Proof.
  induction l1 as [|x l1 IH]; simpl.
  - now rewrite andb_true_r.
  - rewrite IH. destruct l1 as [|y l1]; simpl.
    + destruct (e_free x), (first_free l2), (no_free_pair l2); reflexivity.
    + destruct (e_free x), (e_free y), (no_free_pair l1), (no_free_pair l2);
        simpl; try reflexivity.
Qed.

Lemma last_free_inv l :
  last_free l false = true ->
  exists l0 p, l = l0 ++ [p] /\ e_free p = true.
Proof.
  destruct l as [|p l0 _] using rev_ind; [discriminate|].
  rewrite last_free_app. simpl. intros H. now exists l0, p.
Qed.

Lemma last_free_snoc l0 p d : last_free (l0 ++ [p]) d = e_free p.
Proof. now rewrite last_free_app. Qed.

Lemma sum_all_layout top l : layout top l -> sum_all l = top - last_addr l top.
Proof.
  revert top. induction l as [|x l IH]; intros top; simpl; [lia|].
  intros (H1 & H2 & H3 & H4). rewrite (IH _ H4). lia.
Qed.

Lemma sum_free_bounds top l :
  layout top l -> 0 <= sum_free l <= sum_all l.
Proof.
  revert top. induction l as [|x l IH]; intros top; simpl; [lia|].
  intros (H1 & H2 & H3 & H4). specialize (IH _ H4).
  unfold sizeof_mem_block. destruct (e_free x); lia.
Qed.


Lemma wrap_sub_l a b : wrap (wrap a - b) = wrap (a - b).
Proof. unfold wrap. apply Zminus_mod_idemp_l. Qed.

Lemma wrap_add_l a b : wrap (wrap a + b) = wrap (a + b).
Proof. unfold wrap. apply Zplus_mod_idemp_l. Qed.

(** Congruence modulo 2^64, to rewrite under sums and differences. *)
Definition eqw (a b : Z) : Prop := wrap a = wrap b.

#[export] Instance eqw_equiv : Equivalence eqw.
Proof.
  split; unfold eqw; [intros a|intros a b|intros a b c]; congruence.
Qed.

#[export] Instance eqw_add : Proper (eqw ==> eqw ==> eqw) Z.add.
Proof.
  intros a a' Ha b b' Hb. unfold eqw, wrap in *.
  rewrite (Zplus_mod a), (Zplus_mod a'). now rewrite Ha, Hb.
Qed.

#[export] Instance eqw_sub : Proper (eqw ==> eqw ==> eqw) Z.sub.
Proof.
  intros a a' Ha b b' Hb. unfold eqw, wrap in *.
  rewrite (Zminus_mod a), (Zminus_mod a'). now rewrite Ha, Hb.
Qed.

Lemma wrap_eqw a : eqw (wrap a) a.
Proof. unfold eqw, wrap. apply Zmod_mod. Qed.

(** Decides [wrap X = wrap Y] when [X] and [Y] agree once inner wraps are
    dropped. *)
Ltac wrap_eq :=
  match goal with
  | |- wrap ?X = wrap ?Y => change (eqw X Y)
  end;
  rewrite ?wrap_eqw; unfold eqw; f_equal; try lia.

Lemma wrap_range a : 0 <= wrap a < 2 ^ 64.
Proof. unfold wrap. apply Z.mod_pos_bound. lia. Qed.

(** [free]'s first merge, on a block already marked. *)
Lemma coalesce_prev_released h by_ hd rq al bk lm l1 x l2 :
  repr (Heap h by_ hd rq al bk lm) (l1 ++ x :: l2) ->
  e_free x = true -> no_free_pair l1 = true -> 0 <= rq < 2 ^ 64 ->
  exists h' hd' rq' la x',
    coalesce_prev (e_addr x) (Heap h by_ hd rq al bk lm)
    = Done tt (Heap h' by_ hd' rq' al bk lm) /\
    repr (Heap h' by_ hd' rq' al bk lm) (la ++ x' :: l2) /\
    e_addr x' = e_addr x /\ e_free x' = true /\
    last_free la false = false /\ no_free_pair la = true /\
    sum_all (la ++ x' :: l2) = sum_all (l1 ++ x :: l2) /\
    rq' = wrap (rq - (sum_free (la ++ x' :: l2) - sum_free (l1 ++ x :: l2))) /\
    (forall y, y ∈ l1 -> e_free y = false -> y ∈ la).
Proof.
  intros Hr Hfx Hn Hrq.
  destruct (last_free l1 false) eqn:Hlast.
  - apply last_free_inv in Hlast as (l0 & p & -> & Hfp).
    rewrite <- app_assoc in Hr. cbn [app] in Hr.
    destruct (coalesce_prev_merge _ _ _ _ _ _ _ _ _ _ _ Hr Hfp) as (h' & Hrun & Hr').
    rewrite no_free_pair_app in Hn. simpl in Hn. rewrite Hfp in Hn.
    do 5 eexists. split; [exact Hrun|]. split; [exact Hr'|].
    cbn [e_addr e_free]. split; [reflexivity|]. split; [exact Hfx|].
    split; [|split; [|split; [|split]]].
    + destruct (last_free l0 false); [|reflexivity].
      rewrite !andb_true_r in Hn. simpl in Hn.
      now rewrite andb_false_r in Hn.
    + destruct (no_free_pair l0); [reflexivity|]. discriminate.
    + rewrite <- app_assoc. cbn [app]. rewrite !sum_all_app. cbn.
      unfold sizeof_mem_block. lia.
    + rewrite <- app_assoc. cbn [app]. rewrite !sum_free_app. cbn.
      rewrite Hfp, Hfx. unfold sizeof_mem_block. f_equal. lia.
    + intros y Hy Hfy. apply elem_of_app in Hy as [Hy|Hy]; [exact Hy|].
      apply list_elem_of_singleton in Hy. subst y. congruence.
  - rewrite (coalesce_prev_skip _ _ _ _ _ _ _ _ _ _ Hr).
    2:{ intros l0 p ->. now rewrite last_free_snoc in Hlast. }
    exists h, hd, rq, l1, x. split; [reflexivity|]. split; [exact Hr|].
    repeat split; auto.
    rewrite Z.sub_diag, Z.sub_0_r. symmetry. now apply wrap_small.
Qed.

(** [free]'s second merge. *)
Lemma coalesce_next_released h by_ hd rq al bk lm l1 x l2 :
  repr (Heap h by_ hd rq al bk lm) (l1 ++ x :: l2) ->
  e_free x = true -> no_free_pair l2 = true -> 0 <= rq < 2 ^ 64 ->
  exists h' hd' rq' x' lb,
    coalesce_next (e_addr x) (Heap h by_ hd rq al bk lm)
    = Done tt (Heap h' by_ hd' rq' al bk lm) /\
    repr (Heap h' by_ hd' rq' al bk lm) (l1 ++ x' :: lb) /\
    e_free x' = true /\
    first_free lb = false /\ no_free_pair lb = true /\
    sum_all (l1 ++ x' :: lb) = sum_all (l1 ++ x :: l2) /\
    rq' = wrap (rq - (sum_free (l1 ++ x' :: lb) - sum_free (l1 ++ x :: l2))) /\
    (forall y, y ∈ l2 -> e_free y = false -> y ∈ lb).
Proof.
  intros Hr Hfx Hn Hrq.
  destruct l2 as [|n l2].
  - rewrite (coalesce_next_skip _ _ _ _ _ _ _ _ _ _ Hr) by (intros ? ? [=]).
    exists h, hd, rq, x, []. split; [reflexivity|]. split; [exact Hr|].
    repeat split; auto.
    rewrite Z.sub_diag, Z.sub_0_r. symmetry. now apply wrap_small.
  - destruct (e_free n) eqn:Hfn.
    + destruct (coalesce_next_merge _ _ _ _ _ _ _ _ _ _ _ Hr Hfn) as (h' & Hrun & Hr').
      simpl in Hn. rewrite Hfn in Hn. simpl in Hn.
      do 5 eexists. split; [exact Hrun|]. split; [exact Hr'|].
      cbn [e_addr e_free]. split; [exact Hfn|].
      split; [|split; [|split; [|split]]].
      * destruct (first_free l2); [discriminate|reflexivity].
      * destruct (first_free l2); [discriminate|exact Hn].
      * rewrite !sum_all_app. cbn. unfold sizeof_mem_block. lia.
      * rewrite !sum_free_app. cbn. rewrite Hfn, Hfx.
        unfold sizeof_mem_block. f_equal. lia.
      * intros y Hy Hfy. apply elem_of_cons in Hy as [->|Hy]; [congruence|exact Hy].
    + rewrite (coalesce_next_skip _ _ _ _ _ _ _ _ _ _ Hr).
      2:{ intros n0 l0 [= <- <-]. exact Hfn. }
      exists h, hd, rq, x, (n :: l2). split; [reflexivity|]. split; [exact Hr|].
      repeat split; auto.
      rewrite Z.sub_diag, Z.sub_0_r. symmetry. now apply wrap_small.
Qed.

(** ** The invariant of reachable states *)

Definition heap_inv (k : Z) (s : heap) : Prop :=
  repr s (registry s) /\
  no_free_pair (registry s) = true /\
  allocated_size s = sum_all (registry s) /\
  requested_size s
  = wrap (sum_all (registry s) - sum_free (registry s) - sizeof_mem_block * k).

Lemma heap_inv_intro k s l :
  repr s l -> no_free_pair l = true -> allocated_size s = sum_all l ->
  requested_size s = wrap (sum_all l - sum_free l - sizeof_mem_block * k) ->
  heap_inv k s.
Proof.
  intros Hr Hn Ha Hq. unfold heap_inv.
  rewrite (repr_registry _ _ Hr). auto.
Qed.

Lemma no_free_pair_split l1 x l2 :
  no_free_pair (l1 ++ x :: l2) = true ->
  no_free_pair l1 = true /\ no_free_pair l2 = true.
Proof.
  rewrite no_free_pair_app. simpl.
  destruct (no_free_pair l1), (no_free_pair l2); simpl;
    rewrite ?andb_false_r; simpl; intros H; try discriminate; auto.
Qed.

Lemma free_inv k s x :
  heap_inv k s -> x ∈ registry s -> e_free x = false ->
  exists s',
    free (e_addr x + sizeof_mem_block) s = Done tt s' /\
    heap_inv k s' /\
    (forall y, y ∈ registry s -> e_free y = false -> y <> x -> y ∈ registry s') /\
    bytes s' = bytes s /\ brk s' = brk s /\ brk_limit s' = brk_limit s.
Proof.
  intros (Hr & Hn & Ha & Hq) Hx Hfx.
  destruct (list_elem_of_split _ _ Hx) as (l1 & l2 & Hl).
  rewrite Hl in Hr, Hn, Ha, Hq |- *. clear Hl Hx.
  destruct s as [h by_ hd rq al bk lm]. cbn in Ha, Hq.
  destruct (no_free_pair_split _ _ _ Hn) as [Hn1 Hn2].
  destruct (mark_spec _ _ _ _ _ _ _ _ _ _ true Hr) as (Hlk & A1 & A2 & Hr1).
  unfold free, get_addr, sizeof_mem_block.
  destruct (Z.eqb_spec (e_addr x + 40) NULL) as [E|_]; [unfold NULL in E; lia|].
  replace (e_addr x + 40 - 40) with (e_addr x) by lia.
  erewrite bind_load by exact Hlk. cbn [b_free hdr_of]. rewrite Hfx.
  erewrite bind_store; [|exact Hlk|lia].
  erewrite bind_load by apply lookup_insert_eq.
  unfold bind at 1. unfold modify. hsimpl. cbn [hdr_of b_size].
  set (xf := Entry (e_addr x) (e_size x) true) in *.
  assert (repr (Heap (<[e_addr x := with_free true
                          (hdr_of x (first_addr l2 NULL) (last_addr l1 NULL))]> h)
                  by_ hd (wrap (rq - e_size x)) al bk lm) (l1 ++ xf :: l2)) as Hr1'.
  { eapply repr_ext; [..|exact Hr1]; reflexivity. }
  destruct (coalesce_prev_released _ _ _ _ _ _ _ _ _ _ Hr1' eq_refl Hn1
              (wrap_range _))
    as (h2 & hd2 & rq2 & la & x2 & Hrun2 & Hr2 & Ex2 & Hf2 & Hla & Hnla & Hsa2 & Hrq2 & Hin2).
  change (e_addr xf) with (e_addr x) in Hrun2.
  rewrite (bind_done _ _ _ _ _ Hrun2).
  assert (0 <= rq2 < 2 ^ 64) as Hrq2r by (rewrite Hrq2; apply wrap_range).
  destruct (coalesce_next_released _ _ _ _ _ _ _ _ _ _ Hr2 Hf2 Hn2 Hrq2r)
    as (h3 & hd3 & rq3 & x3 & lb & Hrun3 & Hr3 & Hf3 & Hlb & Hnlb & Hsa3 & Hrq3 & Hin3).
  rewrite Ex2 in Hrun3. change (e_addr xf) with (e_addr x) in Hrun3.
  cbv beta. rewrite Hrun3.
  eexists. split; [reflexivity|]. split; [|split; [|now cbn]].
  - eapply heap_inv_intro; [exact Hr3|..]; cbn.
    + rewrite no_free_pair_app. cbn. rewrite Hla, Hlb, Hnla, Hnlb, Hf3. reflexivity.
    + rewrite Hsa3, Hsa2. rewrite Ha, !sum_all_app. reflexivity.
    + rewrite Hrq3, Hrq2, Hq. rewrite Hsa3, Hsa2.
      rewrite !sum_all_app, !sum_free_app. cbn. rewrite Hfx.
      unfold sizeof_mem_block. wrap_eq.
  - intros y Hy Hfy Hne. rewrite (repr_registry _ _ Hr3).
    apply elem_of_app in Hy as [Hy|Hy].
    + apply elem_of_app. left. now apply Hin2.
    + apply elem_of_cons in Hy as [->|Hy]; [contradiction|].
      apply elem_of_app. right. apply elem_of_cons. right. now apply Hin3.
Qed.

Lemma heap_inv_bytes k s m : heap_inv k s -> heap_inv k (set_bytes m s).
Proof. intros H. exact H. Qed.

Definition malloc_post (k : Z) (s : heap) (size : Z) (o : outcome Z) : Prop :=
  match o with
  | Done p s' =>
      heap_inv k s' /\
      (forall y, y ∈ registry s -> e_free y = false -> y ∈ registry s') /\
      bytes s' = bytes s /\ brk_limit s' = brk_limit s /\
      (p <> NULL ->
       exists x, x ∈ registry s' /\ e_free x = false /\
                 p = e_addr x + sizeof_mem_block /\ size <= e_size x)
  | Fault | AssertFail | Diverge => False
  end.

Lemma malloc_post_same k s size : heap_inv k s -> malloc_post k s size (Done NULL s).
Proof.
  intros H. split; [exact H|]. repeat split; auto. intros E; now elim E.
Qed.

Lemma grow_inv k s size :
  heap_inv k s -> 0 < size < 2 ^ 63 - sizeof_mem_block ->
  malloc_post k s size (grow size s).
Proof.
  intros Hinv Hsz. pose proof Hinv as (Hr & Hn & Ha & Hq).
  remember (registry s) as l eqn:El.
  destruct s as [h by_ hd rq al bk lm]. cbn in Ha, Hq.
  pose proof (grow_spec _ _ _ _ _ _ _ _ size Hr Hsz) as Hg.
  destruct (grow size _) as [p s'| | |]; try exact Hg.
  destruct Hg as [(-> & -> & _)|(-> & Hroom & h' & -> & Hr')];
    [now apply malloc_post_same|].
  pose proof Hr as (_ & _ & Hlay & Hb0 & Hb1 & Hb2). cbn in Hlay, Hb0, Hb1, Hb2.
  pose proof (sum_all_layout _ _ Hlay) as Hsum.
  pose proof (layout_last_pos _ _ Hb0 Hlay) as Hpos.
  pose proof (layout_last_le _ _ Hlay) as Hle.
  unfold malloc_post. rewrite <- El.
  split; [eapply heap_inv_intro; [exact Hr'|..]; cbn|].
  - exact Hn.
  - unfold sizeof_mem_block in *. rewrite Ha, wrap_small by lia. lia.
  - rewrite Hq. unfold sizeof_mem_block. wrap_eq.
  - rewrite (repr_registry _ _ Hr'). repeat split; auto.
    + intros y Hy _. apply elem_of_cons. now right.
    + intros _. eexists. split; [apply elem_of_cons; left; reflexivity|].
      cbn. repeat split; lia.
Qed.

Lemma malloc_inv k s size :
  heap_inv k s -> 0 <= size < 2 ^ 63 - sizeof_mem_block ->
  malloc_post k s size (malloc size s).
Proof.
  intros Hinv Hsz.
  destruct (Z.eq_dec size 0) as [->|Hnz]; [now apply malloc_post_same|].
  pose proof (grow_inv k s size Hinv ltac:(lia)) as Hgrow.
  pose proof Hinv as (Hr & Hn & Ha & Hq).
  remember (registry s) as l eqn:El.
  destruct s as [h by_ hd rq al bk lm]. cbn in Ha, Hq.
  destruct (Z_lt_dec (wrap (al - rq)) size) as [Hpre|Hpre].
  { rewrite (malloc_no_fit _ _ _ _ _ _ _ _ _ Hr) by (lia || tauto). exact Hgrow. }
  destruct (first_fit_split size l) as [Hc|(l1 & x & l2 & Hl & Hnf & Hfit)].
  { rewrite (malloc_no_fit _ _ _ _ _ _ _ _ _ Hr) by (lia || tauto). exact Hgrow. }
  clear Hgrow. unfold malloc_post. rewrite <- El. clear El.
  subst l.
  pose proof (malloc_reuse _ _ _ _ _ _ _ size _ _ _ Hr ltac:(lia) Hnf Hfit
                ltac:(lia)) as Hm.
  pose proof Hfit as Hfit'. unfold fits in Hfit'.
  apply andb_prop in Hfit' as [Hfx Hsx]. apply Z.leb_le in Hsx.
  rewrite no_free_pair_app in Hn. cbn in Hn. rewrite Hfx in Hn.
  destruct ((2 * size <=? e_size x) && (1024 <=? e_size x - size)) eqn:Hcond.
  - destruct Hm as (h' & -> & Hr').
    apply andb_prop in Hcond as [Hc1 Hc2]. apply Z.leb_le in Hc1, Hc2.
    split; [eapply heap_inv_intro; [exact Hr'|..]; cbn|].
    + rewrite no_free_pair_app. cbn.
      destruct (no_free_pair l1), (last_free l1 false), (first_free l2),
        (no_free_pair l2); cbn in *; try discriminate; reflexivity.
    + rewrite Ha, !sum_all_app. cbn. unfold sizeof_mem_block. lia.
    + rewrite Hq, !sum_all_app, !sum_free_app. cbn. rewrite Hfx.
      unfold sizeof_mem_block. wrap_eq.
    + rewrite (repr_registry _ _ Hr'). repeat split; auto.
      * intros y Hy Hfy. apply elem_of_app in Hy as [Hy|Hy];
          [apply elem_of_app; now left|].
        apply elem_of_cons in Hy as [->|Hy]; [congruence|].
        apply elem_of_app. right. do 2 (apply elem_of_cons; right). exact Hy.
      * intros _. eexists. split.
        { apply elem_of_app. right. apply elem_of_cons. right.
          apply elem_of_cons. left. reflexivity. }
        cbn. repeat split; lia.
  - destruct Hm as (h' & -> & Hr').
    split; [eapply heap_inv_intro; [exact Hr'|..]; cbn|].
    + rewrite no_free_pair_app. cbn.
      destruct (no_free_pair l1), (last_free l1 false), (first_free l2),
        (no_free_pair l2); cbn in *; try discriminate; reflexivity.
    + rewrite Ha, !sum_all_app. cbn. reflexivity.
    + rewrite Hq, !sum_all_app, !sum_free_app. cbn. rewrite Hfx.
      unfold sizeof_mem_block. wrap_eq.
    + rewrite (repr_registry _ _ Hr'). repeat split; auto.
      * intros y Hy Hfy. apply elem_of_app in Hy as [Hy|Hy];
          [apply elem_of_app; now left|].
        apply elem_of_cons in Hy as [->|Hy]; [congruence|].
        apply elem_of_app. right. apply elem_of_cons; right. exact Hy.
      * intros _. eexists. split.
        { apply elem_of_app. right. apply elem_of_cons. left. reflexivity. }
        cbn. repeat split; lia.
Qed.

Definition realloc_post (k : Z) (s : heap) (size : Z) (o : outcome Z) : Prop :=
  match o with
  | Done r s' =>
      (heap_inv k s' \/ heap_inv (k + 1) s') /\ brk_limit s' = brk_limit s
  | Fault => 0 < size
  | AssertFail => size = 0
  | Diverge => False
  end.

Lemma realloc_move_inv k s x size oldSize :
  heap_inv k s -> x ∈ registry s -> e_free x = false ->
  0 < size < 2 ^ 63 - sizeof_mem_block ->
  realloc_post k s size
    (realloc_move (e_addr x + sizeof_mem_block) size oldSize s).
Proof.
  intros Hinv Hx Hfx Hsz.
  pose proof (malloc_inv k s size Hinv ltac:(lia)) as Hm.
  unfold realloc_move. unfold bind at 1.
  destruct (malloc size s) as [r s1| | |]; cbn in Hm |- *; try lia; try exact Hm.
  destruct Hm as (Hinv1 & Hkeep & Hby & Hlm & _).
  unfold bind at 1. unfold memcpy.
  destruct (Z.eqb_spec r NULL); cbn [orb]; [cbn; lia|].
  destruct Hinv as (Hr & _).
  destruct (layout_bounds _ _ _ (proj1 (proj2 (proj2 Hr))) Hx) as (X2 & _).
  destruct (Z.eqb_spec (e_addr x + sizeof_mem_block) NULL) as [E|_];
    [unfold NULL, sizeof_mem_block in E; lia|].
  match goal with |- context [set_bytes ?m s1] => set (s2 := set_bytes m s1) end.
  destruct (free_inv k s2 x) as (s3 & Hrun & Hinv3 & _ & _ & _ & Hlm3);
    [exact Hinv1|now apply Hkeep|exact Hfx|].
  rewrite (bind_done _ _ _ _ _ Hrun). cbn.
  split; [now left|]. rewrite Hlm3. exact Hlm.
Qed.

Lemma realloc_inv k s x size :
  heap_inv k s -> x ∈ registry s -> e_free x = false ->
  0 <= size < 2 ^ 63 - sizeof_mem_block ->
  realloc_post k s size (realloc (e_addr x + sizeof_mem_block) size s).
Proof.
  intros Hinv Hx Hfx Hsz.
  pose proof Hinv as (Hr & Hn & Ha & Hq).
  destruct (list_elem_of_split _ _ Hx) as (l1 & l2 & Hl).
  pose proof (realloc_move_inv k s x size (e_size x) Hinv Hx Hfx) as Hmove.
  rewrite Hl in Hr, Hn, Ha, Hq.
  assert (hdrs s !! e_addr x
          = Some (hdr_of x (first_addr l2 NULL) (last_addr l1 NULL))
          /\ 0 < e_addr x) as [Hlk X2].
  { destruct s. destruct (mark_spec _ _ _ _ _ _ _ _ _ _ true Hr) as (H1 & H2 & _).
    now split. }
  assert (get_addr (e_addr x + sizeof_mem_block) = e_addr x) as Hga
    by (unfold get_addr; lia).
  destruct (Z.eq_dec size 0) as [->|Hnz].
  { destruct (free_inv k s x Hinv Hx Hfx) as (s' & Hrun & _).
    rewrite (realloc_zero_falls_through _ s s'
               (hdr_of x (first_addr l2 NULL) (last_addr l1 NULL)));
      [reflexivity| |rewrite Hga; exact Hlk|reflexivity|exact Hrun].
    unfold NULL, sizeof_mem_block. lia. }
  specialize (Hmove ltac:(lia)).
  unfold realloc.
  rewrite (proj2 (Z.leb_gt size 0)) by lia.
  unfold bind at 1. unfold ret at 1.
  destruct (Z.eqb_spec (e_addr x + sizeof_mem_block) NULL) as [E|_];
    [unfold NULL, sizeof_mem_block in E; lia|].
  rewrite Hga.
  rewrite (bind_done _ _ _ _ _ (load_ok _ _ _ Hlk)).
  cbn [b_ptr b_free b_size b_prev hdr_of]. rewrite Z.eqb_refl, Hfx.
  unfold assert. unfold bind at 1. cbn [negb]. unfold bind at 1.
  destruct (Z.leb_spec size (e_size x)) as [Hfit|Hgrow].
  { cbn. split; [now left|reflexivity]. }
  destruct l1 as [|p l0 _] using rev_ind; [exact Hmove|].
  rewrite last_addr_app. cbn [last_addr].
  rewrite <- app_assoc in Hr, Hn. cbn [app] in Hr, Hn.
  destruct s as [h by_ hd rq al bk lm]. cbn in Ha, Hq, Hlk.
  pose proof Hr as (Hh & Hs & Hlay & Hb0 & Hb1 & Hb2).
  cbn in Hh, Hs, Hlay, Hb0, Hb1, Hb2.
  apply seg_app in Hs as [_ Hs]. cbn in Hs. destruct Hs as (Hp & _).
  apply layout_app in Hlay as [Hlay1 Hlay]. cbn in Hlay.
  destruct Hlay as (P1 & P2 & P3 & X1 & _ & X3 & _).
  pose proof (layout_last_le _ _ Hlay1) as Hle.
  destruct (Z.eqb_spec (e_addr p) NULL) as [E|_]; [unfold NULL in E; lia|].
  erewrite bind_load by exact Hp. cbn [b_free b_size hdr_of].
  destruct (e_free p) eqn:Hfp; cbn [negb]; [|exact Hmove].
  unfold sizeof_mem_block in *.
  rewrite (wrap_small (e_size x + e_size p + 40)) by lia.
  destruct (Z.leb_spec size (e_size x + e_size p + 40)) as [Hroom|_];
    [|exact Hmove].
  unfold bind at 1. unfold modify. hsimpl.
  assert (repr (Heap h by_ hd (wrap (rq + e_size p)) al bk lm)
               (l0 ++ p :: x :: l2)) as Hr1.
  { eapply repr_ext; [..|exact Hr]; reflexivity. }
  destruct (coalesce_prev_merge _ _ _ _ _ _ _ _ _ _ _ Hr1 Hfp) as (h' & Hrun & Hr').
  rewrite (bind_done _ _ _ _ _ Hrun).
  destruct (mark_spec _ _ _ _ _ _ _ _ _ _ false Hr') as (Hlk' & _).
  erewrite bind_load by exact Hlk'. cbn. 
  split; [|reflexivity]. right.
  eapply heap_inv_intro; [exact Hr'|..]; cbn.
  - rewrite no_free_pair_app in Hn |- *. cbn in Hn |- *. rewrite Hfx, Hfp in *.
    destruct (no_free_pair l0), (last_free l0 false), (first_free l2),
      (no_free_pair l2); cbn in *; try discriminate; reflexivity.
  - rewrite Ha, !sum_all_app. cbn. rewrite ?sum_all_app. cbn.
    unfold sizeof_mem_block. lia.
  - rewrite Hq, !sum_all_app, !sum_free_app. cbn.
    rewrite ?sum_all_app, ?sum_free_app. cbn. rewrite Hfx, Hfp.
    unfold sizeof_mem_block. wrap_eq.
Qed.

Lemma calloc_inv k s num size :
  heap_inv k s -> wrap (num * size) < 2 ^ 63 - sizeof_mem_block ->
  match calloc num size s with
  | Done p s' => heap_inv k s'
  | Fault | AssertFail | Diverge => False
  end.
Proof.
  intros Hinv Hsz.
  pose proof (wrap_range (num * size)) as Hw.
  pose proof (malloc_inv k s (wrap (num * size)) Hinv ltac:(lia)) as Hm.
  unfold calloc. unfold bind at 1.
  destruct (malloc _ s) as [p s1| | |]; cbn in Hm |- *; auto.
  destruct Hm as (Hinv1 & _).
  destruct (Z.eqb_spec p NULL); [exact Hinv1|].
  unfold bind, memset. destruct (Z.eqb_spec p NULL); [contradiction|].
  exact Hinv1.
Qed.

(** ** Calls, legal arguments and reachable states *)

Inductive call : Type :=
  | Malloc (size : Z)
  | Calloc (num size : Z)
  | Free (ptr : Z)
  | Realloc (ptr size : Z).

(** The payload pointer of some block of the registry. *)
Definition live_ptr (s : heap) (p : Z) : Prop :=
  exists x, x ∈ registry s /\ p = e_addr x + sizeof_mem_block.

(** The payload pointer of a block of the registry that is in use. *)
Definition in_use_ptr (s : heap) (p : Z) : Prop :=
  exists x, x ∈ registry s /\ e_free x = false /\
            p = e_addr x + sizeof_mem_block.

(** The calls the theorems below range over.  A request is legal when its
    size plus one header stays below 2^63, so that neither the [size_t] sum
    handed to [sbrk] wraps nor its conversion to [intptr_t] turns negative
    ([calloc]'s product is taken modulo 2^64 first, as the code does).  The
    pointer given to [free] is null or the payload of a block still on the
    list; [realloc] wants the block in use.  Pointers whose header has been
    merged away are left out: the bytes of such a header belong to the
    payload of the surviving block. *)
Definition legal (s : heap) (c : call) : Prop :=
  match c with
  | Malloc size => 0 <= size < 2 ^ 63 - sizeof_mem_block
  | Calloc num size =>
      0 <= num < 2 ^ 64 /\ 0 <= size < 2 ^ 64 /\
      wrap (num * size) < 2 ^ 63 - sizeof_mem_block
  | Free ptr => ptr = NULL \/ live_ptr s ptr
  | Realloc ptr size =>
      (ptr = NULL \/ in_use_ptr s ptr) /\
      0 <= size < 2 ^ 63 - sizeof_mem_block
  end.

Definition run (c : call) : M unit :=
  match c with
  | Malloc size => malloc size ;;; ret tt
  | Calloc num size => calloc num size ;;; ret tt
  | Free ptr => free ptr
  | Realloc ptr size => realloc ptr size ;;; ret tt
  end.

(** States reached from the empty heap by [n] legal calls that returned. *)
Inductive reachable_in : nat -> heap -> Prop :=
  | reach_init b0 lim :
      0 < b0 -> b0 <= lim -> lim < 2 ^ 63 ->
      reachable_in 0 (empty_heap b0 lim)
  | reach_step n s c s' :
      reachable_in n s -> legal s c -> run c s = Done tt s' ->
      reachable_in (S n) s'.

Definition reachable (s : heap) : Prop := exists n, reachable_in n s.

Lemma heap_inv_empty b0 lim :
  0 < b0 -> b0 <= lim -> lim < 2 ^ 63 -> heap_inv 0 (empty_heap b0 lim).
Proof.
  intros H1 H2 H3. apply (heap_inv_intro 0 _ []); cbn; try reflexivity.
  repeat split; cbn; auto.
Qed.

Lemma registry_lookup s l1 x l2 :
  repr s (l1 ++ x :: l2) ->
  hdrs s !! e_addr x = Some (hdr_of x (first_addr l2 NULL) (last_addr l1 NULL))
  /\ 0 < e_addr x.
Proof.
  intros Hr. destruct s.
  destruct (mark_spec _ _ _ _ _ _ _ _ _ _ true Hr) as (? & ? & _). now split.
Qed.

Lemma get_addr_payload a : get_addr (a + sizeof_mem_block) = a.
Proof. unfold get_addr. lia. Qed.

(** [free] on a legal argument always returns. *)
Lemma free_legal k s p :
  heap_inv k s -> legal s (Free p) ->
  exists s', free p s = Done tt s' /\ heap_inv k s'.
Proof.
  intros Hinv [->|(x & Hx & ->)].
  - now exists s.
  - destruct (e_free x) eqn:Hfx.
    + destruct (list_elem_of_split _ _ Hx) as (l1 & l2 & Hl).
      pose proof Hinv as (Hr & _). rewrite Hl in Hr.
      destruct (registry_lookup _ _ _ _ Hr) as [Hlk X2].
      exists s. split; [|exact Hinv].
      eapply free_marked_noop; [|rewrite get_addr_payload; exact Hlk|exact Hfx].
      unfold NULL, sizeof_mem_block. lia.
    + destruct (free_inv k s x Hinv Hx Hfx) as (s2 & Hrun2 & Hinv2 & _).
      now exists s2.
Qed.

Lemma realloc_null size s : 0 <= size -> realloc NULL size s = malloc size s.
Proof.
  intros Hsz. unfold realloc. destruct (Z.leb_spec size 0).
  - assert (size = 0) as -> by lia. reflexivity.
  - reflexivity.
Qed.

(** What a legal call can do on a state satisfying the invariant: it never
    loops, [free] always returns, and only [realloc] with size 0 can stop on
    an assertion. *)
Definition run_post (k : Z) (c : call) (o : outcome unit) : Prop :=
  match o with
  | Done _ s' => heap_inv k s' \/ heap_inv (k + 1) s'
  | Fault => forall p, c <> Free p
  | AssertFail => exists p, c = Realloc p 0
  | Diverge => False
  end.

Lemma run_outcome k s c :
  heap_inv k s -> legal s c -> run_post k c (run c s).
Proof.
  intros Hinv Hlegal. destruct c as [size|num size|ptr|ptr size]; cbn [run].
  - pose proof (malloc_inv k s size Hinv Hlegal) as Hm. unfold bind.
    destruct (malloc size s); cbn in Hm |- *; try tauto; try discriminate.
  - pose proof (calloc_inv k s num size Hinv ltac:(apply Hlegal)) as Hm.
    unfold bind.
    destruct (calloc num size s); cbn in Hm |- *; try tauto; try discriminate.
  - destruct (free_legal k s ptr Hinv Hlegal) as (s' & -> & Hinv').
    cbn. now left.
  - destruct Hlegal as [[->|(x & Hx & Hfx & ->)] Hsz].
    + unfold bind. rewrite realloc_null by lia.
      pose proof (malloc_inv k s size Hinv Hsz) as Hm.
      destruct (malloc size s); cbn in Hm |- *; try tauto; try discriminate.
    + pose proof (realloc_inv k s x size Hinv Hx Hfx Hsz) as Hm. unfold bind.
      destruct (realloc _ size s); cbn in Hm |- *; try tauto; try discriminate.
      subst size. eexists. reflexivity.
Qed.

Lemma run_inv k s c s' :
  heap_inv k s -> legal s c -> run c s = Done tt s' ->
  heap_inv k s' \/ heap_inv (k + 1) s'.
Proof.
  intros Hinv Hlegal Hrun. pose proof (run_outcome k s c Hinv Hlegal) as H.
  rewrite Hrun in H. exact H.
Qed.

Lemma reachable_in_inv n s :
  reachable_in n s -> exists k, 0 <= k <= Z.of_nat n /\ heap_inv k s.
Proof.
  induction 1 as [b0 lim H1 H2 H3|n s c s' Hreach (k & Hk & Hinv) Hlegal Hrun].
  - exists 0. split; [lia|]. now apply heap_inv_empty.
  - destruct (run_inv k s c s' Hinv Hlegal Hrun) as [H|H].
    + exists k. split; [lia|exact H].
    + exists (k + 1). split; [lia|exact H].
Qed.

Lemma reachable_inv s : reachable s -> exists k, 0 <= k /\ heap_inv k s.
Proof.
  intros [n Hn]. destruct (reachable_in_inv n s Hn) as (k & Hk & Hinv).
  exists k. split; [lia|exact Hinv].
Qed.

Lemma reachable_step s c s' :
  reachable s -> legal s c -> run c s = Done tt s' -> reachable s'.
Proof. intros [n Hn] Hl Hr. exists (S n). econstructor; eauto. Qed.

(** ** The doubly-linked list *)

(** What C10 asks of the links, on the concrete headers: the head's [prev]
    is null, and each block met from the head has its [next] and [prev]
    neighbours pointing back at it and met from the head themselves. *)
Definition links_consistent (s : heap) : Prop :=
  (head s <> NULL ->
   (exists b, hdrs s !! head s = Some b /\ b_prev b = NULL) /\
   exists x, x ∈ registry s /\ e_addr x = head s) /\
  forall x, x ∈ registry s ->
    exists b, hdrs s !! e_addr x = Some b /\
      (b_next b <> NULL ->
       (exists n, hdrs s !! b_next b = Some n /\ b_prev n = e_addr x) /\
       exists y, y ∈ registry s /\ e_addr y = b_next b) /\
      (b_prev b <> NULL ->
       (exists p, hdrs s !! b_prev b = Some p /\ b_next p = e_addr x) /\
       exists y, y ∈ registry s /\ e_addr y = b_prev b).

Lemma repr_links s l : repr s l -> links_consistent s.
Proof.
  intros Hr. pose proof (repr_registry _ _ Hr) as Hreg.
  destruct Hr as (Hh & Hs & Hl & _). unfold links_consistent. rewrite Hreg.
  split.
  - intros Hne. destruct l as [|x l]; [now elim Hne|]. cbn in Hh, Hs.
    destruct Hs as [Hx _]. rewrite Hh. split.
    + eexists. split; [exact Hx|reflexivity].
    + exists x. split; [apply elem_of_cons; now left|reflexivity].
  - intros x Hx. destruct (list_elem_of_split _ _ Hx) as (l1 & l2 & ->).
    apply seg_app in Hs as [Hs1 Hs2]. cbn in Hs1, Hs2. destruct Hs2 as [Hlk Hs2].
    eexists. split; [exact Hlk|]. cbn [b_next b_prev hdr_of]. split.
    + intros Hne. destruct l2 as [|n l2]; [now elim Hne|]. cbn in Hs2 |- *.
      destruct Hs2 as [Hn _]. split.
      * eexists. split; [exact Hn|reflexivity].
      * exists n. split; [|reflexivity].
        apply elem_of_app. right. apply elem_of_cons. right.
        apply elem_of_cons. now left.
    + intros Hne. destruct l1 as [|p l0 _] using rev_ind; [now elim Hne|].
      rewrite last_addr_app in Hne |- *. cbn in Hne |- *.
      apply seg_app in Hs1 as [_ Hp]. cbn in Hp. destruct Hp as [Hp _]. split.
      * eexists. split; [exact Hp|reflexivity].
      * exists p. split; [|reflexivity].
        apply elem_of_app. left. apply elem_of_app. right.
        apply elem_of_cons. now left.
Qed.

Lemma reachable_links s : reachable s -> links_consistent s.
Proof.
  intros H. destruct (reachable_inv s H) as (k & _ & Hr & _).
  eapply repr_links; eauto.
Qed.

(** ** No two free neighbours *)

(** [x] starts where [y]'s payload ends. *)
Definition adjacent (x y : entry) : Prop :=
  e_addr x = e_addr y + sizeof_mem_block + e_size y.

Definition no_adjacent_free (s : heap) : Prop :=
  forall x y, x ∈ registry s -> y ∈ registry s -> adjacent x y ->
    ~ (e_free x = true /\ e_free y = true).

Lemma layout_adjacent top l x y :
  layout top l -> x ∈ l -> y ∈ l -> adjacent x y ->
  exists l1 l2, l = l1 ++ x :: y :: l2.
Proof.
  intros Hl Hx Hy Hadj. unfold adjacent in Hadj.
  destruct (list_elem_of_split _ _ Hy) as (l1 & l2 & ->).
  pose proof Hl as Hl0.
  apply layout_app in Hl as [Hl1 Hl2]. cbn in Hl2.
  destruct Hl2 as (Y1 & Y2 & Y3 & Hl2).
  destruct l1 as [|q l0 _] using rev_ind.
  - cbn in Y1. destruct (layout_bounds _ _ _ Hl0 Hx) as (? & ? & ? & _).
    unfold sizeof_mem_block in *. lia.
  - rewrite last_addr_app in Y1. cbn in Y1.
    apply layout_app in Hl1 as [Hl0' Hq]. cbn in Hq.
    destruct Hq as (Q1 & Q2 & Q3 & _).
    exists l0, l2. rewrite <- app_assoc. cbn. do 2 f_equal.
    apply elem_of_app in Hx as [Hx|Hx].
    + apply elem_of_app in Hx as [Hx|Hx].
      * destruct (layout_bounds _ _ _ Hl0' Hx) as (? & ? & ? & ?).
        unfold sizeof_mem_block in *. lia.
      * apply list_elem_of_singleton in Hx. now subst.
    + apply elem_of_cons in Hx as [->|Hx].
      * unfold sizeof_mem_block in *. lia.
      * destruct (layout_bounds _ _ _ Hl2 Hx) as (? & ? & ? & ?).
        unfold sizeof_mem_block in *. lia.
Qed.

Lemma heap_inv_no_adjacent_free k s : heap_inv k s -> no_adjacent_free s.
Proof.
  intros (Hr & Hn & _) x y Hx Hy Hadj [Hfx Hfy].
  destruct Hr as (_ & _ & Hl & _).
  destruct (layout_adjacent _ _ _ _ Hl Hx Hy Hadj) as (l1 & l2 & E).
  rewrite E in Hn. rewrite no_free_pair_app in Hn. cbn in Hn.
  rewrite Hfx, Hfy in Hn. cbn in Hn.
  now rewrite andb_false_r in Hn.
Qed.

(** C6, for legal calls.  In a state reached from the empty heap by legal
    calls, [free] on the null pointer or on the payload of a block of the
    list returns, and in the state it leaves no block of the registry that
    is free starts where the payload of another free block ends; nor are
    two list neighbours both free. *)
Theorem release_leaves_no_adjacent_free (s : heap) (p : Z) :
  reachable s -> legal s (Free p) ->
  exists s', free p s = Done tt s' /\
             no_adjacent_free s' /\ no_free_pair (registry s') = true.
Proof.
  intros Hs Hl. destruct (reachable_inv s Hs) as (k & _ & Hinv).
  destruct (free_legal k s p Hinv Hl) as (s' & Hrun & Hinv').
  exists s'. split; [exact Hrun|]. split.
  - eapply heap_inv_no_adjacent_free; eauto.
  - apply Hinv'.
Qed.

(** Three blocks of 8 bytes grown in turn, then the middle and the top one
    released (the top one merges into the middle one). *)
Definition heap_three : heap :=
  exec (free 4232) (exec (free 4184)
    (exec (malloc 8) (exec (malloc 8) (exec (malloc 8)
       (empty_heap 4096 1000000))))).

Lemma reachable_heap_three : reachable heap_three.
Proof.
  exists 5%nat.
  eapply (reach_step _ _ (Free 4232)).
  eapply (reach_step _ _ (Free 4184)).
  eapply (reach_step _ _ (Malloc 8)).
  eapply (reach_step _ _ (Malloc 8)).
  eapply (reach_step _ _ (Malloc 8)).
  apply (reach_init 4096 1000000); lia.
  all: try (cbn; unfold sizeof_mem_block; lia).
  all: try (vm_compute; reflexivity).
  - right. exists (Entry 4144 8 false). split; [|reflexivity].
    match goal with |- _ ∈ registry ?st =>
      replace (registry st)
        with [Entry 4192 8 false; Entry 4144 8 false; Entry 4096 8 false]
        by (vm_compute; reflexivity) end.
    apply elem_of_cons. right. apply elem_of_cons. left. reflexivity.
  - right. exists (Entry 4192 8 false). split; [|reflexivity].
    match goal with |- _ ∈ registry ?st =>
      replace (registry st)
        with [Entry 4192 8 false; Entry 4144 8 true; Entry 4096 8 false]
        by (vm_compute; reflexivity) end.
    apply elem_of_cons. left. reflexivity.
Defined.

Lemma release_leaves_no_adjacent_free_witness :
  exists s', free 4136 heap_three = Done tt s' /\
             no_adjacent_free s' /\ no_free_pair (registry s') = true.
Proof.
  apply (release_leaves_no_adjacent_free heap_three 4136 reachable_heap_three).
  right. exists (Entry 4096 8 false). split; [|reflexivity].
  replace (registry heap_three) with [Entry 4144 56 true; Entry 4096 8 false]
    by (vm_compute; reflexivity).
  apply elem_of_cons. right. apply elem_of_cons. left. reflexivity.
Defined.

(** ** The split rule of the first-fit scan *)

(** C4. In a reachable state whose registry is [l1 ++ x :: l2], where the
    prefilter lets the scan run, no block of [l1] fits and [x] does,
    [malloc size] returns [x]'s payload.  The block is split exactly when
    its capacity is at least [2 * size] and what is left beyond [size] is at
    least 1024: then the caller's block keeps capacity [size] and a new free
    block of [e_size x - size - 40] bytes is linked just before it, in [x]'s
    old place; otherwise [x] is handed out whole. *)
Theorem first_fit_split_rule (s : heap) (size : Z) (l1 l2 : list entry)
    (x : entry) :
  reachable s -> 0 < size < 2 ^ 64 ->
  registry s = l1 ++ x :: l2 ->
  Forall (fun y => fits size y = false) l1 -> fits size x = true ->
  size <= wrap (allocated_size s - requested_size s) ->
  exists s',
    malloc size s = Done (e_addr x + sizeof_mem_block) s' /\
    registry s'
    = (if (2 * size <=? e_size x) && (1024 <=? e_size x - size)
       then l1 ++ Entry (e_addr x + sizeof_mem_block + size)
                    (e_size x - size - sizeof_mem_block) true
               :: Entry (e_addr x) size false :: l2
       else l1 ++ Entry (e_addr x) (e_size x) false :: l2) /\
    links_consistent s'.
Proof.
  intros Hs Hsz Hreg Hnf Hfit Hpre.
  destruct (reachable_inv s Hs) as (k & _ & Hr & _).
  rewrite Hreg in Hr. destruct s as [h by_ hd rq al bk lm]. cbn in Hpre.
  pose proof (malloc_reuse _ _ _ _ _ _ _ size _ _ _ Hr ltac:(lia) Hnf Hfit Hpre)
    as Hm.
  destruct ((2 * size <=? e_size x) && (1024 <=? e_size x - size));
    destruct Hm as (h' & Hrun & Hr');
    (eexists; split; [exact Hrun|]; split;
     [exact (repr_registry _ _ Hr')|exact (repr_links _ _ Hr')]).
Qed.

(** A released block of 2048 bytes below a block of 16 bytes in use. *)
Definition heap_hole : heap :=
  exec (free 4136) heap_two.

Lemma reachable_heap_hole : reachable heap_hole.
Proof.
  exists 3%nat.
  eapply (reach_step _ _ (Free 4136)).
  eapply (reach_step _ _ (Malloc 16)).
  eapply (reach_step _ _ (Malloc 2048)).
  apply (reach_init 4096 1000000); lia.
  all: try (cbn; unfold sizeof_mem_block; lia).
  all: try (vm_compute; reflexivity).
  right. exists (Entry 4096 2048 false). split; [|reflexivity].
  match goal with |- _ ∈ registry ?st =>
    replace (registry st) with [Entry 6184 16 false; Entry 4096 2048 false]
      by (vm_compute; reflexivity) end.
  apply elem_of_cons. right. apply elem_of_cons. left. reflexivity.
Defined.

Lemma first_fit_split_rule_witness :
  exists s',
    malloc 16 heap_hole = Done 4136 s' /\
    registry s'
    = [Entry 6184 16 false; Entry 4152 1992 true; Entry 4096 16 false] /\
    links_consistent s'.
Proof.
  apply (first_fit_split_rule heap_hole 16 [Entry 6184 16 false] []
           (Entry 4096 2048 true) reachable_heap_hole).
  - lia.
  - vm_compute. reflexivity.
  - repeat constructor.
  - reflexivity.
  - vm_compute. discriminate.
Defined.

(** ** Merging with the [prev] neighbour *)

(** The claim of C3 about [coalesce_prev] on [block] whose [prev] neighbour
    is free: the neighbour's capacity grows by the block's capacity and one
    header, the neighbour stays in the registry, and the head changes
    exactly when [block] was the head. *)
Definition left_neighbor_survives (s : heap) (block : Z) : Prop :=
  forall b p s',
    hdrs s !! block = Some b -> b_prev b <> NULL ->
    hdrs s !! b_prev b = Some p -> b_free p = true ->
    coalesce_prev block s = Done tt s' ->
    (exists p', hdrs s' !! b_prev b = Some p' /\
                b_size p' = b_size p + b_size b + sizeof_mem_block) /\
    (exists y, y ∈ registry s' /\ e_addr y = b_prev b) /\
    (head s' <> head s <-> head s = block).

(** The 16-byte block on top released, the 2048-byte block below in use. *)
Definition heap_top_free : heap :=
  exec (free 6224) heap_two.

(** C3 as stated fails.  On [heap_top_free], [coalesce_prev] on the lower
    block (at 4096, not the head) leaves the neighbour's header at 6184 with
    its 16 bytes, and makes the lower block the head. *)
Lemma left_neighbor_does_not_survive :
  ~ left_neighbor_survives heap_top_free 4096.
Proof.
  intros H.
  assert (hdrs heap_top_free !! 4096 = Some (Block 2048 false 4136 0 6184)) as H1
    by (vm_compute; reflexivity).
  assert (hdrs heap_top_free !! 6184 = Some (Block 16 true 6224 4096 0)) as H2
    by (vm_compute; reflexivity).
  assert (exists s', coalesce_prev 4096 heap_top_free = Done tt s' /\
            hdrs s' !! 6184 = Some (Block 16 true 6224 4096 0)) as (s' & H3 & H4).
  { eexists. split; vm_compute; reflexivity. }
  destruct (H _ _ s' H1 ltac:(discriminate) H2 eq_refl H3) as ((p' & Hp' & Hsz) & _).
  cbn [b_prev] in Hp'. rewrite H4 in Hp'. injection Hp' as <-.
  cbn in Hsz. discriminate.
Qed.

(** C3, as the code has it.  In a well-formed heap whose registry reads
    [l1 ++ p :: x :: l2] with [p] free, [coalesce_prev] on [x] keeps [x] and
    drops [p]: [x]'s capacity grows by [p]'s capacity and one header, [x]
    takes [p]'s place in the list, [p]'s header is left as it was, the head
    becomes [x] exactly when [p] was the head, and [requested_size] goes
    down by one header. *)
Theorem coalesce_prev_current_block_survives (s : heap) (l1 l2 : list entry)
    (p x : entry) :
  repr s (l1 ++ p :: x :: l2) -> e_free p = true ->
  exists s',
    coalesce_prev (e_addr x) s = Done tt s' /\
    registry s'
    = l1 ++ Entry (e_addr x) (e_size x + e_size p + sizeof_mem_block) (e_free x)
         :: l2 /\
    links_consistent s' /\
    hdrs s' !! e_addr p = hdrs s !! e_addr p /\
    head s' = (match l1 with [] => e_addr x | _ :: _ => head s end) /\
    requested_size s' = wrap (requested_size s - sizeof_mem_block) /\
    allocated_size s' = allocated_size s.
Proof.
  intros Hr Hfp. destruct s as [h by_ hd rq al bk lm].
  destruct (coalesce_prev_merge_hdr _ _ _ _ _ _ _ _ _ _ _ Hr Hfp)
    as (h' & Hrun & Hr' & Hp).
  eexists. split; [exact Hrun|]. split; [exact (repr_registry _ _ Hr')|].
  split; [exact (repr_links _ _ Hr')|]. split; [exact Hp|].
  cbn. split; [|now split].
  destruct Hr as (Hh & _). cbn in Hh. rewrite Hh. now destruct l1.
Qed.

Lemma repr_heap_top_free :
  repr heap_top_free [Entry 6184 16 true; Entry 4096 2048 false].
Proof.
  assert (reachable heap_top_free) as Hs.
  { exists 3%nat.
    eapply (reach_step _ _ (Free 6224)).
    eapply (reach_step _ _ (Malloc 16)).
    eapply (reach_step _ _ (Malloc 2048)).
    apply (reach_init 4096 1000000); lia.
    all: try (cbn; unfold sizeof_mem_block; lia).
    all: try (vm_compute; reflexivity).
    right. exists (Entry 6184 16 false). split; [|reflexivity].
    match goal with |- _ ∈ registry ?st =>
      replace (registry st) with [Entry 6184 16 false; Entry 4096 2048 false]
        by (vm_compute; reflexivity) end.
    apply elem_of_cons. left. reflexivity. }
  destruct (reachable_inv _ Hs) as (k & _ & Hr & _).
  replace (registry heap_top_free)
    with [Entry 6184 16 true; Entry 4096 2048 false] in Hr
    by (vm_compute; reflexivity).
  exact Hr.
Defined.

Lemma coalesce_prev_current_block_survives_witness :
  exists s',
    coalesce_prev 4096 heap_top_free = Done tt s' /\
    registry s' = [Entry 4096 2104 false] /\
    links_consistent s' /\
    hdrs s' !! 6184 = hdrs heap_top_free !! 6184 /\
    head s' = 4096 /\
    requested_size s' = wrap (requested_size heap_top_free - sizeof_mem_block) /\
    allocated_size s' = allocated_size heap_top_free.
Proof.
  apply (coalesce_prev_current_block_survives heap_top_free [] []
           (Entry 6184 16 true) (Entry 4096 2048 false) repr_heap_top_free).
  reflexivity.
Defined.

(** ** Two exact runs used for the accounting *)

(** [free] on a block with no free neighbour only flips the flag. *)
Lemma free_no_merge h by_ hd rq al bk lm l1 x l2 :
  repr (Heap h by_ hd rq al bk lm) (l1 ++ x :: l2) ->
  e_free x = false -> last_free l1 false = false -> first_free l2 = false ->
  exists h',
    free (e_addr x + sizeof_mem_block) (Heap h by_ hd rq al bk lm)
    = Done tt (Heap h' by_ hd (wrap (rq - e_size x)) al bk lm) /\
    repr (Heap h' by_ hd (wrap (rq - e_size x)) al bk lm)
         (l1 ++ Entry (e_addr x) (e_size x) true :: l2).
Proof.
  intros Hr Hfx Hl1 Hl2.
  destruct (mark_spec _ _ _ _ _ _ _ _ _ _ true Hr) as (Hlk & A1 & A2 & Hr1).
  unfold free. rewrite get_addr_payload. unfold sizeof_mem_block.
  destruct (Z.eqb_spec (e_addr x + 40) NULL) as [E|_]; [unfold NULL in E; lia|].
  erewrite bind_load by exact Hlk. cbn [b_free hdr_of]. rewrite Hfx.
  erewrite bind_store; [|exact Hlk|lia].
  erewrite bind_load by apply lookup_insert_eq.
  unfold bind at 1. unfold modify. hsimpl. cbn [hdr_of b_size].
  set (xf := Entry (e_addr x) (e_size x) true) in *.
  assert (repr (Heap (<[e_addr x := with_free true
                          (hdr_of x (first_addr l2 NULL) (last_addr l1 NULL))]> h)
                  by_ hd (wrap (rq - e_size x)) al bk lm) (l1 ++ xf :: l2)) as Hr1'.
  { eapply repr_ext; [..|exact Hr1]; reflexivity. }
  assert (forall l0 p, l1 = l0 ++ [p] -> e_free p = false) as Hc1.
  { intros l0 p ->. now rewrite last_free_snoc in Hl1. }
  assert (forall n l0, l2 = n :: l0 -> e_free n = false) as Hc2.
  { intros n l0 ->. exact Hl2. }
  pose proof (coalesce_prev_skip _ _ _ _ _ _ _ _ xf _ Hr1' Hc1) as Hcp.
  pose proof (coalesce_next_skip _ _ _ _ _ _ _ _ xf _ Hr1' Hc2) as Hcn.
  change (e_addr xf) with (e_addr x) in Hcp, Hcn.
  unfold bind. rewrite Hcp, Hcn.
  eexists. split; [reflexivity|exact Hr1'].
Qed.

(** [realloc] growing a block into its free [prev] neighbour. *)
Lemma realloc_merge h by_ hd rq al bk lm l0 p x l2 size :
  repr (Heap h by_ hd rq al bk lm) (l0 ++ p :: x :: l2) ->
  e_free x = false -> e_free p = true ->
  e_size x < size <= e_size x + e_size p + sizeof_mem_block ->
  let x' := Entry (e_addr x) (e_size x + e_size p + sizeof_mem_block) false in
  exists h',
    realloc (e_addr x + sizeof_mem_block) size (Heap h by_ hd rq al bk lm)
    = Done (e_addr x + sizeof_mem_block)
        (Heap h' by_ (first_addr (l0 ++ x' :: l2) NULL)
           (wrap (wrap (rq + e_size p) - sizeof_mem_block)) al bk lm) /\
    repr (Heap h' by_ (first_addr (l0 ++ x' :: l2) NULL)
            (wrap (wrap (rq + e_size p) - sizeof_mem_block)) al bk lm)
         (l0 ++ x' :: l2).
Proof.
  intros Hr Hfx Hfp Hsz x'.
  pose proof Hr as Hr0.
  change (l0 ++ p :: x :: l2) with (l0 ++ [p] ++ x :: l2) in Hr0.
  rewrite app_assoc in Hr0.
  destruct (mark_spec _ _ _ _ _ _ _ _ _ _ true Hr0) as (Hlk & X2 & _).
  rewrite last_addr_app in Hlk. cbn [last_addr] in Hlk.
  pose proof Hr as (Hh & Hs & Hlay & Hb0 & Hb1 & Hb2).
  cbn in Hh, Hs, Hlay, Hb0, Hb1, Hb2.
  apply seg_app in Hs as [_ Hs]. cbn in Hs. destruct Hs as (Hp & _).
  apply layout_app in Hlay as [Hlay1 Hlay]. cbn in Hlay.
  destruct Hlay as (P1 & P2 & P3 & X1 & _ & X3 & _).
  pose proof (layout_last_le _ _ Hlay1) as Hle.
  unfold realloc. rewrite get_addr_payload. unfold sizeof_mem_block in *.
  rewrite (proj2 (Z.leb_gt size 0)) by lia.
  unfold bind at 1. unfold ret at 1.
  destruct (Z.eqb_spec (e_addr x + 40) NULL) as [E|_]; [unfold NULL in E; lia|].
  erewrite bind_load by exact Hlk.
  cbn [b_ptr b_free b_size b_prev hdr_of]. unfold sizeof_mem_block.
  rewrite Z.eqb_refl, Hfx.
  unfold assert. unfold bind at 1. cbn [negb]. unfold bind at 1.
  rewrite (proj2 (Z.leb_gt size (e_size x))) by lia.
  destruct (Z.eqb_spec (e_addr p) NULL) as [E|_]; [unfold NULL in E; lia|].
  erewrite bind_load by exact Hp. cbn [b_free b_size hdr_of].
  rewrite Hfp. cbn [negb].
  rewrite (wrap_small (e_size x + e_size p + 40)) by lia.
  rewrite (proj2 (Z.leb_le size _)) by lia.
  unfold bind at 1. unfold modify. hsimpl.
  assert (repr (Heap h by_ hd (wrap (rq + e_size p)) al bk lm)
               (l0 ++ p :: x :: l2)) as Hr1.
  { eapply repr_ext; [..|exact Hr]; reflexivity. }
  destruct (coalesce_prev_merge _ _ _ _ _ _ _ _ _ _ _ Hr1 Hfp) as (h' & Hrun & Hr').
  rewrite (bind_done _ _ _ _ _ Hrun).
  destruct (mark_spec _ _ _ _ _ _ _ _ _ _ false Hr') as (Hlk' & _).
  erewrite bind_load by exact Hlk'. cbn [b_ptr hdr_of e_addr].
  unfold sizeof_mem_block in *. rewrite Hfx in Hrun, Hr' |- *.
  exists h'. split; [reflexivity|exact Hr'].
Qed.

(** *** Drift of [requested_size]

    One block of 2056 bytes, released, reallocated as 8 bytes (which splits
    it) and grown back in place by [realloc] (which merges the remainder):
    the registry is as before, and [requested_size] is forty bytes lower. *)

Definition drift_start : heap := exec (malloc 2056) (empty_heap 4096 (2 ^ 62)).

Definition drifted (j : Z) (s : heap) : Prop :=
  repr s [Entry 4096 2056 false] /\
  allocated_size s = 2096 /\
  requested_size s = wrap (2096 - sizeof_mem_block * j) /\
  brk_limit s = 2 ^ 62.

Lemma drift_start_ok : reachable drift_start /\ drifted 0 drift_start.
Proof.
  assert (reachable drift_start) as Hs.
  { exists 1%nat. eapply (reach_step _ _ (Malloc 2056)).
    - apply (reach_init 4096 (2 ^ 62)); lia.
    - cbn. unfold sizeof_mem_block. lia.
    - vm_compute. reflexivity. }
  split; [exact Hs|].
  destruct (reachable_inv _ Hs) as (k & _ & Hr & _).
  replace (registry drift_start) with [Entry 4096 2056 false] in Hr
    by (vm_compute; reflexivity).
  split; [exact Hr|]. repeat split.
Qed.

Lemma drift_cycle j s :
  reachable s -> drifted j s -> 0 <= j -> 2056 + sizeof_mem_block * j < 2 ^ 64 ->
  exists s', reachable s' /\ drifted (j + 1) s'.
Proof.
  intros Hs (Hr & Ha & Hq & Hlm) Hj Hbound.
  destruct s as [h by_ hd rq al bk lm]. cbn in Ha, Hq, Hlm. subst al lm.
  set (A := Entry 4096 2056 false) in *.
  (* release *)
  destruct (free_no_merge _ _ _ _ _ _ _ [] A [] Hr eq_refl eq_refl eq_refl)
    as (h1 & Hrun1 & Hr1).
  cbn [app e_addr e_size A] in Hrun1, Hr1.
  assert (reachable (Heap h1 by_ hd (wrap (rq - 2056)) 2096 bk (2 ^ 62))) as Hs1.
  { eapply (reachable_step _ (Free 4136)); [exact Hs| |exact Hrun1].
    right. exists A. split; [|reflexivity].
    rewrite (repr_registry _ _ Hr). apply elem_of_cons. now left. }
  (* allocate 8 bytes: the block is split *)
  assert (8 <= wrap (2096 - wrap (rq - 2056))) as Hpre.
  { rewrite Hq.
    replace (wrap (2096 - wrap (wrap (2096 - sizeof_mem_block * j) - 2056)))
      with (wrap (2056 + sizeof_mem_block * j)) by wrap_eq.
    rewrite wrap_small by (unfold sizeof_mem_block in *; lia).
    unfold sizeof_mem_block. lia. }
  pose proof (malloc_reuse _ _ _ _ _ _ _ 8 [] _ [] Hr1 ltac:(lia)
                ltac:(constructor) eq_refl Hpre) as Hm.
  cbn [e_size e_addr e_free] in Hm.
  set (c := (2 * 8 <=? 2056) && (1024 <=? 2056 - 8)) in Hm.
  vm_compute in c. subst c. cbv beta iota zeta in Hm.
  destruct Hm as (h2 & Hrun2 & Hr2).
  cbn [app first_addr e_addr] in Hrun2, Hr2. unfold sizeof_mem_block in Hrun2, Hr2.
  match type of Hrun2 with _ = Done _ ?st =>
    assert (reachable st) as Hs2 end.
  { eapply (reachable_step _ (Malloc 8)); [exact Hs1|cbn; unfold sizeof_mem_block; lia|].
    cbn [run]. unfold bind. rewrite Hrun2. reflexivity. }
  (* grow it back in place *)
  destruct (realloc_merge _ _ _ _ _ _ _ [] _ _ [] 20 Hr2 eq_refl eq_refl)
    as (h3 & Hrun3 & Hr3); [cbn; unfold sizeof_mem_block; lia|].
  cbn [app first_addr e_addr e_size] in Hrun3, Hr3.
  unfold sizeof_mem_block in Hrun3, Hr3.
  eexists. split.
  - eapply (reachable_step _ (Realloc 4136 20)); [exact Hs2| |].
    + split; [|unfold sizeof_mem_block; lia]. right. exists (Entry 4096 8 false).
      split; [|split; reflexivity].
      rewrite (repr_registry _ _ Hr2). apply elem_of_cons. right.
      apply elem_of_cons. left. reflexivity.
    + cbn [run]. unfold bind. change 4136 with (4096 + 40).
      rewrite Hrun3. reflexivity.
  - split; [exact Hr3|]. cbn. split; [reflexivity|]. split; [|reflexivity].
    rewrite Hq. unfold sizeof_mem_block. wrap_eq.
Qed.

Lemma drift_reaches j :
  0 <= j -> 2056 + sizeof_mem_block * (j - 1) < 2 ^ 64 ->
  exists s, reachable s /\ drifted j s.
Proof.
  intros Hj. revert j Hj. apply (natlike_ind (fun j =>
    2056 + sizeof_mem_block * (j - 1) < 2 ^ 64 ->
    exists s, reachable s /\ drifted j s)).
  - intros _. exists drift_start. apply drift_start_ok.
  - intros j Hj IH Hb. unfold sizeof_mem_block in *.
    destruct IH as (s & Hs & Hd); [lia|].
    replace (Z.succ j) with (j + 1) by lia.
    apply (drift_cycle j s Hs Hd Hj). unfold sizeof_mem_block. lia.
Qed.

(** The number of cycles after which the slack, read modulo 2^64, is 0
    although the 2056-byte block is free: [2056 + 40 * drift_count = 2^64]. *)
Definition drift_count : Z := 461168601842738739.

(** Where the drift ends.  After [drift_count] rounds of the cycle above,
    all of them legal calls, the state holds a free block of 2056 bytes in
    its registry while the slack [allocated_size - requested_size] reads 0;
    there [malloc 8] does not scan: it moves the break by 48 bytes and
    returns the new block. *)
Lemma drift_wraps_the_slack :
  exists s x,
    reachable s /\ x ∈ registry s /\ e_free x = true /\ e_size x = 2056 /\
    wrap (allocated_size s - requested_size s) = 0 /\
    exists s', malloc 8 s = Done (brk s + sizeof_mem_block) s' /\
               brk s' = brk s + sizeof_mem_block + 8.
Proof.
  destruct (drift_reaches drift_count) as (s & Hs & Hr & Ha & Hq & Hlm);
    [unfold drift_count; lia|unfold drift_count, sizeof_mem_block; lia|].
  destruct s as [h by_ hd rq al bk lm]. cbn in Ha, Hq, Hlm. subst al lm.
  set (A := Entry 4096 2056 false) in *.
  destruct (free_no_merge _ _ _ _ _ _ _ [] A [] Hr eq_refl eq_refl eq_refl)
    as (h1 & Hrun1 & Hr1).
  cbn [app e_addr e_size A] in Hrun1, Hr1.
  set (Y := Heap h1 by_ hd (wrap (rq - 2056)) 2096 bk (2 ^ 62)) in *.
  assert (reachable Y) as HsY.
  { eapply (reachable_step _ (Free 4136)); [exact Hs| |exact Hrun1].
    right. exists A. split; [|reflexivity].
    rewrite (repr_registry _ _ Hr). apply elem_of_cons. now left. }
  assert (wrap (2096 - wrap (rq - 2056)) = 0) as Hslack.
  { rewrite Hq.
    replace (wrap (2096 - wrap (wrap (2096 - sizeof_mem_block * drift_count) - 2056)))
      with (wrap (2056 + sizeof_mem_block * drift_count)) by wrap_eq.
    reflexivity. }
  exists Y, (Entry 4096 2056 true).
  split; [exact HsY|]. split.
  { rewrite (repr_registry _ _ Hr1). apply elem_of_cons. now left. }
  split; [reflexivity|]. split; [reflexivity|]. split; [exact Hslack|].
  unfold Y at 1.
  rewrite (malloc_no_fit _ _ _ _ _ _ _ 8 _ Hr1) by (lia || (left; rewrite Hslack; lia)).
  pose proof (grow_spec _ _ _ _ _ _ _ _ 8 Hr1
                ltac:(unfold sizeof_mem_block; lia)) as Hg.
  pose proof Hr1 as (_ & _ & Hlay & _). cbn in Hlay.
  destruct Hlay as (L1 & _). unfold sizeof_mem_block in *.
  destruct (grow 8 _) as [p s'| | |]; try contradiction.
  destruct Hg as [(_ & _ & Hf)|(-> & _ & h' & -> & _)]; [lia|].
  eexists. split; reflexivity.
Qed.

(** ** What the functions leave alone *)

Lemma keeps_get P : keeps P get.
Proof. intros s a s' HP H. unfold get in H. inversion H; subst. exact HP. Qed.

Lemma keeps_assert P c : keeps P (assert c).
Proof.
  intros s a s' HP H. unfold assert in H. destruct c; [|discriminate].
  inversion H; subst. exact HP.
Qed.

Section Frame.
Variable P : heap -> Prop.
Hypothesis P_put : forall a v s, P s -> P (put a v s).
Hypothesis P_head : forall v s, P s -> P (set_head v s).
Hypothesis P_requested : forall v s, P s -> P (set_requested v s).

Lemma frame_store a f : keeps P (store a f).
Proof.
  intros s u s' HP H. apply store_inv in H as ->. now apply P_put.
Qed.

Ltac frame :=
  repeat first
    [ apply keeps_ret | apply keeps_load | apply keeps_get
    | apply keeps_assert | apply frame_store
    | apply keeps_modify; intros; first [apply P_head | apply P_requested];
      assumption
    | apply keeps_if
    | apply keeps_bind; [|intros ?] ].

Lemma frame_coalesce_prev a : keeps P (coalesce_prev a).
Proof. unfold coalesce_prev. frame. Qed.

Lemma frame_coalesce_next a : keeps P (coalesce_next a).
Proof. unfold coalesce_next. frame. Qed.

Lemma frame_split_mem a size : keeps P (split_mem a size).
Proof. unfold split_mem. frame. Qed.

Lemma frame_first_fit fuel : forall p size, keeps P (first_fit fuel p size).
Proof.
  induction fuel as [|fuel IH]; intros p size; cbn [first_fit].
  - intros s a s' _ H. discriminate.
  - apply keeps_if; [apply keeps_ret|].
    apply keeps_bind; [apply keeps_load|intros b].
    apply keeps_if; [|apply IH].
    apply keeps_bind; [|intros ?; apply keeps_ret].
    apply keeps_if; [|apply keeps_ret].
    apply keeps_bind; [apply frame_split_mem|intros ?].
    apply keeps_modify. intros. now apply P_requested.
Qed.

Lemma frame_free p : keeps P (free p).
Proof.
  unfold free. apply keeps_if; [apply keeps_ret|].
  apply keeps_bind; [apply keeps_load|intros b].
  apply keeps_if; [apply keeps_ret|].
  apply keeps_bind; [apply frame_store|intros ?].
  apply keeps_bind; [apply keeps_load|intros ?].
  apply keeps_bind; [apply keeps_modify; intros; now apply P_requested|intros ?].
  apply keeps_bind; [apply frame_coalesce_prev|intros ?; apply frame_coalesce_next].
Qed.

(** [grow] is the one place that moves the break and adds to
    [allocated_size]; what it keeps may depend on the size asked for. *)
Variable ok : Z -> Prop.
Hypothesis P_grow : forall size, ok size -> keeps P (grow size).

Lemma frame_malloc size : ok size -> keeps P (malloc size).
Proof.
  intros Hok.
  unfold malloc. apply keeps_if; [apply keeps_ret|].
  apply keeps_bind; [apply keeps_get|intros s0].
  apply keeps_bind;
    [apply keeps_if; [apply frame_first_fit|apply keeps_ret]|intros chosen].
  apply keeps_if; [now apply P_grow|]. frame.
Qed.

Hypothesis P_bytes : forall m s, P s -> P (set_bytes m s).

Lemma frame_memset dst c n : keeps P (memset dst c n).
Proof.
  intros s u s' HP H. unfold memset in H.
  destruct (dst =? NULL); [discriminate|]. inversion H; subst.
  now apply P_bytes.
Qed.

Lemma frame_memcpy dst src n : keeps P (memcpy dst src n).
Proof.
  intros s u s' HP H. unfold memcpy in H.
  destruct (_ || _); [discriminate|]. inversion H; subst.
  now apply P_bytes.
Qed.

Lemma frame_calloc num size : ok (wrap (num * size)) -> keeps P (calloc num size).
Proof.
  intros Hok.
  unfold calloc. apply keeps_bind; [now apply frame_malloc|intros p].
  apply keeps_if; [apply keeps_ret|].
  apply keeps_bind; [apply frame_memset|intros ?; apply keeps_ret].
Qed.

Lemma frame_realloc_move p size old :
  ok size -> keeps P (realloc_move p size old).
Proof.
  intros Hok.
  unfold realloc_move. apply keeps_bind; [now apply frame_malloc|intros r].
  apply keeps_bind; [apply frame_memcpy|intros ?].
  apply keeps_bind; [apply frame_free|intros ?; apply keeps_ret].
Qed.

Lemma frame_realloc p size : ok size -> keeps P (realloc p size).
Proof.
  intros Hok.
  unfold realloc.
  apply keeps_bind; [apply keeps_if; [apply frame_free|apply keeps_ret]|intros ?].
  apply keeps_if; [now apply frame_malloc|].
  apply keeps_bind; [apply keeps_load|intros b].
  apply keeps_bind; [apply keeps_assert|intros ?].
  apply keeps_bind; [apply keeps_assert|intros ?].
  apply keeps_if; [apply keeps_ret|].
  apply keeps_if; [now apply frame_realloc_move|].
  apply keeps_bind; [apply keeps_load|intros q].
  apply keeps_if; [now apply frame_realloc_move|].
  apply keeps_if; [|now apply frame_realloc_move].
  apply keeps_bind; [apply keeps_modify; intros; now apply P_requested|intros ?].
  apply keeps_bind; [apply frame_coalesce_prev|intros ?].
  apply keeps_bind; [apply keeps_load|intros ?; apply keeps_ret].
Qed.

Lemma frame_run c :
  match c with
  | Malloc size | Realloc _ size => ok size
  | Calloc num size => ok (wrap (num * size))
  | Free _ => True
  end -> keeps P (run c).
Proof.
  destruct c; cbn [run]; intros Hok.
  - apply keeps_bind; [now apply frame_malloc|intros ?; apply keeps_ret].
  - apply keeps_bind; [now apply frame_calloc|intros ?; apply keeps_ret].
  - apply frame_free.
  - apply keeps_bind; [now apply frame_realloc|intros ?; apply keeps_ret].
Qed.
End Frame.

(** A request whose size plus one header stays below 2^63: the sum handed
    to [sbrk] neither wraps nor turns negative. *)
Definition request_ok (size : Z) : Prop :=
  0 <= size < 2 ^ 63 - sizeof_mem_block.

Definition sized (c : call) : Prop :=
  match c with
  | Malloc size | Realloc _ size => request_ok size
  | Calloc num size => request_ok (wrap (num * size))
  | Free _ => True
  end.

Lemma legal_sized s c : legal s c -> sized c.
Proof.
  destruct c as [size|num size|ptr|ptr size]; cbn; unfold request_ok.
  - auto.
  - intros (_ & _ & H). pose proof (wrap_range (num * size)). lia.
  - auto.
  - now intros [_ H].
Qed.

Lemma sbrk_up size s r s' :
  request_ok size ->
  sbrk (to_intptr (wrap (sizeof_mem_block + size))) s = Done r s' ->
  brk s <= brk s' /\ brk_limit s' = brk_limit s.
Proof.
  unfold request_ok. intros Hok H.
  rewrite to_intptr_small in H by (unfold sizeof_mem_block in *; lia).
  unfold sbrk in H. destruct (_ && _); inversion H; subst; cbn; split;
    unfold sizeof_mem_block in *; lia.
Qed.

Lemma grow_break size s p s' :
  request_ok size -> grow size s = Done p s' ->
  brk s <= brk s' /\ brk_limit s' = brk_limit s.
Proof.
  intros Hok H. unfold grow in H.
  apply bind_inv in H as (r & s1 & Hsb & H).
  apply (sbrk_up _ _ _ _ Hok) in Hsb as [B1 B2].
  set (Q := fun t : heap => brk s <= brk t /\ brk_limit t = brk_limit s).
  assert (Q s1) as HQ by (split; assumption).
  revert H. generalize HQ. generalize s1. clear. intros s1 HQ H.
  destruct r as [chosen|]; [|inversion H; subst; exact HQ].
  revert H.
  match goal with |- ?m ?st = _ -> _ => assert (keeps Q m) as Hk end.
  { assert (forall a v t, Q t -> Q (put a v t)) as Q1 by (intros a v t Ht; exact Ht).
    repeat first
      [ apply keeps_ret | apply keeps_load | apply keeps_get
      | apply (frame_store Q Q1)
      | apply keeps_modify; intros; assumption
      | apply keeps_if
      | apply keeps_bind; [|intros ?] ]. }
  intros H. exact (Hk _ _ _ HQ H).
Qed.

(** A call whose request does not overflow never moves the break down, and
    no such call touches the limit, whatever the state. *)
Theorem break_never_moves_down (c : call) (s s' : heap) :
  sized c -> run c s = Done tt s' ->
  brk s <= brk s' /\ brk_limit s' = brk_limit s.
Proof.
  intros Hc H.
  set (Q := fun t : heap => brk s <= brk t /\ brk_limit t = brk_limit s).
  assert (keeps Q (run c)) as Hk.
  { apply (frame_run Q ltac:(intros; assumption) ltac:(intros; assumption)
             ltac:(intros; assumption) request_ok).
    - intros size Hok t p t' [H1 H2] Hg.
      apply (grow_break _ _ _ _ Hok) in Hg as [G1 G2].
      split; [lia|congruence].
    - intros; assumption.
    - destruct c; exact Hc. }
  apply (Hk s tt s'); [|exact H]. split; [lia|reflexivity].
Qed.

Lemma break_never_moves_down_witness :
  brk (empty_heap 4096 1000000) <= brk (exec (malloc 16) (empty_heap 4096 1000000)) /\
  brk_limit (exec (malloc 16) (empty_heap 4096 1000000))
  = brk_limit (empty_heap 4096 1000000).
Proof.
  apply (break_never_moves_down (Malloc 16)).
  - cbn. unfold request_ok, sizeof_mem_block. lia.
  - vm_compute. reflexivity.
Defined.

Lemma free_frame p s s' :
  free p s = Done tt s' ->
  bytes s' = bytes s /\ brk s' = brk s /\
  brk_limit s' = brk_limit s /\ allocated_size s' = allocated_size s.
Proof.
  intros H.
  set (Q := fun t : heap =>
    bytes t = bytes s /\ brk t = brk s /\
    brk_limit t = brk_limit s /\ allocated_size t = allocated_size s).
  assert (keeps Q (free p)) as Hk
    by (apply frame_free; intros; assumption).
  apply (Hk s tt s'); [|exact H]. repeat split.
Qed.

(** Releasing a block in use, in a state reached by legal calls, always
    returns.  Nothing goes back to the system: the break, its limit and
    [allocated_size] are as before.  Every other block in use is still on
    the list with its address and capacity, and the released pointer is no
    longer the payload of a block in use. *)
Theorem free_keeps_other_blocks_and_break (s : heap) (x : entry) :
  reachable s -> x ∈ registry s -> e_free x = false ->
  exists s',
    free (e_addr x + sizeof_mem_block) s = Done tt s' /\
    brk s' = brk s /\ brk_limit s' = brk_limit s /\
    allocated_size s' = allocated_size s /\
    (forall y, y ∈ registry s -> e_free y = false -> y <> x ->
               y ∈ registry s') /\
    ~ in_use_ptr s' (e_addr x + sizeof_mem_block).
Proof.
  intros Hs Hx Hfx. destruct (reachable_inv s Hs) as (k & _ & Hinv).
  destruct (free_inv k s x Hinv Hx Hfx) as (s' & Hrun & Hinv' & Hkeep & _ & Hb & Hl).
  exists s'. split; [exact Hrun|].
  destruct (free_frame _ _ _ Hrun) as (_ & _ & _ & Ha).
  repeat split; auto.
  intros (y & Hy & Hfy & Ey).
  assert (e_addr y = e_addr x) as Eaddr by lia.
  pose proof Hinv as (Hr & _). pose proof Hinv' as (Hr' & _).
  destruct (list_elem_of_split _ _ Hx) as (l1 & l2 & Hl12). rewrite Hl12 in Hr.
  destruct (registry_lookup _ _ _ _ Hr) as [Hlk X2].
  destruct (list_elem_of_split _ _ Hy) as (m1 & m2 & Hm12). rewrite Hm12 in Hr'.
  destruct (registry_lookup _ _ _ _ Hr') as [Hlk' _].
  assert (e_addr x + sizeof_mem_block <> NULL) as Hnn
    by (unfold NULL, sizeof_mem_block; lia).
  pose proof (free_marks _ _ _ _ Hnn
                ltac:(rewrite get_addr_payload; exact Hlk) Hrun)
    as (b & Hb1 & Hb2 & _).
  rewrite get_addr_payload, <- Eaddr, Hlk' in Hb1.
  inversion Hb1; subst b. cbn in Hb2. congruence.
Qed.

Lemma free_keeps_other_blocks_and_break_witness :
  exists s',
    free (e_addr (Entry 6184 16 false) + sizeof_mem_block) heap_hole
    = Done tt s' /\
    brk s' = brk heap_hole /\ brk_limit s' = brk_limit heap_hole /\
    allocated_size s' = allocated_size heap_hole /\
    (forall y, y ∈ registry heap_hole -> e_free y = false ->
               y <> Entry 6184 16 false -> y ∈ registry s') /\
    ~ in_use_ptr s' (e_addr (Entry 6184 16 false) + sizeof_mem_block).
Proof.
  apply (free_keeps_other_blocks_and_break heap_hole (Entry 6184 16 false)
           reachable_heap_hole).
  - replace (registry heap_hole)
      with [Entry 6184 16 false; Entry 4096 2048 true]
      by (vm_compute; reflexivity).
    apply elem_of_cons. left. reflexivity.
  - reflexivity.
Defined.

(** *** [realloc] keeps the old contents *)










(** ** [realloc] without a move *)

(** [realloc] on the null pointer is [malloc], also for size 0. *)
Theorem realloc_of_null_is_malloc (size : Z) (s : heap) :
  0 <= size -> realloc NULL size s = malloc size s.
Proof.
  intros Hsz. unfold realloc. destruct (Z.leb_spec size 0).
  - assert (size = 0) as -> by lia. reflexivity.
  - reflexivity.
Qed.

Lemma realloc_of_null_is_malloc_witness :
  realloc NULL 16 heap_two = malloc 16 heap_two.
Proof. apply (realloc_of_null_is_malloc 16 heap_two). lia. Defined.

Lemma realloc_in_place p size s b :
  p <> NULL -> hdrs s !! get_addr p = Some b ->
  b_ptr b = p -> b_free b = false -> 0 < size <= b_size b ->
  realloc p size s = Done p s.
Proof.
  intros Hp Hb Hptr Hfree Hsz. unfold realloc.
  rewrite (proj2 (Z.leb_gt size 0)) by lia.
  unfold bind at 1. unfold ret at 1.
  destruct (Z.eqb_spec p NULL); [contradiction|].
  rewrite (bind_done _ _ _ _ _ (load_ok _ _ _ Hb)).
  rewrite Hptr, Z.eqb_refl, Hfree. unfold assert, bind. cbn [negb].
  now rewrite (proj2 (Z.leb_le size (b_size b))) by lia.
Qed.

(** A request that the block's capacity already covers returns the same
    pointer and changes nothing: the block is never shrunk. *)
Theorem realloc_within_capacity (p size : Z) (s : heap) (b : mem_block) :
  p <> NULL -> hdrs s !! get_addr p = Some b ->
  b_ptr b = p -> b_free b = false -> 0 < size <= b_size b ->
  realloc p size s = Done p s.
Proof. apply realloc_in_place. Qed.

Lemma realloc_within_capacity_witness :
  realloc 4136 50 heap_two = Done 4136 heap_two.
Proof.
  apply (realloc_within_capacity 4136 50 heap_two (Block 2048 false 4136 0 6184)).
  - discriminate.
  - vm_compute. reflexivity.
  - reflexivity.
  - reflexivity.
  - cbn. unfold sizeof_mem_block. lia.
Defined.

(** A block in use whose [prev] neighbour is free and large enough grows
    into it: same pointer, no byte copied, the neighbour leaves the
    registry, and [requested_size] rises by the neighbour's capacity less
    one header. *)
Theorem realloc_absorbs_free_prev (s : heap) (l0 l2 : list entry)
    (p x : entry) (size : Z) :
  repr s (l0 ++ p :: x :: l2) -> e_free x = false -> e_free p = true ->
  e_size x < size <= e_size x + e_size p + sizeof_mem_block ->
  exists s',
    realloc (e_addr x + sizeof_mem_block) size s
    = Done (e_addr x + sizeof_mem_block) s' /\
    registry s'
    = l0 ++ Entry (e_addr x) (e_size x + e_size p + sizeof_mem_block) false
         :: l2 /\
    bytes s' = bytes s /\ brk s' = brk s /\
    allocated_size s' = allocated_size s /\
    requested_size s' = wrap (requested_size s + e_size p - sizeof_mem_block).
Proof.
  intros Hr Hfx Hfp Hsz. destruct s as [h by_ hd rq al bk lm].
  destruct (realloc_merge _ _ _ _ _ _ _ _ _ _ _ size Hr Hfx Hfp Hsz)
    as (h' & Hrun & Hr').
  eexists. split; [exact Hrun|]. split; [exact (repr_registry _ _ Hr')|].
  cbn. repeat split. wrap_eq.
Qed.

Lemma realloc_absorbs_free_prev_witness :
  exists s',
    realloc 4136 2100 heap_top_free = Done 4136 s' /\
    registry s' = [Entry 4096 2104 false] /\
    bytes s' = bytes heap_top_free /\ brk s' = brk heap_top_free /\
    allocated_size s' = allocated_size heap_top_free /\
    requested_size s'
    = wrap (requested_size heap_top_free + 16 - sizeof_mem_block).
Proof.
  apply (realloc_absorbs_free_prev heap_top_free [] []
           (Entry 6184 16 true) (Entry 4096 2048 false) 2100
           repr_heap_top_free); try reflexivity.
  cbn [e_size]. unfold sizeof_mem_block. lia.
Defined.

(** ** Growth *)

Lemma reachable_repr s : reachable s -> repr s (registry s).
Proof. intros H. destruct (reachable_inv s H) as (k & _ & Hr & _). exact Hr. Qed.

(** When no free block fits (or the prefilter skips the scan) and the break
    can move, [malloc] puts the new block at the old break and makes it the
    head of the registry; the break and both counters go up by the size
    plus one header, and no payload byte is written. *)
Theorem malloc_grows_when_nothing_fits (s : heap) (size : Z) :
  reachable s -> 0 < size -> size + sizeof_mem_block < 2 ^ 63 ->
  wrap (allocated_size s - requested_size s) < size \/
    Forall (fun y => fits size y = false) (registry s) ->
  brk s + sizeof_mem_block + size <= brk_limit s ->
  exists s',
    malloc size s = Done (brk s + sizeof_mem_block) s' /\
    registry s' = Entry (brk s) size false :: registry s /\
    head s' = brk s /\
    brk s' = brk s + sizeof_mem_block + size /\
    allocated_size s' = allocated_size s + size + sizeof_mem_block /\
    requested_size s' = wrap (requested_size s + size + sizeof_mem_block) /\
    bytes s' = bytes s.
Proof.
  intros Hs Hsz Hsmall Hnofit Hroom.
  destruct (reachable_inv s Hs) as (k & _ & Hr & _ & Ha & _).
  remember (registry s) as l eqn:El.
  destruct s as [h by_ hd rq al bk lm].
  cbn [brk brk_limit allocated_size requested_size head bytes]
    in Ha, Hnofit, Hroom |- *.
  rewrite (malloc_no_fit _ _ _ _ _ _ _ size _ Hr Hsz Hnofit).
  assert (0 < size < 2 ^ 63 - sizeof_mem_block) as Hrange by lia.
  pose proof (grow_spec _ _ _ _ _ _ _ _ size Hr Hrange) as Hg.
  pose proof Hr as (_ & _ & Hlay & Hb0 & Hb1 & Hb2). cbn in Hlay, Hb0, Hb1, Hb2.
  pose proof (sum_all_layout _ _ Hlay) as Hsum.
  pose proof (layout_last_pos _ _ Hb0 Hlay) as Hpos.
  pose proof (layout_last_le _ _ Hlay) as Hle.
  unfold sizeof_mem_block in *.
  destruct (grow size _) as [p s'| | |]; try contradiction.
  destruct Hg as [(_ & _ & Hf)|(-> & _ & h' & -> & Hr')];
    [exfalso; lia|].
  eexists. split; [reflexivity|]. split; [exact (repr_registry _ _ Hr')|].
  cbn [head brk allocated_size requested_size bytes]. repeat split.
  - rewrite wrap_small by lia. lia.
  - wrap_eq.
Qed.

Lemma malloc_grows_when_nothing_fits_witness :
  exists s',
    malloc 4000 heap_hole = Done (brk heap_hole + sizeof_mem_block) s' /\
    registry s' = Entry (brk heap_hole) 4000 false :: registry heap_hole /\
    head s' = brk heap_hole /\
    brk s' = brk heap_hole + sizeof_mem_block + 4000 /\
    allocated_size s' = allocated_size heap_hole + 4000 + sizeof_mem_block /\
    requested_size s' = wrap (requested_size heap_hole + 4000 + sizeof_mem_block) /\
    bytes s' = bytes heap_hole.
Proof.
  apply (malloc_grows_when_nothing_fits heap_hole 4000 reachable_heap_hole).
  - lia.
  - unfold sizeof_mem_block. lia.
  - right. replace (registry heap_hole)
      with [Entry 6184 16 false; Entry 4096 2048 true] by (vm_compute; reflexivity).
    repeat constructor.
  - vm_compute. discriminate.
Defined.

(** When nothing fits and the system refuses to move the break, [malloc]
    returns the null pointer and the state is exactly as before. *)
Theorem malloc_out_of_memory_changes_nothing (s : heap) (size : Z) :
  reachable s -> 0 < size -> size + sizeof_mem_block < 2 ^ 63 ->
  wrap (allocated_size s - requested_size s) < size \/
    Forall (fun y => fits size y = false) (registry s) ->
  brk_limit s < brk s + sizeof_mem_block + size ->
  malloc size s = Done NULL s.
Proof.
  intros Hs Hsz Hsmall Hnofit Hfull.
  pose proof (reachable_repr s Hs) as Hr.
  remember (registry s) as l eqn:El.
  destruct s as [h by_ hd rq al bk lm].
  cbn [brk brk_limit allocated_size requested_size] in Hnofit, Hfull.
  rewrite (malloc_no_fit _ _ _ _ _ _ _ size _ Hr Hsz Hnofit).
  unfold grow, sizeof_mem_block in *.
  rewrite to_intptr_small by lia.
  unfold bind, sbrk. cbn [brk brk_limit].
  rewrite (proj2 (Z.leb_gt (bk + (40 + size)) lm)) by lia.
  now rewrite andb_false_r.
Qed.

Lemma reachable_heap_full : reachable heap_full.
Proof.
  exists 1%nat. eapply (reach_step _ _ (Malloc 8)).
  - apply (reach_init 4096 4144); lia.
  - cbn. unfold sizeof_mem_block. lia.
  - vm_compute. reflexivity.
Defined.

Lemma malloc_out_of_memory_changes_nothing_witness :
  malloc 16 heap_full = Done NULL heap_full.
Proof.
  apply (malloc_out_of_memory_changes_nothing heap_full 16 reachable_heap_full).
  - lia.
  - unfold sizeof_mem_block. lia.
  - left. vm_compute. reflexivity.
  - vm_compute. reflexivity.
Defined.

(** ** The block [malloc] returns *)

Lemma layout_addr_inj top l x y :
  layout top l -> x ∈ l -> y ∈ l -> e_addr x = e_addr y -> x = y.
Proof.
  intros Hl Hx Hy E.
  destruct (list_elem_of_split _ _ Hy) as (l1 & l2 & ->).
  apply layout_app in Hl as [Hl1 Hl2]. cbn in Hl2.
  destruct Hl2 as (Y1 & Y2 & Y3 & Hl2).
  apply elem_of_app in Hx as [Hx|Hx].
  - destruct (layout_bounds _ _ _ Hl1 Hx) as (? & ? & ? & ?).
    unfold sizeof_mem_block in *. lia.
  - apply elem_of_cons in Hx as [->|Hx]; [reflexivity|].
    destruct (layout_bounds _ _ _ Hl2 Hx) as (? & ? & ? & ?).
    unfold sizeof_mem_block in *. lia.
Qed.

Lemma malloc_fresh k s size p s' :
  heap_inv k s -> 0 <= size < 2 ^ 63 - sizeof_mem_block ->
  malloc size s = Done p s' ->
  p <> NULL -> ~ in_use_ptr s p.
Proof.
  intros Hinv Hsz Hrun Hp (y & Hy & Hfy & Ey).
  destruct (Z.eq_dec size 0) as [->|Hnz].
  { cbn in Hrun. inversion Hrun; subst. now elim Hp. }
  pose proof Hinv as (Hr & _).
  remember (registry s) as l eqn:El.
  pose proof Hr as (_ & _ & Hlay & _).
  destruct s as [h by_ hd rq al bk lm]. cbn [brk] in Hlay.
  assert (0 < size < 2 ^ 63 - sizeof_mem_block) as Hrange by lia.
  destruct (Z_lt_dec (wrap (al - rq)) size) as [Hpre|Hpre];
    [|destruct (first_fit_split size l) as [Hc|(l1 & x & l2 & Hl & Hnf & Hfit)]].
  1,2: rewrite (malloc_no_fit _ _ _ _ _ _ _ size _ Hr) in Hrun by (lia || tauto).
  1,2: pose proof (grow_spec _ _ _ _ _ _ _ _ size Hr Hrange) as Hg.
  1,2: rewrite Hrun in Hg.
  1,2: destruct Hg as [(-> & _)|(-> & _)]; [now elim Hp|].
  1,2: destruct (layout_bounds _ _ _ Hlay Hy) as (? & ? & ? & ?).
  1,2: unfold sizeof_mem_block in *; lia.
  clear El. subst l.
  pose proof (malloc_reuse _ _ _ _ _ _ _ size _ _ _ Hr ltac:(lia) Hnf Hfit
                ltac:(lia)) as Hm.
  assert (p = e_addr x + sizeof_mem_block) as ->.
  { destruct (_ && _); destruct Hm as (h' & Hm & _); rewrite Hm in Hrun;
      now inversion Hrun. }
  assert (y = x) as ->.
  { eapply layout_addr_inj; [exact Hlay|exact Hy| |lia].
    apply elem_of_app. right. apply elem_of_cons. now left. }
  unfold fits in Hfit. rewrite Hfy in Hfit. discriminate.
Qed.

(** In a reachable state, for a request whose size plus one header stays
    below 2^63, a non-null result of [malloc] is the payload of a block of
    the new registry that is in use and has room for the request; it was
    not the payload of any block in use before, and every block in use
    before is still in the registry, unchanged. *)
Theorem malloc_returns_fresh_block (s s' : heap) (size p : Z) :
  reachable s -> 0 <= size < 2 ^ 63 - sizeof_mem_block ->
  malloc size s = Done p s' -> p <> NULL ->
  (exists x, x ∈ registry s' /\ e_free x = false /\
             p = e_addr x + sizeof_mem_block /\ size <= e_size x) /\
  ~ in_use_ptr s p /\
  (forall y, y ∈ registry s -> e_free y = false -> y ∈ registry s').
Proof.
  intros Hs Hsz Hrun Hp.
  destruct (reachable_inv s Hs) as (k & _ & Hinv).
  pose proof (malloc_inv k s size Hinv Hsz) as Hm. rewrite Hrun in Hm.
  destruct Hm as (_ & Hkeep & _ & _ & Hx).
  split; [now apply Hx|]. split; [|exact Hkeep].
  eapply malloc_fresh; eauto.
Qed.

Lemma malloc_returns_fresh_block_witness :
  (exists x, x ∈ registry (exec (malloc 16) heap_hole) /\ e_free x = false /\
             4136 = e_addr x + sizeof_mem_block /\ 16 <= e_size x) /\
  ~ in_use_ptr heap_hole 4136 /\
  (forall y, y ∈ registry heap_hole -> e_free y = false ->
             y ∈ registry (exec (malloc 16) heap_hole)).
Proof.
  apply (malloc_returns_fresh_block heap_hole (exec (malloc 16) heap_hole) 16 4136
           reachable_heap_hole).
  - unfold sizeof_mem_block. lia.
  - vm_compute. reflexivity.
  - discriminate.
Defined.

(** ** Release and the two merges *)

(** Releasing a block in use whose two neighbours are free leaves one free
    block in their place: it starts at the lower neighbour, holds the three
    capacities and the two absorbed headers, and [requested_size] drops by
    the released capacity and two headers. *)
Theorem free_merges_both_neighbours (s : heap) (l0 l2 : list entry)
    (p x n : entry) :
  repr s (l0 ++ p :: x :: n :: l2) ->
  e_free p = true -> e_free x = false -> e_free n = true ->
  exists s',
    free (e_addr x + sizeof_mem_block) s = Done tt s' /\
    registry s'
    = l0 ++ Entry (e_addr n)
              (e_size n + e_size x + e_size p + 2 * sizeof_mem_block) true
         :: l2 /\
    requested_size s'
    = wrap (requested_size s - e_size x - 2 * sizeof_mem_block) /\
    allocated_size s' = allocated_size s.
Proof.
  intros Hr Hfp Hfx Hfn. destruct s as [h by_ hd rq al bk lm].
  pose proof Hr as Hr0.
  change (l0 ++ p :: x :: n :: l2) with (l0 ++ [p] ++ x :: n :: l2) in Hr0.
  rewrite app_assoc in Hr0.
  destruct (mark_spec _ _ _ _ _ _ _ _ _ _ true Hr0) as (Hlk & A1 & A2 & Hr1).
  unfold free. rewrite get_addr_payload. unfold sizeof_mem_block.
  destruct (Z.eqb_spec (e_addr x + 40) NULL) as [E|_]; [unfold NULL in E; lia|].
  erewrite bind_load by exact Hlk. cbn [b_free hdr_of]. rewrite Hfx.
  erewrite bind_store; [|exact Hlk|lia].
  erewrite bind_load by apply lookup_insert_eq.
  unfold bind at 1. unfold modify. hsimpl. cbn [hdr_of b_size].
  set (xf := Entry (e_addr x) (e_size x) true) in *.
  rewrite <- app_assoc in Hr1. cbn [app] in Hr1.
  match goal with |- context [Heap ?h1 by_ hd ?rq1 al bk lm] =>
    assert (repr (Heap h1 by_ hd rq1 al bk lm) (l0 ++ p :: xf :: n :: l2)) as Hr1'
      by (eapply repr_ext; [..|exact Hr1]; reflexivity)
  end.
  destruct (coalesce_prev_merge _ _ _ _ _ _ _ _ _ _ _ Hr1' Hfp)
    as (h2 & Hrun2 & Hr2).
  change (e_addr xf) with (e_addr x) in Hrun2, Hr2.
  rewrite (bind_done _ _ _ _ _ Hrun2).
  destruct (coalesce_next_merge _ _ _ _ _ _ _ _ _ _ _ Hr2 Hfn)
    as (h3 & Hrun3 & Hr3).
  match type of Hrun3 with coalesce_next ?a _ = _ =>
    change a with (e_addr x) in Hrun3 end.
  cbv beta. rewrite Hrun3.
  eexists. split; [reflexivity|]. split.
  - rewrite (repr_registry _ _ Hr3). do 2 f_equal. cbn.
    unfold sizeof_mem_block. rewrite Hfn. f_equal. lia.
  - cbn. split; [|reflexivity]. unfold sizeof_mem_block. wrap_eq.
Qed.

(** Three 8-byte blocks, the lowest and the highest released. *)
Definition heap_sandwich : heap :=
  exec (free 4232) (exec (free 4136)
    (exec (malloc 8) (exec (malloc 8) (exec (malloc 8)
       (empty_heap 4096 1000000))))).

Lemma repr_heap_sandwich :
  repr heap_sandwich
    [Entry 4192 8 true; Entry 4144 8 false; Entry 4096 8 true].
Proof.
  assert (reachable heap_sandwich) as Hs.
  { exists 5%nat.
    eapply (reach_step _ _ (Free 4232)).
    eapply (reach_step _ _ (Free 4136)).
    eapply (reach_step _ _ (Malloc 8)).
    eapply (reach_step _ _ (Malloc 8)).
    eapply (reach_step _ _ (Malloc 8)).
    apply (reach_init 4096 1000000); lia.
    all: try (cbn; unfold sizeof_mem_block; lia).
    all: try (vm_compute; reflexivity).
    - right. exists (Entry 4096 8 false). split; [|reflexivity].
      match goal with |- _ ∈ registry ?st =>
        replace (registry st)
          with [Entry 4192 8 false; Entry 4144 8 false; Entry 4096 8 false]
          by (vm_compute; reflexivity) end.
      do 2 (apply elem_of_cons; right). apply elem_of_cons. now left.
    - right. exists (Entry 4192 8 false). split; [|reflexivity].
      match goal with |- _ ∈ registry ?st =>
        replace (registry st)
          with [Entry 4192 8 false; Entry 4144 8 false; Entry 4096 8 true]
          by (vm_compute; reflexivity) end.
      apply elem_of_cons. now left. }
  pose proof (reachable_repr _ Hs) as Hr.
  replace (registry heap_sandwich)
    with [Entry 4192 8 true; Entry 4144 8 false; Entry 4096 8 true] in Hr
    by (vm_compute; reflexivity).
  exact Hr.
Defined.

Lemma free_merges_both_neighbours_witness :
  exists s',
    free 4184 heap_sandwich = Done tt s' /\
    registry s' = [Entry 4096 104 true] /\
    requested_size s'
    = wrap (requested_size heap_sandwich - 8 - 2 * sizeof_mem_block) /\
    allocated_size s' = allocated_size heap_sandwich.
Proof.
  apply (free_merges_both_neighbours heap_sandwich [] []
           (Entry 4192 8 true) (Entry 4144 8 false) (Entry 4096 8 true)
           repr_heap_sandwich); reflexivity.
Defined.

(** [coalesce_next] keeps the [next] neighbour: on a block [x] whose [next]
    neighbour [n] is free, [n] takes [x]'s capacity and header, [x] leaves
    the registry, and [n] becomes the head exactly when [x] was.  The
    function does not look at [x]'s own flag. *)
Theorem coalesce_next_next_block_survives (s : heap) (l1 l2 : list entry)
    (x n : entry) :
  repr s (l1 ++ x :: n :: l2) -> e_free n = true ->
  exists s',
    coalesce_next (e_addr x) s = Done tt s' /\
    registry s'
    = l1 ++ Entry (e_addr n) (e_size n + e_size x + sizeof_mem_block) true
         :: l2 /\
    links_consistent s' /\
    head s' = (match l1 with [] => e_addr n | _ :: _ => head s end) /\
    requested_size s' = wrap (requested_size s - sizeof_mem_block) /\
    allocated_size s' = allocated_size s.
Proof.
  intros Hr Hfn. destruct s as [h by_ hd rq al bk lm].
  destruct (coalesce_next_merge _ _ _ _ _ _ _ _ _ _ _ Hr Hfn) as (h' & Hrun & Hr').
  rewrite Hfn in Hrun, Hr'.
  eexists. split; [exact Hrun|]. split; [exact (repr_registry _ _ Hr')|].
  split; [exact (repr_links _ _ Hr')|]. cbn. split; [|now split].
  destruct Hr as (Hh & _). cbn in Hh. rewrite Hh. now destruct l1.
Qed.

Lemma repr_heap_hole :
  repr heap_hole [Entry 6184 16 false; Entry 4096 2048 true].
Proof.
  pose proof (reachable_repr _ reachable_heap_hole) as Hr.
  replace (registry heap_hole)
    with [Entry 6184 16 false; Entry 4096 2048 true] in Hr
    by (vm_compute; reflexivity).
  exact Hr.
Defined.

Lemma coalesce_next_next_block_survives_witness :
  exists s',
    coalesce_next 6184 heap_hole = Done tt s' /\
    registry s' = [Entry 4096 2104 true] /\
    links_consistent s' /\ head s' = 4096 /\
    requested_size s' = wrap (requested_size heap_hole - sizeof_mem_block) /\
    allocated_size s' = allocated_size heap_hole.
Proof.
  apply (coalesce_next_next_block_survives heap_hole [] []
           (Entry 6184 16 false) (Entry 4096 2048 true) repr_heap_hole).
  reflexivity.
Defined.

(** Both merges leave the state as it is when the neighbour on their side
    is missing or in use. *)
Theorem coalesce_without_free_neighbour (s : heap) (l1 l2 : list entry)
    (x : entry) :
  repr s (l1 ++ x :: l2) ->
  (last_free l1 false = false -> coalesce_prev (e_addr x) s = Done tt s) /\
  (first_free l2 = false -> coalesce_next (e_addr x) s = Done tt s).
Proof.
  intros Hr. destruct s as [h by_ hd rq al bk lm]. split; intros H.
  - apply (coalesce_prev_skip _ _ _ _ _ _ _ _ _ _ Hr).
    intros l0 p ->. now rewrite last_free_snoc in H.
  - apply (coalesce_next_skip _ _ _ _ _ _ _ _ _ _ Hr).
    intros n l0 ->. exact H.
Qed.

Lemma coalesce_without_free_neighbour_witness :
  coalesce_prev 4096 heap_hole = Done tt heap_hole /\
  coalesce_next 4096 heap_hole = Done tt heap_hole.
Proof.
  split;
    apply (coalesce_without_free_neighbour heap_hole [Entry 6184 16 false]
             [] (Entry 4096 2048 true) repr_heap_hole); reflexivity.
Defined.

(** ** Layout of reachable heaps *)

(** In a state reached from the empty heap by legal calls, two different
    blocks of the registry never overlap, header included, and every block
    lies below the break. *)
Theorem registry_blocks_do_not_overlap (s : heap) (x y : entry) :
  reachable s -> x ∈ registry s -> y ∈ registry s -> x <> y ->
  (e_addr x + sizeof_mem_block + e_size x <= e_addr y \/
   e_addr y + sizeof_mem_block + e_size y <= e_addr x) /\
  0 < e_addr x /\ 0 <= e_size x /\
  e_addr x + sizeof_mem_block + e_size x <= brk s.
Proof.
  intros Hs Hx Hy Hne.
  destruct (reachable_repr s Hs) as (_ & _ & Hl & _).
  destruct (layout_bounds _ _ _ Hl Hx) as (X1 & X2 & X3 & _).
  split; [|now repeat split].
  destruct (list_elem_of_split _ _ Hy) as (l1 & l2 & E). rewrite E in Hl, Hx.
  apply layout_app in Hl as [Hl1 Hl2]. cbn in Hl2.
  destruct Hl2 as (Y1 & Y2 & Y3 & Hl2).
  apply elem_of_app in Hx as [Hx|Hx].
  - destruct (layout_bounds _ _ _ Hl1 Hx) as (? & ? & ? & ?).
    right. unfold sizeof_mem_block in *. lia.
  - apply elem_of_cons in Hx as [->|Hx]; [now elim Hne|].
    destruct (layout_bounds _ _ _ Hl2 Hx) as (? & ? & ? & ?).
    left. unfold sizeof_mem_block in *. lia.
Qed.

Lemma registry_blocks_do_not_overlap_witness :
  (6184 + sizeof_mem_block + 16 <= 4096 \/
   4096 + sizeof_mem_block + 2048 <= 6184) /\
  0 < 6184 /\ 0 <= 16 /\ 6184 + sizeof_mem_block + 16 <= brk heap_hole.
Proof.
  apply (registry_blocks_do_not_overlap heap_hole (Entry 6184 16 false)
           (Entry 4096 2048 true) reachable_heap_hole).
  - replace (registry heap_hole)
      with [Entry 6184 16 false; Entry 4096 2048 true] by (vm_compute; reflexivity).
    apply elem_of_cons. now left.
  - replace (registry heap_hole)
      with [Entry 6184 16 false; Entry 4096 2048 true] by (vm_compute; reflexivity).
    apply elem_of_cons. right. apply elem_of_cons. now left.
  - discriminate.
Defined.

(** In a state reached from the empty heap by legal calls the registry
    tiles the heap: each block's payload ends where the header of the block
    before it in the list begins, the head's payload ends at the break, and
    [allocated_size] is the number of bytes between the lowest header and
    the break. *)
Theorem registry_tiles_the_heap (s : heap) :
  reachable s ->
  layout (brk s) (registry s) /\
  allocated_size s = brk s - last_addr (registry s) (brk s) /\
  allocated_size s = sum_all (registry s).
Proof.
  intros Hs. destruct (reachable_inv s Hs) as (k & _ & Hr & _ & Ha & _).
  destruct Hr as (_ & _ & Hl & _).
  split; [exact Hl|]. split; [|exact Ha].
  rewrite Ha. now apply sum_all_layout.
Qed.

Lemma registry_tiles_the_heap_witness :
  layout (brk heap_hole) (registry heap_hole) /\
  allocated_size heap_hole
  = brk heap_hole - last_addr (registry heap_hole) (brk heap_hole) /\
  allocated_size heap_hole = sum_all (registry heap_hole).
Proof. apply (registry_tiles_the_heap heap_hole reachable_heap_hole). Defined.

(** The header of a block of the registry is found forty bytes below its
    payload pointer, and records that pointer, the capacity and the flag. *)
Theorem header_found_from_payload_pointer (s : heap) (x : entry) :
  reachable s -> x ∈ registry s ->
  exists b, hdrs s !! get_addr (e_addr x + sizeof_mem_block) = Some b /\
            b_ptr b = e_addr x + sizeof_mem_block /\
            b_size b = e_size x /\ b_free b = e_free x.
Proof.
  intros Hs Hx. pose proof (reachable_repr s Hs) as Hr.
  destruct (list_elem_of_split _ _ Hx) as (l1 & l2 & E). rewrite E in Hr.
  destruct (registry_lookup _ _ _ _ Hr) as [Hlk _].
  rewrite get_addr_payload. eexists. split; [exact Hlk|]. now cbn.
Qed.

Lemma header_found_from_payload_pointer_witness :
  exists b, hdrs heap_hole !! get_addr (4096 + sizeof_mem_block) = Some b /\
            b_ptr b = 4096 + sizeof_mem_block /\
            b_size b = 2048 /\ b_free b = true.
Proof.
  apply (header_found_from_payload_pointer heap_hole (Entry 4096 2048 true)
           reachable_heap_hole).
  replace (registry heap_hole)
    with [Entry 6184 16 false; Entry 4096 2048 true] by (vm_compute; reflexivity).
  apply elem_of_cons. right. apply elem_of_cons. now left.
Defined.

(** ** Growth for any size

    What [grow] does on a well-formed registry, whatever the size: the
    increment handed to [sbrk] is the wrapped sum read as an [intptr_t], so
    it may be zero, smaller than a header, or negative; when [sbrk] accepts
    it the header is written at the old break all the same. *)

Definition grown (h : gmap Z mem_block) (bk size : Z) (l : list entry)
  : gmap Z mem_block :=
  match l with
  | [] => <[bk := Block size false (bk + sizeof_mem_block) NULL NULL]> h
  | y :: l' =>
      <[e_addr y := hdr_of y (first_addr l' NULL) bk]>
        (<[bk := Block size false (bk + sizeof_mem_block) (e_addr y) NULL]> h)
  end.

Lemma grow_any h by_ hd rq al bk lm l size :
  repr (Heap h by_ hd rq al bk lm) l ->
  grow size (Heap h by_ hd rq al bk lm)
  = if (0 <=? bk + to_intptr (wrap (sizeof_mem_block + size)))
       && (bk + to_intptr (wrap (sizeof_mem_block + size)) <=? lm)
    then
      Done (bk + sizeof_mem_block)
        (Heap (grown h bk size l) by_ bk
           (wrap (rq + (size + sizeof_mem_block)))
           (wrap (al + (size + sizeof_mem_block)))
           (bk + to_intptr (wrap (sizeof_mem_block + size))) lm)
    else Done NULL (Heap h by_ hd rq al bk lm).
Proof.
  intros (Hh & Hs & Hl & Hb0 & Hb1 & Hb2).
  simpl in Hh, Hs, Hl, Hb0, Hb1, Hb2.
  unfold grow. unfold bind at 1. unfold sbrk. cbn [brk brk_limit].
  destruct (_ && _); [|reflexivity].
  unfold set_brk.
  cbn [hdrs bytes head requested_size allocated_size brk brk_limit].
  rewrite bind_store_any by lia.
  erewrite bind_store; [|lk|lia].
  erewrite bind_store; [|lk|lia].
  unfold bind at 1. unfold get. cbn [head].
  erewrite bind_store; [|lk|lia].
  rewrite !insert_insert_eq.
  cbn [with_ptr with_size with_free with_next with_prev
       b_size b_free b_ptr b_next b_prev].
  destruct l as [|y l'].
  - simpl in Hh. subst hd. cbn [Z.eqb NULL].
    erewrite bind_store; [|lk|lia].
    unfold modify, bind, load, ret. hsimpl. rewrite lookup_insert_eq. hsimpl.
    rewrite !insert_insert_eq. reflexivity.
  - simpl in Hh, Hs, Hl. destruct Hs as [Hy Hs]. destruct Hl as (Y1 & Y2 & Y3 & Hl).
    subst hd. unfold sizeof_mem_block in *.
    destruct (Z.eqb_spec (e_addr y) NULL) as [E|_]; [unfold NULL in E; lia|].
    rewrite bind_assoc.
    erewrite bind_load by (rewrite lookup_insert_ne by lia; exact Hy).
    cbn [b_prev hdr_of]. rewrite bind_assoc.
    erewrite bind_store; [|lk|lia].
    erewrite bind_store; [|rewrite lookup_insert_ne by lia;
                           rewrite lookup_insert_ne by lia; exact Hy|lia].
    unfold modify, bind, load, ret. hsimpl. rewrite lookup_insert_ne by lia.
    rewrite lookup_insert_eq. hsimpl.
    rewrite !insert_insert_eq. reflexivity.
Qed.

(** ** Release below a block that caps the list

    [c] is the head of the list, in use, with capacity [sz]; the headers at
    the addresses [A] are linked among themselves and up to [c].  Nothing
    is assumed about where the blocks lie: this is the shape [grow] leaves
    for any size.  Releasing a block of [A] keeps the shape, so [c] stays
    the head with its capacity and flag. *)

Section Capped.
Variables (c sz : Z) (A : list Z).
Hypothesis c_not_null : c <> NULL.
Hypothesis c_out : c ∉ A.
Hypothesis null_out : NULL ∉ A.

Definition linked (b : mem_block) : Prop :=
  (b_prev b = c \/ b_prev b ∈ A) /\ (b_next b = NULL \/ b_next b ∈ A).

Definition capped (s : heap) : Prop :=
  head s = c /\
  (exists b, hdrs s !! c = Some b /\ b_size b = sz /\ b_free b = false) /\
  forall a, a ∈ A -> exists b, hdrs s !! a = Some b /\ linked b.

Lemma capped_lookup s a b :
  capped s -> a ∈ A -> hdrs s !! a = Some b -> linked b.
Proof.
  intros (_ & _ & H) Ha Hb. destruct (H a Ha) as (b' & Hb' & Hl). congruence.
Qed.

Lemma linked_prev_not_null b : linked b -> b_prev b <> NULL.
Proof. intros [[->| H] _]; [exact c_not_null|]. intros E. now rewrite E in H. Qed.

Lemma capped_requested v s : capped s -> capped (set_requested v s).
Proof. intros H. exact H. Qed.

Lemma capped_store s a f s' :
  capped s -> store a f s = Done tt s' ->
  (a = c -> forall b, b_size (f b) = b_size b /\ b_free (f b) = b_free b) ->
  (a ∈ A -> forall b, linked b -> linked (f b)) ->
  a = c \/ a ∈ A ->
  capped s'.
Proof.
  intros (Hh & (bc & Hbc & Hsz & Hfc) & HA) Hst Hc HAf Ha.
  apply store_inv in Hst. subst s'. unfold capped, put, set_hdrs.
  cbn [head hdrs]. split; [exact Hh|]. split.
  - destruct (decide (a = c)) as [->|Hne].
    + rewrite lookup_insert_eq, Hbc. simpl.
      eexists. split; [reflexivity|]. destruct (Hc eq_refl bc) as [E1 E2].
      rewrite E1, E2. auto.
    + rewrite lookup_insert_ne by exact Hne. now exists bc.
  - intros a' Ha'. destruct (decide (a = a')) as [->|Hne].
    + rewrite lookup_insert_eq. destruct (HA a' Ha') as (b & -> & Hl).
      simpl. eexists. split; [reflexivity|]. now apply HAf.
    + rewrite lookup_insert_ne by exact Hne. now apply HA.
Qed.

Lemma store_done_pos a f s u s' : store a f s = Done u s' -> a <> NULL.
Proof.
  unfold store. destruct (Z.ltb_spec 0 a); [|discriminate].
  intros _. unfold NULL. lia.
Qed.

Lemma linked_with_size v b : linked b -> linked (with_size v b).
Proof. intros H. exact H. Qed.

Lemma linked_with_free v b : linked b -> linked (with_free v b).
Proof. intros H. exact H. Qed.

Lemma linked_with_prev v b :
  v = c \/ v ∈ A -> linked b -> linked (with_prev v b).
Proof. intros Hv [_ H]. split; [exact Hv|exact H]. Qed.

Lemma linked_with_next v b :
  v = NULL \/ v ∈ A -> linked b -> linked (with_next v b).
Proof. intros Hv [H _]. split; [exact H|exact Hv]. Qed.

Lemma capped_coalesce_prev s block s' :
  capped s -> block ∈ A -> coalesce_prev block s = Done tt s' -> capped s'.
Proof.
  intros Hc Hb H. unfold coalesce_prev in H.
  apply bind_inv in H as (b & s0 & Hl & H). apply load_inv in Hl as [-> Hlk].
  pose proof (capped_lookup _ _ _ Hc Hb Hlk) as Hlb.
  destruct (Z.eqb_spec (b_prev b) NULL) as [E|_];
    [now apply linked_prev_not_null in Hlb|].
  apply bind_inv in H as (p & s0 & Hl & H). apply load_inv in Hl as [-> Hlkp].
  destruct (b_free p) eqn:Hfp; cbn [negb] in H;
    [|inversion H; subst; exact Hc].
  assert (b_prev b ∈ A) as HpA.
  { destruct Hlb as [[E|HA] _]; [|exact HA].
    destruct Hc as (_ & (bc & Hbc & _ & Hfc) & _). rewrite E in Hlkp. congruence. }
  assert (block <> c) as Hbc by (intros ->; contradiction).
  apply bind_inv in H as ([] & s1 & Hst & H).
  assert (capped s1) as Hc1.
  { eapply capped_store; [exact Hc|exact Hst|congruence| |now right].
    intros _ b0. apply linked_with_size. }
  apply store_inv in Hst. rewrite Hlk in Hst. simpl in Hst.
  apply bind_inv in H as (b2 & s0 & Hl & H). apply load_inv in Hl as [-> Hlk2].
  assert (b_prev b2 = b_prev b) as Epv.
  { subst s1. unfold put, set_hdrs in Hlk2. cbn [hdrs] in Hlk2.
    rewrite lookup_insert_eq in Hlk2. now inversion Hlk2. }
  rewrite Epv in H.
  apply bind_inv in H as (p2 & s0 & Hl & H). apply load_inv in Hl as [-> Hlkp2].
  pose proof (capped_lookup _ _ _ Hc1 HpA Hlkp2) as Hlp2.
  apply bind_inv in H as ([] & s2 & Hst2 & H).
  assert (capped s2) as Hc2.
  { eapply capped_store; [exact Hc1|exact Hst2|congruence| |now right].
    intros _ b0. apply linked_with_prev. apply Hlp2. }
  apply store_inv in Hst2. rewrite Hlk2 in Hst2. simpl in Hst2.
  apply bind_inv in H as (b3 & s0 & Hl & H). apply load_inv in Hl as [-> Hlk3].
  pose proof (capped_lookup _ _ _ Hc2 Hb Hlk3) as Hl3.
  apply bind_inv in H as ([] & s3 & Hst3 & H).
  destruct (Z.eqb_spec (b_prev b3) NULL) as [E|_];
    [now apply linked_prev_not_null in Hl3|].
  assert (capped s3) as Hc3.
  { eapply capped_store; [exact Hc2|exact Hst3| | |apply Hl3].
    - intros _ b0. now split.
    - intros _ b0. apply linked_with_next. now right. }
  unfold modify in H. inversion H; subst. now apply capped_requested.
Qed.

Lemma capped_coalesce_next s block s' :
  capped s -> block ∈ A -> coalesce_next block s = Done tt s' -> capped s'.
Proof.
  intros Hc Hb H. unfold coalesce_next in H.
  apply bind_inv in H as (b & s0 & Hl & H). apply load_inv in Hl as [-> Hlk].
  pose proof (capped_lookup _ _ _ Hc Hb Hlk) as Hlb.
  destruct (Z.eqb_spec (b_next b) NULL) as [E|Hnn];
    [inversion H; subst; exact Hc|].
  assert (b_next b ∈ A) as HnA by (destruct Hlb as [_ [E|HA]]; [contradiction|exact HA]).
  apply bind_inv in H as (n & s0 & Hl & H). apply load_inv in Hl as [-> Hlkn].
  destruct (b_free n) eqn:Hfn; cbn [negb] in H;
    [|inversion H; subst; exact Hc].
  apply bind_inv in H as ([] & s1 & Hst & H).
  assert (capped s1) as Hc1.
  { eapply capped_store; [exact Hc|exact Hst| | |now right].
    - intros E. rewrite E in HnA. contradiction.
    - intros _ b0. apply linked_with_size. }
  apply bind_inv in H as (b2 & s0 & Hl & H). apply load_inv in Hl as [-> Hlk2].
  pose proof (capped_lookup _ _ _ Hc1 Hb Hlk2) as Hl2.
  apply bind_inv in H as ([] & s2 & Hst2 & H).
  assert (b_next b2 ∈ A) as Hn2A.
  { destruct Hl2 as [_ [E|HA]]; [|exact HA].
    apply store_done_pos in Hst2. contradiction. }
  assert (capped s2) as Hc2.
  { eapply capped_store; [exact Hc1|exact Hst2| | |now right].
    - intros E. rewrite E in Hn2A. contradiction.
    - intros _ b0. apply linked_with_prev. apply Hl2. }
  apply bind_inv in H as (b3 & s0 & Hl & H). apply load_inv in Hl as [-> Hlk3].
  pose proof (capped_lookup _ _ _ Hc2 Hb Hlk3) as Hl3.
  apply bind_inv in H as ([] & s3 & Hst3 & H).
  destruct (Z.eqb_spec (b_prev b3) NULL) as [E|_];
    [now apply linked_prev_not_null in Hl3|].
  assert (capped s3) as Hc3.
  { eapply capped_store; [exact Hc2|exact Hst3| | |apply Hl3].
    - intros _ b0. now split.
    - intros _ b0. apply linked_with_next. apply Hl3. }
  unfold modify in H. inversion H; subst. now apply capped_requested.
Qed.

Lemma capped_free s p s' :
  capped s -> get_addr p ∈ A -> free p s = Done tt s' -> capped s'.
Proof.
  intros Hc Hb H. unfold free in H.
  destruct (p =? NULL); [inversion H; subst; exact Hc|].
  apply bind_inv in H as (b & s0 & Hl & H). apply load_inv in Hl as [-> Hlk].
  destruct (b_free b); [inversion H; subst; exact Hc|].
  apply bind_inv in H as ([] & s1 & Hst & H).
  assert (capped s1) as Hc1.
  { eapply capped_store; [exact Hc|exact Hst| | |now right].
    - intros E. rewrite E in Hb. contradiction.
    - intros _ b0. apply linked_with_free. }
  apply bind_inv in H as (b1 & s0 & Hl & H). apply load_inv in Hl as [-> _].
  apply bind_inv in H as ([] & s2 & Hm & H).
  unfold modify in Hm. inversion Hm; subst s2. clear Hm.
  apply bind_inv in H as ([] & s3 & Hcp & H).
  eapply capped_coalesce_next; [|exact Hb|exact H].
  eapply capped_coalesce_prev; [|exact Hb|exact Hcp].
  now apply capped_requested.
Qed.

Lemma capped_registry s :
  capped s -> Entry c sz false ∈ registry s.
Proof.
  intros (Hh & (b & Hb & Hsz & Hf) & _).
  unfold registry, scan_fuel. cbn [walk]. rewrite Hh.
  destruct (Z.eqb_spec c NULL); [contradiction|].
  rewrite Hb, Hsz, Hf. apply elem_of_cons. now left.
Qed.
End Capped.

(** ** What [realloc] returns *)

(** When the block must grow and its [prev] neighbour cannot take it in,
    [realloc] goes to its allocate-copy-release tail. *)
Lemma realloc_dispatch_move s l1 x l2 size :
  repr s (l1 ++ x :: l2) -> e_free x = false -> e_size x < size ->
  (forall l0 q, l1 = l0 ++ [q] -> e_free q = true ->
                e_size x + e_size q + sizeof_mem_block < size) ->
  realloc (e_addr x + sizeof_mem_block) size s
  = realloc_move (e_addr x + sizeof_mem_block) size (e_size x) s.
Proof.
  intros Hr Hfx Hgrow Hsmall.
  destruct (registry_lookup _ _ _ _ Hr) as [Hlk X2].
  pose proof Hr as (_ & Hs & Hlay & Hb0 & Hb1 & Hb2).
  unfold realloc. rewrite get_addr_payload.
  assert (0 <= e_size x).
  { apply layout_app in Hlay as [_ Hlay]. cbn in Hlay. tauto. }
  rewrite (proj2 (Z.leb_gt size 0)) by lia.
  unfold bind at 1. unfold ret at 1.
  destruct (Z.eqb_spec (e_addr x + sizeof_mem_block) NULL) as [E|_];
    [unfold NULL, sizeof_mem_block in E; lia|].
  rewrite (bind_done _ _ _ _ _ (load_ok _ _ _ Hlk)).
  cbn [b_ptr b_free b_size b_prev hdr_of]. rewrite Z.eqb_refl, Hfx.
  unfold assert. unfold bind at 1. cbn [negb]. unfold bind at 1.
  rewrite (proj2 (Z.leb_gt size (e_size x))) by lia.
  destruct l1 as [|q l0 _] using rev_ind; [reflexivity|].
  rewrite last_addr_app. cbn [last_addr].
  apply seg_app in Hs as [Hs _]. apply seg_app in Hs as [_ Hq].
  cbn in Hq. destruct Hq as [Hq _].
  apply layout_app in Hlay as [Hlay1 Hlay2].
  apply layout_app in Hlay1 as [Hlay0 Hlayq]. cbn in Hlayq, Hlay2.
  rewrite last_addr_app in Hlay2. cbn in Hlay2.
  pose proof (layout_last_le _ _ Hlay0).
  destruct (Z.eqb_spec (e_addr q) NULL) as [E|_];
    [unfold NULL in E; lia|].
  rewrite (bind_done _ _ _ _ _ (load_ok _ _ _ Hq)).
  cbn [b_free b_size hdr_of].
  destruct (e_free q) eqn:Hfq; cbn [negb]; [|reflexivity].
  specialize (Hsmall l0 q eq_refl Hfq).
  unfold sizeof_mem_block in *.
  rewrite (wrap_small (e_size x + e_size q + 40)) by lia.
  now rewrite (proj2 (Z.leb_gt size _)) by lia.
Qed.

Lemma seg_linked h c pv l :
  seg h pv l NULL -> pv = c \/ pv ∈ (e_addr <$> l) ->
  forall z, z ∈ l ->
    exists b, h !! e_addr z = Some b /\ linked c ((e_addr <$> l)) b.
Proof.
  assert (forall A pv l, seg h pv l NULL ->
            (pv = c \/ pv ∈ A) -> (forall z, z ∈ l -> e_addr z ∈ A) ->
            forall z, z ∈ l -> exists b, h !! e_addr z = Some b /\ linked c A b)
    as Hgen.
  { intros A. clear pv l. intros pv l. revert pv.
    induction l as [|y l IH]; intros pv Hs Hpv HA z Hz;
      [now apply elem_of_nil in Hz|].
    cbn in Hs. destruct Hs as [Hy Hs].
    apply elem_of_cons in Hz as [->|Hz].
    - eexists. split; [exact Hy|]. split; cbn [hdr_of b_prev b_next]; [exact Hpv|].
      destruct l as [|y' l']; [now left|]. right. cbn.
      apply HA. apply elem_of_cons. right. apply elem_of_cons. now left.
    - apply (IH (e_addr y)); auto.
      + right. apply HA. apply elem_of_cons. now left.
      + intros z' Hz'. apply HA. apply elem_of_cons. now right. }
  intros Hs Hpv. apply (Hgen _ pv l Hs).
  - destruct Hpv; auto.
  - intros z Hz. apply list_elem_of_fmap. now exists z.
Qed.

(** The list [grow] leaves is capped by the new block, whatever the size. *)
Lemma grown_capped h by_ hd rq al bk lm l size m rq' al' bk' :
  repr (Heap h by_ hd rq al bk lm) l ->
  capped bk size ((e_addr <$> l))
    (Heap (grown h bk size l) m bk rq' al' bk' lm).
Proof.
  intros (Hh & Hs & Hl & Hb0 & Hb1 & Hb2).
  cbn in Hh, Hs, Hl, Hb0, Hb1, Hb2.
  unfold capped. cbn [head hdrs]. split; [reflexivity|]. split.
  - destruct l as [|y l']; cbn [grown].
    + rewrite lookup_insert_eq. eexists. split; [reflexivity|]. now split.
    + cbn in Hl. rewrite lookup_insert_ne by (unfold sizeof_mem_block in *; lia).
      rewrite lookup_insert_eq. eexists. split; [reflexivity|]. now split.
  - intros a Ha. apply list_elem_of_fmap in Ha as (z & -> & Hz).
    apply (seg_linked _ bk bk l); [|now left|exact Hz].
    destruct l as [|y l']; [exact I|]. cbn [grown].
    cbn in Hs, Hl. destruct Hs as [Hy Hs]. destruct Hl as (Y1 & Y2 & Y3 & Hl).
    cbn [seg]. split; [apply lookup_insert_eq|].
    eapply seg_frame_below; [exact Hs|exact Hl|].
    intros a Ha. rewrite !lookup_insert_ne by (unfold sizeof_mem_block in *; lia).
    reflexivity.
Qed.

(** A request too large for [sbrk]'s signed increment still gets a block:
    when [realloc] returns, the result is the block written at the old
    break, which records the requested size. *)
Lemma realloc_room_wrapped k s x size r s' :
  heap_inv k s -> x ∈ registry s -> e_free x = false ->
  2 ^ 63 - sizeof_mem_block <= size ->
  realloc (e_addr x + sizeof_mem_block) size s = Done r s' ->
  exists y, y ∈ registry s' /\ e_free y = false /\
            r = e_addr y + sizeof_mem_block /\ size <= e_size y.
Proof.
  intros Hinv Hx Hfx Hsz Hrun.
  pose proof Hinv as (Hr & _).
  remember (registry s) as l eqn:El.
  destruct s as [h by_ hd rq al bk lm].
  assert (forall y, y ∈ l -> 0 < e_addr y < bk /\ e_size y < size) as Hsmall.
  { intros y Hy.
    destruct (repr_size_bound _ _ _ _ _ _ _ _ _ Hr Hy) as (? & ? & ? & ?).
    unfold sizeof_mem_block in *. lia. }
  destruct (list_elem_of_split _ _ Hx) as (l1 & l2 & Hl).
  rewrite Hl in Hr.
  rewrite (realloc_dispatch_move _ l1 x l2 size Hr Hfx) in Hrun.
  2:{ apply (Hsmall x Hx). }
  2:{ intros l0 q -> _.
      pose proof Hr as (_ & _ & Hlay & _ & Hb1 & Hb2).
      cbn in Hlay, Hb1, Hb2.
      apply layout_app in Hlay as [Hlay1 Hlay2].
      apply layout_app in Hlay1 as [Hlay0 Hlayq]. cbn in Hlayq, Hlay2.
      rewrite last_addr_app in Hlay2. cbn in Hlay2.
      pose proof (layout_last_le _ _ Hlay0).
      unfold sizeof_mem_block in *. lia. }
  rewrite <- Hl in Hr.
  unfold realloc_move in Hrun.
  apply bind_inv in Hrun as (r0 & s1 & Hmal & Hrun).
  apply bind_inv in Hrun as ([] & s2 & Hcp & Hrun).
  apply bind_inv in Hrun as ([] & s3 & Hfr & Hrun).
  unfold ret in Hrun. inversion Hrun; subst r0 s3. clear Hrun.
  rewrite (malloc_no_fit _ _ _ _ _ _ _ size _ Hr) in Hmal.
  2:{ unfold sizeof_mem_block in Hsz. lia. }
  2:{ right. apply Forall_forall. intros y Hy. unfold fits.
      rewrite (proj2 (Z.leb_gt size (e_size y))) by apply (Hsmall y Hy).
      apply andb_false_r. }
  rewrite (grow_any _ _ _ _ _ _ _ _ size Hr) in Hmal.
  unfold memcpy in Hcp.
  destruct (_ && _) in Hmal; inversion Hmal; subst r s1; clear Hmal;
    [|discriminate].
  destruct (_ || _) in Hcp; [discriminate|].
  inversion Hcp; subst s2. clear Hcp.
  unfold set_bytes in Hfr.
  cbn [hdrs head requested_size allocated_size brk brk_limit] in Hfr.
  assert (capped bk size ((e_addr <$> l)) s') as Hcap.
  { eapply capped_free; [| | |eapply grown_capped; exact Hr| |exact Hfr].
    - unfold NULL. destruct Hr as (_ & _ & _ & Hb0 & _). cbn in Hb0. lia.
    - intros Hin. apply list_elem_of_fmap in Hin as (y & E & Hy).
      destruct (Hsmall y Hy). lia.
    - intros Hin. apply list_elem_of_fmap in Hin as (y & E & Hy).
      destruct (Hsmall y Hy). unfold NULL in E. lia.
    - rewrite get_addr_payload. apply list_elem_of_fmap. now exists x. }
  exists (Entry bk size false). split.
  - eapply capped_registry; [|exact Hcap].
    unfold NULL. destruct Hr as (_ & _ & _ & Hb0 & _). cbn in Hb0. lia.
  - cbn. repeat split. lia.
Qed.

Lemma realloc_room k s x size r s' :
  heap_inv k s -> x ∈ registry s -> e_free x = false ->
  0 < size < 2 ^ 64 ->
  realloc (e_addr x + sizeof_mem_block) size s = Done r s' ->
  exists y, y ∈ registry s' /\ e_free y = false /\
            r = e_addr y + sizeof_mem_block /\ size <= e_size y.
Proof.
  intros Hinv Hx Hfx Hsz Hrun.
  destruct (Z_le_dec (2 ^ 63 - sizeof_mem_block) size) as [Hbig|Hok];
    [now apply realloc_room_wrapped with (k := k) (s := s) (x := x)|].
  pose proof Hinv as (Hr & _).
  destruct (list_elem_of_split _ _ Hx) as (l1 & l2 & Hl). rewrite Hl in Hr.
  destruct (registry_lookup _ _ _ _ Hr) as [Hlk X2].
  destruct (Z_le_dec size (e_size x)) as [Hfit|Hgrow].
  { assert (0 <= e_size x) as Hx0.
    { destruct Hr as (_ & _ & Hlay & _).
      apply layout_app in Hlay as [_ Hlay]. cbn in Hlay. tauto. }
    rewrite (realloc_in_place _ size s
               (hdr_of x (first_addr l2 NULL) (last_addr l1 NULL))) in Hrun;
      [| unfold NULL, sizeof_mem_block; lia
       | rewrite get_addr_payload; exact Hlk | reflexivity | exact Hfx
       | cbn [b_size hdr_of]; lia].
    inversion Hrun; subst. exists x. repeat split; auto. }
  assert ((exists l0 q, l1 = l0 ++ [q] /\ e_free q = true /\
             size <= e_size x + e_size q + sizeof_mem_block) \/
          (forall l0 q, l1 = l0 ++ [q] -> e_free q = true ->
             e_size x + e_size q + sizeof_mem_block < size)) as [Hm|Hm].
  { destruct l1 as [|q l0 _] using rev_ind.
    - right. intros l0 q E. now destruct l0.
    - destruct (e_free q) eqn:Hfq;
        [destruct (Z_le_dec size (e_size x + e_size q + sizeof_mem_block))|].
      + left. now exists l0, q.
      + right. intros l0' q' E _. apply app_inj_tail in E as [-> ->]. lia.
      + right. intros l0' q' E Hq'. apply app_inj_tail in E as [-> ->].
        congruence. }
  - destruct Hm as (l0 & q & -> & Hfq & Hroom).
    rewrite <- app_assoc in Hr. cbn [app] in Hr.
    destruct s as [h by_ hd rq al bk lm].
    destruct (realloc_merge h by_ hd rq al bk lm l0 q x l2 size Hr Hfx Hfq ltac:(lia))
      as (h' & Hrun' & Hr').
    rewrite Hrun' in Hrun. inversion Hrun; subst.
    rewrite (repr_registry _ _ Hr'). eexists. split.
    { apply elem_of_app. right. apply elem_of_cons. left. reflexivity. }
    cbn. repeat split. lia.
  - rewrite (realloc_dispatch_move s l1 x l2 size Hr Hfx ltac:(lia) Hm) in Hrun.
    unfold realloc_move in Hrun.
    apply bind_inv in Hrun as (r0 & s1 & Hmal & Hrun).
    apply bind_inv in Hrun as ([] & s2 & Hcp & Hrun).
    apply bind_inv in Hrun as ([] & s3 & Hfr & Hrun).
    unfold ret in Hrun. inversion Hrun; subst r0 s3. clear Hrun.
    pose proof (malloc_inv k s size Hinv ltac:(lia)) as Hpost.
    rewrite Hmal in Hpost. destruct Hpost as (Hinv1 & Hkeep & _ & _ & Hy).
    unfold memcpy in Hcp.
    destruct (Z.eqb_spec r NULL) as [|Hr0]; [discriminate|].
    cbn [orb] in Hcp. destruct (_ =? NULL); [discriminate|].
    inversion Hcp; subst s2. clear Hcp.
    destruct (Hy Hr0) as (y & Hy1 & Hy2 & Hy3 & Hy4).
    assert (y <> x) as Hne.
    { intros ->. apply (malloc_fresh k s size r s1 Hinv ltac:(lia) Hmal Hr0).
      exists x. repeat split; auto; now rewrite Hl. }
    match type of Hfr with free _ ?st = _ =>
      destruct (free_inv k st x) as (s3 & Hfr' & _ & Hkeep3 & _) end;
      [now apply heap_inv_bytes | apply (Hkeep x Hx Hfx) | exact Hfx |].
    rewrite Hfr' in Hfr. inversion Hfr; subst s3.
    exists y. repeat split; auto.
Qed.

(** In a reachable state, whenever [realloc] on a pointer in use with a
    non-zero size returns, the result is the payload of a block of the new
    registry that is in use and has room for the requested size. *)
Theorem realloc_result_has_room (s s' : heap) (x : entry) (size r : Z) :
  reachable s -> x ∈ registry s -> e_free x = false ->
  0 < size < 2 ^ 64 ->
  realloc (e_addr x + sizeof_mem_block) size s = Done r s' ->
  exists y, y ∈ registry s' /\ e_free y = false /\
            r = e_addr y + sizeof_mem_block /\ size <= e_size y.
Proof.
  intros Hs. destruct (reachable_inv s Hs) as (k & _ & Hinv).
  now apply realloc_room with (k := k).
Qed.

Lemma realloc_result_has_room_witness :
  exists y, y ∈ registry (exec (realloc 6224 100) heap_hole) /\
            e_free y = false /\
            4136 = e_addr y + sizeof_mem_block /\ 100 <= e_size y.
Proof.
  apply (realloc_result_has_room heap_hole (exec (realloc 6224 100) heap_hole)
           (Entry 6184 16 false) 100 4136 reachable_heap_hole).
  - replace (registry heap_hole)
      with [Entry 6184 16 false; Entry 4096 2048 true]
      by (vm_compute; reflexivity).
    apply elem_of_cons. left. reflexivity.
  - reflexivity.
  - lia.
  - vm_compute. reflexivity.
Defined.

(** ** Release followed by allocation *)

Lemma free_malloc_roundtrip k h by_ hd rq al bk lm l1 x l2 size :
  heap_inv k (Heap h by_ hd rq al bk lm) ->
  0 <= k -> sizeof_mem_block * k < 2 ^ 63 ->
  registry (Heap h by_ hd rq al bk lm) = l1 ++ x :: l2 ->
  e_free x = false -> last_free l1 false = false -> first_free l2 = false ->
  Forall (fun y => fits size y = false) l1 ->
  0 < size <= e_size x ->
  (2 * size <=? e_size x) && (1024 <=? e_size x - size) = false ->
  exists h1 h2,
    free (e_addr x + sizeof_mem_block) (Heap h by_ hd rq al bk lm)
    = Done tt (Heap h1 by_ hd (wrap (rq - e_size x)) al bk lm) /\
    malloc size (Heap h1 by_ hd (wrap (rq - e_size x)) al bk lm)
    = Done (e_addr x + sizeof_mem_block) (Heap h2 by_ hd rq al bk lm) /\
    registry (Heap h2 by_ hd rq al bk lm) = l1 ++ x :: l2.
Proof.
  intros (Hr & Hn & Ha & Hq) Hk0 Hk Hl Hfx Hl1 Hl2 Hnf Hsz Hsplit.
  rewrite Hl in Hr, Ha, Hq. cbn [allocated_size requested_size] in Ha, Hq.
  destruct (free_no_merge _ _ _ _ _ _ _ _ _ _ Hr Hfx Hl1 Hl2) as (h1 & Hfree & Hr1).
  set (xf := Entry (e_addr x) (e_size x) true) in *.
  pose proof Hr1 as (_ & _ & Hlay1 & Hb0 & Hb1 & Hb2).
  cbn [brk brk_limit] in Hlay1, Hb0, Hb1, Hb2.
  pose proof (sum_free_bounds _ _ Hlay1) as Hsf.
  pose proof (sum_all_layout _ _ Hlay1) as Hsa.
  pose proof (layout_last_pos _ _ Hb0 Hlay1) as Hlast.
  rewrite sum_free_app in Hsf. rewrite sum_all_app in Hsf, Hsa.
  cbn [sum_free sum_all e_free e_size xf] in Hsf, Hsa.
  rewrite sum_all_app, sum_free_app in Hq. rewrite sum_all_app in Ha.
  cbn [sum_free sum_all] in Hq, Ha. rewrite Hfx in Hq.
  assert (0 <= sum_free l1 /\ 0 <= sum_free l2) as [Hsf1 Hsf2].
  { apply layout_app in Hlay1 as [Hlay0 Hlay1]. cbn in Hlay1.
    destruct Hlay1 as (_ & _ & _ & Hlay1).
    pose proof (sum_free_bounds _ _ Hlay0).
    pose proof (sum_free_bounds _ _ Hlay1). lia. }
  assert (wrap (al - wrap (rq - e_size x))
          = sum_free l1 + (e_size x + sum_free l2) + sizeof_mem_block * k) as Hslack.
  { rewrite <- (wrap_small (sum_free l1 + _ + _)) by (unfold sizeof_mem_block in *; lia).
    rewrite Hq, Ha. unfold sizeof_mem_block. wrap_eq. }
  pose proof (malloc_reuse h1 by_ hd (wrap (rq - e_size x)) al bk lm size l1 xf l2
                Hr1 ltac:(lia)) as Hm.
  cbn [e_size e_addr xf] in Hm. rewrite Hsplit in Hm.
  destruct Hm as (h2 & Hmal & Hr2).
  - exact Hnf.
  - unfold fits. cbn [e_free e_size xf]. apply Z.leb_le. lia.
  - rewrite Hslack. unfold sizeof_mem_block in *. lia.
  - assert (wrap (wrap (rq - e_size x) + e_size x) = rq) as Erq.
    { rewrite <- (wrap_small rq) at 2 by (rewrite Hq; apply wrap_range).
      wrap_eq. }
    rewrite Erq in Hmal, Hr2.
    assert (Entry (e_addr x) (e_size x) false = x) as Ex
      by (destruct x; cbn in *; now subst).
    rewrite Ex in Hr2.
    exists h1, h2. repeat split; auto. now apply repr_registry.
Qed.

(** Releasing a block in use that has no free neighbour and asking again for
    a size it covers, when no earlier block of the list fits and the block is
    not split, hands the same pointer back; the registry and both counters
    return to what they were (the block is not counted twice). *)
Theorem free_then_malloc_reuses_block (n : nat) (s : heap)
    (l1 l2 : list entry) (x : entry) (size : Z) :
  reachable_in n s -> sizeof_mem_block * Z.of_nat n < 2 ^ 63 ->
  registry s = l1 ++ x :: l2 ->
  e_free x = false -> last_free l1 false = false -> first_free l2 = false ->
  Forall (fun y => fits size y = false) l1 ->
  0 < size <= e_size x ->
  (2 * size <=? e_size x) && (1024 <=? e_size x - size) = false ->
  exists s1 s2,
    free (e_addr x + sizeof_mem_block) s = Done tt s1 /\
    malloc size s1 = Done (e_addr x + sizeof_mem_block) s2 /\
    registry s2 = registry s /\
    requested_size s2 = requested_size s /\
    allocated_size s2 = allocated_size s /\
    brk s2 = brk s /\ bytes s2 = bytes s.
Proof.
  intros Hs Hn Hl Hfx Hl1 Hl2 Hnf Hsz Hsplit.
  destruct (reachable_in_inv n s Hs) as (k & Hk & Hinv).
  destruct s as [h by_ hd rq al bk lm].
  destruct (free_malloc_roundtrip k h by_ hd rq al bk lm l1 x l2 size)
    as (h1 & h2 & Hf & Hm & Hreg); auto; try lia.
  { unfold sizeof_mem_block in *. lia. }
  eexists _, _. split; [exact Hf|]. split; [exact Hm|].
  rewrite Hreg, Hl. repeat split.
Qed.

Lemma reachable_in_heap_two : reachable_in 2 heap_two.
Proof.
  eapply (reach_step _ _ (Malloc 16)).
  eapply (reach_step _ _ (Malloc 2048)).
  apply (reach_init 4096 1000000); lia.
  all: try (cbn; unfold sizeof_mem_block; lia).
  all: try (vm_compute; reflexivity).
Defined.

Lemma free_then_malloc_reuses_block_witness :
  exists s1 s2,
    free (4096 + sizeof_mem_block) heap_two = Done tt s1 /\
    malloc 2000 s1 = Done (4096 + sizeof_mem_block) s2 /\
    registry s2 = registry heap_two /\
    requested_size s2 = requested_size heap_two /\
    allocated_size s2 = allocated_size heap_two /\
    brk s2 = brk heap_two /\ bytes s2 = bytes heap_two.
Proof.
  apply (free_then_malloc_reuses_block 2 heap_two
           [Entry 6184 16 false] [] (Entry 4096 2048 false) 2000
           reachable_in_heap_two).
  - vm_compute. reflexivity.
  - vm_compute. reflexivity.
  - reflexivity.
  - reflexivity.
  - reflexivity.
  - repeat constructor.
  - cbn. unfold sizeof_mem_block. lia.
  - reflexivity.
Defined.

(** ** One call, seen from the registry *)

(** The test [realloc] makes before it grows a block in place: the block is
    too small, its [prev] neighbour exists and is free, and the two
    capacities with one header cover the request. *)
Definition merges_in_place (c : call) (s : heap) : bool :=
  match c with
  | Realloc ptr size =>
      match hdrs s !! get_addr ptr with
      | Some b =>
          negb (ptr =? NULL) && (0 <? size) && negb (size <=? b_size b) &&
          negb (b_prev b =? NULL) &&
          match hdrs s !! b_prev b with
          | Some p =>
              b_free p &&
              (size <=? wrap (b_size b + b_size p + sizeof_mem_block))
          | None => false
          end
      | None => false
      end
  | _ => false
  end.

Definition merge_count (c : call) (s : heap) : Z :=
  if merges_in_place c s then 1 else 0.

(** The pointer a call is given, if any. *)
Definition target (c : call) : Z :=
  match c with
  | Free ptr | Realloc ptr _ => ptr
  | _ => NULL
  end.

Lemma realloc_step k s x size r s' :
  heap_inv k s -> x ∈ registry s -> e_free x = false ->
  0 < size < 2 ^ 63 - sizeof_mem_block ->
  realloc (e_addr x + sizeof_mem_block) size s = Done r s' ->
  heap_inv (k + merge_count (Realloc (e_addr x + sizeof_mem_block) size) s) s' /\
  (forall y, y ∈ registry s -> e_free y = false -> y <> x -> y ∈ registry s').
Proof.
  intros Hinv Hx Hfx Hsz Hrun.
  pose proof Hinv as (Hr & Hn & Ha & Hq).
  destruct (list_elem_of_split _ _ Hx) as (l1 & l2 & Hl).
  rewrite Hl in Hr, Hn, Ha, Hq.
  destruct (registry_lookup _ _ _ _ Hr) as [Hlk X2].
  assert (0 <= e_size x) as Hx0.
  { destruct Hr as (_ & _ & Hlay & _).
    apply layout_app in Hlay as [_ Hlay]. cbn in Hlay. tauto. }
  unfold merge_count, merges_in_place. rewrite get_addr_payload, Hlk.
  cbn [b_size b_prev hdr_of].
  destruct (Z_le_dec size (e_size x)) as [Hfit|Hgrow].
  { rewrite (realloc_in_place _ size s
               (hdr_of x (first_addr l2 NULL) (last_addr l1 NULL))) in Hrun;
      [| unfold NULL, sizeof_mem_block; lia
       | rewrite get_addr_payload; exact Hlk | reflexivity | exact Hfx
       | cbn [b_size hdr_of]; lia].
    inversion Hrun; subst.
    rewrite (proj2 (Z.leb_le size (e_size x))) by lia.
    cbn [negb]. rewrite andb_false_r. cbn [andb].
    replace (k + 0) with k by lia. split; [exact Hinv|auto]. }
  rewrite (proj2 (Z.leb_gt size (e_size x))) by lia.
  rewrite (proj2 (Z.ltb_lt 0 size)) by lia.
  destruct (Z.eqb_spec (e_addr x + sizeof_mem_block) NULL) as [E|_];
    [unfold NULL, sizeof_mem_block in E; lia|].
  cbn [negb andb].
  assert (forall l0 q, l1 = l0 ++ [q] ->
            last_addr l1 NULL = e_addr q /\
            hdrs s !! e_addr q
            = Some (hdr_of q (e_addr x) (last_addr l0 NULL)) /\
            0 < e_addr q /\
            0 <= e_size x + e_size q + sizeof_mem_block < 2 ^ 63) as Hq1.
  { intros l0 q ->. rewrite last_addr_app. cbn [last_addr].
    split; [reflexivity|].
    rewrite <- app_assoc in Hr. cbn [app] in Hr.
    destruct (registry_lookup _ _ _ _ Hr) as [Hlkq Q2].
    cbn [first_addr] in Hlkq. split; [exact Hlkq|]. split; [exact Q2|].
    destruct Hr as (_ & _ & Hlay & _ & Hb1 & Hb2).
    apply layout_app in Hlay as [Hlay0 Hlay]. cbn in Hlay.
    pose proof (layout_last_le _ _ Hlay0).
    unfold sizeof_mem_block in *. lia. }
  assert ((exists l0 q, l1 = l0 ++ [q] /\ e_free q = true /\
             size <= e_size x + e_size q + sizeof_mem_block) \/
          (forall l0 q, l1 = l0 ++ [q] -> e_free q = true ->
             e_size x + e_size q + sizeof_mem_block < size)) as [Hm|Hm].
  { destruct l1 as [|q l0 _] using rev_ind.
    - right. intros l0 q E. now destruct l0.
    - destruct (e_free q) eqn:Hfq;
        [destruct (Z_le_dec size (e_size x + e_size q + sizeof_mem_block))|].
      + left. now exists l0, q.
      + right. intros l0' q' E _. apply app_inj_tail in E as [-> ->]. lia.
      + right. intros l0' q' E Hq'. apply app_inj_tail in E as [-> ->].
        congruence. }
  - destruct Hm as (l0 & q & -> & Hfq & Hroom).
    destruct (Hq1 l0 q eq_refl) as (-> & Hlkq & Q2 & Qb).
    rewrite Hlkq. cbn [b_free b_size hdr_of]. rewrite Hfq.
    destruct (Z.eqb_spec (e_addr q) NULL) as [E|_]; [unfold NULL in E; lia|].
    rewrite wrap_small by lia.
    rewrite (proj2 (Z.leb_le size _)) by lia. cbn [negb andb].
    rewrite <- app_assoc in Hr, Hn, Ha, Hq, Hl. cbn [app] in Hr, Hn, Ha, Hq, Hl.
    destruct s as [h by_ hd rq al bk lm].
    cbn [allocated_size requested_size] in Ha, Hq.
    destruct (realloc_merge h by_ hd rq al bk lm l0 q x l2 size Hr Hfx Hfq
                ltac:(lia)) as (h' & Hrun' & Hr').
    rewrite Hrun' in Hrun. inversion Hrun; subst r s'. clear Hrun.
    split.
    + eapply heap_inv_intro; [exact Hr'|..]; cbn.
      * rewrite no_free_pair_app in Hn |- *. cbn in Hn |- *.
        rewrite Hfx, Hfq in *.
        destruct (no_free_pair l0), (last_free l0 false), (first_free l2),
          (no_free_pair l2); cbn in *; try discriminate; reflexivity.
      * rewrite Ha, !sum_all_app. cbn. unfold sizeof_mem_block. lia.
      * rewrite Hq, !sum_all_app, !sum_free_app. cbn. rewrite Hfx, Hfq.
        unfold sizeof_mem_block. wrap_eq.
    + intros y Hy Hfy Hne. rewrite (repr_registry _ _ Hr'). rewrite Hl in Hy.
      apply elem_of_app in Hy as [Hy|Hy]; [apply elem_of_app; now left|].
      apply elem_of_cons in Hy as [->|Hy]; [congruence|].
      apply elem_of_cons in Hy as [->|Hy]; [congruence|].
      apply elem_of_app. right. apply elem_of_cons. now right.
  - assert (negb (last_addr l1 NULL =? NULL) &&
            match hdrs s !! last_addr l1 NULL with
            | Some p => b_free p &&
                        (size <=? wrap (e_size x + b_size p + sizeof_mem_block))
            | None => false
            end = false) as ->.
    { destruct l1 as [|q l0 _] using rev_ind; [reflexivity|].
      destruct (Hq1 l0 q eq_refl) as (-> & Hlkq & Q2 & Qb).
      rewrite Hlkq. cbn [b_free b_size hdr_of].
      destruct (e_free q) eqn:Hfq; [|now rewrite andb_false_r].
      specialize (Hm l0 q eq_refl Hfq).
      rewrite wrap_small by lia.
      rewrite (proj2 (Z.leb_gt size _)) by lia. now rewrite andb_false_r. }
    replace (k + 0) with k by lia.
    rewrite (realloc_dispatch_move s l1 x l2 size Hr Hfx ltac:(lia) Hm) in Hrun.
    unfold realloc_move in Hrun.
    apply bind_inv in Hrun as (r0 & s1 & Hmal & Hrun).
    apply bind_inv in Hrun as ([] & s2 & Hcp & Hrun).
    apply bind_inv in Hrun as ([] & s3 & Hfr & Hrun).
    unfold ret in Hrun. inversion Hrun; subst r0 s3. clear Hrun.
    pose proof (malloc_inv k s size Hinv ltac:(lia)) as Hpost.
    rewrite Hmal in Hpost. destruct Hpost as (Hinv1 & Hkeep & _).
    unfold memcpy in Hcp. destruct (_ || _); [discriminate|].
    inversion Hcp; subst s2. clear Hcp.
    match type of Hfr with free _ ?st = _ =>
      destruct (free_inv k st x) as (s3 & Hfr' & Hinv3 & Hkeep3 & _) end;
      [now apply heap_inv_bytes | apply (Hkeep x Hx Hfx) | exact Hfx |].
    rewrite Hfr' in Hfr. inversion Hfr; subst s3.
    split; [exact Hinv3|]. intros y Hy Hfy Hne.
    apply Hkeep3; auto.
Qed.

(** What one legal call that returns does to the registry: the invariant
    holds again, with one more unit of drift exactly when the call was an
    in-place merge, and every block in use other than the one the call was
    given is still on the list with its address and capacity. *)
Lemma run_step k s c s' :
  heap_inv k s -> legal s c -> run c s = Done tt s' ->
  heap_inv (k + merge_count c s) s' /\
  (forall y, y ∈ registry s -> e_free y = false ->
             e_addr y + sizeof_mem_block <> target c -> y ∈ registry s').
Proof.
  intros Hinv Hlegal Hrun.
  destruct c as [size|num size|ptr|ptr size]; cbn [run target] in *.
  - apply bind_inv in Hrun as (p & s1 & Hm & Hrun). inversion Hrun; subst s1.
    pose proof (malloc_inv k s size Hinv Hlegal) as Hpost.
    rewrite Hm in Hpost. destruct Hpost as (Hinv' & Hkeep & _).
    unfold merge_count. cbn. replace (k + 0) with k by lia.
    split; [exact Hinv'|]. intros y Hy Hfy _. now apply Hkeep.
  - apply bind_inv in Hrun as (p & s1 & Hc & Hrun). inversion Hrun; subst s1.
    destruct Hlegal as (_ & _ & Hsz).
    pose proof (wrap_range (num * size)) as Hw.
    pose proof (malloc_inv k s (wrap (num * size)) Hinv ltac:(lia)) as Hpost.
    unfold calloc in Hc.
    apply bind_inv in Hc as (p0 & s1 & Hm & Hc).
    rewrite Hm in Hpost. destruct Hpost as (Hinv' & Hkeep & _).
    unfold merge_count. cbn. replace (k + 0) with k by lia.
    destruct (p0 =? NULL).
    + inversion Hc; subst. split; [exact Hinv'|].
      intros y Hy Hfy _. now apply Hkeep.
    + apply bind_inv in Hc as ([] & s2 & Hms & Hc). inversion Hc; subst.
      unfold memset in Hms. destruct (_ =? NULL) in Hms; [discriminate|].
      inversion Hms; subst. split; [now apply heap_inv_bytes|].
      intros y Hy Hfy _. now apply (Hkeep y).
  - unfold merge_count. cbn. replace (k + 0) with k by lia.
    destruct Hlegal as [->|(x & Hx & ->)].
    + cbn in Hrun. inversion Hrun; subst. auto.
    + destruct (e_free x) eqn:Hfx.
      * destruct (list_elem_of_split _ _ Hx) as (l1 & l2 & Hl).
        pose proof Hinv as (Hr & _). rewrite Hl in Hr.
        destruct (registry_lookup _ _ _ _ Hr) as [Hlk X2].
        rewrite (free_marked_noop (e_addr x + sizeof_mem_block) s
                   (hdr_of x (first_addr l2 NULL) (last_addr l1 NULL)))
          in Hrun;
          [|unfold NULL, sizeof_mem_block; lia
           |rewrite get_addr_payload; exact Hlk|exact Hfx].
        inversion Hrun; subst. auto.
      * destruct (free_inv k s x Hinv Hx Hfx) as (s2 & Hrun2 & Hinv2 & Hkeep & _).
        rewrite Hrun2 in Hrun. inversion Hrun; subst s2.
        split; [exact Hinv2|]. intros y Hy Hfy Hne. apply Hkeep; auto.
        intros ->. now apply Hne.
  - apply bind_inv in Hrun as (r & s1 & Hre & Hrun). inversion Hrun; subst s1.
    destruct Hlegal as [[->|(x & Hx & Hfx & ->)] Hsz].
    + assert (merge_count (Realloc NULL size) s = 0) as ->.
      { unfold merge_count, merges_in_place.
        destruct (hdrs s !! get_addr NULL); reflexivity. }
      replace (k + 0) with k by lia.
      rewrite realloc_null in Hre by lia.
      pose proof (malloc_inv k s size Hinv Hsz) as Hpost.
      rewrite Hre in Hpost. destruct Hpost as (Hinv' & Hkeep & _).
      split; [exact Hinv'|]. intros y Hy Hfy _. now apply Hkeep.
    + destruct (Z.eq_dec size 0) as [->|Hnz].
      * pose proof (realloc_inv k s x 0 Hinv Hx Hfx Hsz) as Hpost.
        rewrite Hre in Hpost. cbn in Hpost.
        destruct (free_inv k s x Hinv Hx Hfx) as (s2 & Hrun2 & _).
        destruct (list_elem_of_split _ _ Hx) as (l1 & l2 & Hl).
        pose proof Hinv as (Hr & _). rewrite Hl in Hr.
        destruct (registry_lookup _ _ _ _ Hr) as [Hlk X2].
        rewrite (realloc_zero_falls_through _ s s2
                   (hdr_of x (first_addr l2 NULL) (last_addr l1 NULL)))
          in Hre; [discriminate| |rewrite get_addr_payload; exact Hlk
                   |reflexivity|exact Hrun2].
        unfold NULL, sizeof_mem_block. lia.
      * destruct (realloc_step k s x size r s' Hinv Hx Hfx ltac:(lia) Hre)
          as [Hinv' Hkeep].
        split; [exact Hinv'|]. intros y Hy Hfy Hne. apply Hkeep; auto.
        intros ->. now apply Hne.
Qed.

(** ** Where the list starts

    [allocated_size] grows with the break, so the difference of the two, the
    address of the lowest header, never moves. *)

Definition based (d : Z) (t : heap) : Prop :=
  brk t - allocated_size t = d /\ 0 <= d /\ 0 <= allocated_size t /\
  brk t <= brk_limit t /\ brk_limit t < 2 ^ 63.

Lemma grow_based d size : request_ok size -> keeps (based d) (grow size).
Proof.
  intros Hok s p s' HQ H. unfold grow in H.
  apply bind_inv in H as (r & s1 & Hsb & H).
  unfold request_ok in Hok.
  rewrite to_intptr_small in Hsb by (unfold sizeof_mem_block in *; lia).
  unfold sbrk in Hsb.
  destruct (_ && _) eqn:Hc in Hsb; inversion Hsb; subst r s1; clear Hsb;
    [|inversion H; subst; exact HQ].
  apply andb_prop in Hc as [_ Hc]. apply Z.leb_le in Hc.
  set (Q1 := fun t : heap =>
    brk t = brk s + (sizeof_mem_block + size) /\
    brk_limit t = brk_limit s /\ allocated_size t = allocated_size s).
  assert (forall a f, keeps Q1 (store a f)) as Kst
    by (intros; apply frame_store; intros; assumption).
  match type of H with bind _ _ ?st = _ => assert (Q1 st) as HQ1 by (now cbn) end.
  apply bind_inv in H as ([] & s2 & H1 & H). apply (Kst _ _ _ _ _ HQ1) in H1.
  apply bind_inv in H as ([] & s3 & H2 & H). apply (Kst _ _ _ _ _ H1) in H2.
  apply bind_inv in H as ([] & s4 & H3 & H). apply (Kst _ _ _ _ _ H2) in H3.
  apply bind_inv in H as (s0 & s5 & H4 & H). unfold get in H4.
  inversion H4; subst s0 s5. clear H4.
  apply bind_inv in H as ([] & s5 & H5 & H). apply (Kst _ _ _ _ _ H3) in H5.
  apply bind_inv in H as ([] & s6 & H6 & H).
  assert (Q1 s6) as HQ6.
  { revert H6. generalize H5. generalize s5.
    match goal with |- forall t, _ -> ?m t = _ -> _ =>
      assert (keeps Q1 m) as Hk end.
    { repeat first
        [ apply keeps_ret | apply keeps_load | apply Kst
        | apply keeps_if | apply keeps_bind; [|intros ?] ]. }
    intros t Ht Hm. exact (Hk _ _ _ Ht Hm). }
  apply bind_inv in H as ([] & s7 & H7 & H). unfold modify in H7.
  inversion H7; subst s7. clear H7.
  apply bind_inv in H as ([] & s8 & H8 & H). unfold modify in H8.
  inversion H8; subst s8. clear H8.
  apply bind_inv in H as ([] & s9 & H9 & H). unfold modify in H9.
  inversion H9; subst s9. clear H9.
  apply bind_inv in H as (c0 & s10 & H10 & H). apply load_inv in H10 as [-> _].
  inversion H; subst. clear H.
  destruct HQ as (D1 & D2 & D3 & D4 & D5). destruct HQ6 as (E1 & E2 & E3).
  unfold based. hsimpl. rewrite E1, E2, E3.
  unfold sizeof_mem_block in *. rewrite wrap_small by lia. lia.
Qed.

Lemma run_based d c : sized c -> keeps (based d) (run c).
Proof.
  intros Hc.
  apply (frame_run (based d)) with (ok := request_ok);
    try (intros; assumption).
  intros size Hok. now apply grow_based.
Qed.

Lemma heap_inv_based k s :
  heap_inv k s -> based (last_addr (registry s) (brk s)) s.
Proof.
  intros (Hr & _ & Ha & _).
  destruct Hr as (_ & _ & Hlay & Hb0 & Hb1 & Hb2).
  pose proof (sum_all_layout _ _ Hlay) as Hsum.
  pose proof (layout_last_pos _ _ Hb0 Hlay) as Hpos.
  pose proof (sum_free_bounds _ _ Hlay) as Hsf.
  unfold based. lia.
Qed.

Lemma based_inj d d' s : based d s -> based d' s -> d = d'.
Proof. intros (H & _) (H' & _). lia. Qed.

(** ** The doubly-linked list along a run *)

(** The blocks met from the head tile the heap, without gap or overlap,
    from the address [base] up to the break. *)
Definition covers (base : Z) (s : heap) : Prop :=
  layout (brk s) (registry s) /\ last_addr (registry s) (brk s) = base.

(** C10, for legal calls.  In a state reached from the empty heap by legal
    calls the list is well linked, and it is again after one more legal
    call that returns: the head's [prev] is null, each block's [next] and
    [prev] neighbours point back at it and are themselves met from the
    head.  No block drops off the list: the blocks met from the head tile
    the heap from the lowest header, which stays where it was, up to the
    break, and every block in use other than the one the call was given is
    still on the list with its address and capacity.  A legal call never
    loops, and [free] always returns. *)
Theorem public_calls_keep_links (s : heap) (c : call) :
  reachable s -> legal s c ->
  links_consistent s /\
  covers (last_addr (registry s) (brk s)) s /\
  match run c s with
  | Done _ s' =>
      links_consistent s' /\
      covers (last_addr (registry s) (brk s)) s' /\
      (forall y, y ∈ registry s -> e_free y = false ->
                 e_addr y + sizeof_mem_block <> target c -> y ∈ registry s')
  | Fault => forall p, c <> Free p
  | AssertFail => exists p, c = Realloc p 0
  | Diverge => False
  end.
Proof.
  intros Hs Hl. split; [now apply reachable_links|].
  destruct (reachable_inv s Hs) as (k & _ & Hinv).
  split; [split; [apply Hinv|reflexivity]|].
  pose proof (run_outcome k s c Hinv Hl) as H.
  destruct (run c s) as [[] s'| | |] eqn:Hrun; cbn in H; try exact H.
  destruct (run_step k s c s' Hinv Hl Hrun) as [Hinv' Hkeep].
  split; [exact (repr_links _ _ (proj1 Hinv'))|]. split; [|exact Hkeep].
  split; [apply Hinv'|].
  pose proof (run_based _ c (legal_sized _ _ Hl) s tt s'
                (heap_inv_based _ _ Hinv) Hrun) as Hb.
  exact (based_inj _ _ _ (heap_inv_based _ _ Hinv') Hb).
Qed.

Lemma public_calls_keep_links_witness :
  links_consistent heap_hole /\
  covers (last_addr (registry heap_hole) (brk heap_hole)) heap_hole /\
  match run (Malloc 16) heap_hole with
  | Done _ s' =>
      links_consistent s' /\
      covers (last_addr (registry heap_hole) (brk heap_hole)) s' /\
      (forall y, y ∈ registry heap_hole -> e_free y = false ->
                 e_addr y + sizeof_mem_block <> target (Malloc 16) ->
                 y ∈ registry s')
  | Fault => forall p, Malloc 16 <> Free p
  | AssertFail => exists p, Malloc 16 = Realloc p 0
  | Diverge => False
  end.
Proof.
  apply (public_calls_keep_links heap_hole (Malloc 16) reachable_heap_hole).
  cbn. unfold sizeof_mem_block. lia.
Defined.

(** ** Runs of calls, legal or not *)

(** The calls of [cs] made one after the other, as long as each returns. *)
Fixpoint run_all (cs : list call) (s : heap) : option heap :=
  match cs with
  | [] => Some s
  | c :: cs' =>
      match run c s with
      | Done _ s' => run_all cs' s'
      | _ => None
      end
  end.

(** C10 as stated, for every call the functions accept, fails.  After two
    ordinary allocations, [malloc (2^64 - 40)] makes the sum
    [sizeof(mem_block) + size] wrap to 0: [sbrk 0] returns the break without
    moving it and the header is written there.  The next [malloc 8] gets the
    same address from [sbrk] and writes its header over that one, linking
    it to itself: the head's [prev] is the head, and the two older blocks,
    both in use, are no longer met from the head. *)
Lemma wrapped_request_breaks_links :
  exists s,
    run_all [Malloc 2048; Malloc 16; Malloc (2 ^ 64 - 40); Malloc 8]
      (empty_heap 4096 1000000) = Some s /\
    ~ links_consistent s /\
    hdrs s !! head s = Some (Block 8 false 6280 6240 6240) /\
    registry heap_two = [Entry 6184 16 false; Entry 4096 2048 false] /\
    (Entry 6184 16 false ∉ registry s) /\
    (Entry 4096 2048 false ∉ registry s).
Proof.
  eexists. split; [vm_compute; reflexivity|].
  split; [|split; [vm_compute; reflexivity|split; [vm_compute; reflexivity|]]].
  - intros [H _].
    destruct (H ltac:(vm_compute; discriminate)) as [(b & Hb & Hp) _].
    vm_compute in Hb. inversion Hb; subst b. vm_compute in Hp. discriminate.
  - match goal with |- (_ ∉ registry ?st) /\ _ =>
      replace (registry st)
        with [Entry 6240 8 false; Entry 6240 8 false; Entry 6240 8 false;
              Entry 6240 8 false]
        by (vm_compute; reflexivity) end.
    split; intros H; repeat (apply elem_of_cons in H as [H|H]; [discriminate|]);
      now apply elem_of_nil in H.
Qed.

(** ** The drift of [requested_size], counted *)

(** States reached from the empty heap by legal calls that returned, with
    the number of those calls that were in-place merges by [realloc]. *)
Inductive reached_merging : Z -> heap -> Prop :=
  | merging_init b0 lim :
      0 < b0 -> b0 <= lim -> lim < 2 ^ 63 ->
      reached_merging 0 (empty_heap b0 lim)
  | merging_step k s c s' k' :
      reached_merging k s -> legal s c -> run c s = Done tt s' ->
      k' = k + merge_count c s ->
      reached_merging k' s'.

Lemma reached_merging_inv k s : reached_merging k s -> 0 <= k /\ heap_inv k s.
Proof.
  induction 1 as [b0 lim H1 H2 H3|k s c s' k' Hreach [Hk Hinv] Hlegal Hrun ->].
  - split; [lia|]. now apply heap_inv_empty.
  - split; [unfold merge_count; destruct (merges_in_place c s); lia|].
    now apply run_step.
Qed.

(** Along a run of legal calls [requested_size] is, modulo 2^64, the
    capacity of the blocks in use plus one header for every block of the
    registry, less one header for each call that was an in-place merge by
    [realloc]: that path adds the neighbour's capacity and then takes one
    header off, where the header was never counted as released. *)
Theorem requested_size_accounting (k : Z) (s : heap) :
  reached_merging k s ->
  requested_size s
  = wrap (sum_all (registry s) - sum_free (registry s) - sizeof_mem_block * k).
Proof. intros H. apply (reached_merging_inv k s H). Qed.

(** One block of 2056 bytes, released, taken again for 8 bytes (which
    splits it) and grown back in place to 20 bytes. *)
Definition heap_merged : heap :=
  exec (realloc 4136 20) (exec (malloc 8) (exec (free 4136)
    (exec (malloc 2056) (empty_heap 4096 1000000)))).

Lemma reached_merging_heap_merged : reached_merging 1 heap_merged.
Proof.
  assert (reached_merging 0 (empty_heap 4096 1000000)) as H0
    by (constructor; lia).
  assert (reached_merging 0 (exec (malloc 2056) (empty_heap 4096 1000000))) as H1.
  { apply (merging_step 0 _ (Malloc 2056) _ _ H0);
      [cbn; unfold sizeof_mem_block; lia|vm_compute; reflexivity
      |vm_compute; reflexivity]. }
  assert (reached_merging 0 (exec (free 4136)
            (exec (malloc 2056) (empty_heap 4096 1000000)))) as H2.
  { apply (merging_step 0 _ (Free 4136) _ _ H1);
      [|vm_compute; reflexivity|vm_compute; reflexivity].
    right. exists (Entry 4096 2056 false). split; [|reflexivity].
    match goal with |- _ ∈ registry ?st =>
      replace (registry st) with [Entry 4096 2056 false]
        by (vm_compute; reflexivity) end.
    apply elem_of_cons. now left. }
  assert (reached_merging 0 (exec (malloc 8) (exec (free 4136)
            (exec (malloc 2056) (empty_heap 4096 1000000))))) as H3.
  { apply (merging_step 0 _ (Malloc 8) _ _ H2);
      [cbn; unfold sizeof_mem_block; lia|vm_compute; reflexivity
      |vm_compute; reflexivity]. }
  apply (merging_step 0 _ (Realloc 4136 20) _ _ H3);
    [|vm_compute; reflexivity|vm_compute; reflexivity].
  split; [|unfold sizeof_mem_block; lia].
  right. exists (Entry 4096 8 false). split; [|split; reflexivity].
  match goal with |- _ ∈ registry ?st =>
    replace (registry st) with [Entry 4144 2008 true; Entry 4096 8 false]
      by (vm_compute; reflexivity) end.
  apply elem_of_cons. right. apply elem_of_cons. now left.
Defined.

Lemma requested_size_accounting_witness :
  requested_size heap_merged
  = wrap (sum_all (registry heap_merged) - sum_free (registry heap_merged)
          - sizeof_mem_block * 1).
Proof.
  apply (requested_size_accounting 1 heap_merged reached_merging_heap_merged).
Defined.

(** ** The prefilter *)





(** ** No two free neighbours, for every call *)

(** C6 as stated, for every call the functions accept, fails.  After two
    8-byte blocks, [malloc (2^64 - 88)] lowers the break by 48 bytes to the
    header of the second block and writes its own header at the old break;
    the next [malloc 8] gets the second block's address from [sbrk] and
    writes a fresh header over it, whose [next] is the block above.  Once
    both are released the list holds the block at 4144 and the block at
    4192, which starts where the payload of the first ends: both free, each
    the other's [next]. *)
Lemma wrapped_request_leaves_free_neighbours :
  exists s,
    run_all [Malloc 8; Malloc 8; Malloc (2 ^ 64 - 88); Malloc 8;
             Free 4232; Free 4184]
      (empty_heap 4096 1000000) = Some s /\
    ~ no_adjacent_free s /\
    no_free_pair (registry s) = false /\
    hdrs s !! 4192 = Some (Block (2 ^ 64 - 40) true 4232 4144 0) /\
    hdrs s !! 4144 = Some (Block 8 true 4184 4192 0) /\
    head s = 4192.
Proof.
  eexists. split; [vm_compute; reflexivity|].
  split.
  2:{ split; [vm_compute; reflexivity|].
      split; [vm_compute; reflexivity|].
      split; vm_compute; reflexivity. }
  intros H.
  match type of H with no_adjacent_free ?st =>
    assert (registry st
            = [Entry 4192 (2 ^ 64 - 40) true; Entry 4144 8 true;
               Entry 4192 (2 ^ 64 - 40) true; Entry 4144 8 true]) as E
      by (vm_compute; reflexivity) end.
  apply (H (Entry 4192 (2 ^ 64 - 40) true) (Entry 4144 8 true)).
  - rewrite E. apply elem_of_cons. now left.
  - rewrite E. apply elem_of_cons. right. apply elem_of_cons. now left.
  - reflexivity.
  - now split.
Qed.

(** ** A request that wraps *)

(** In a state reached by legal calls, a request of [2^64 - 40 - d] bytes,
    with [d] no more than the bytes obtained so far, makes
    [sizeof(mem_block) + size] wrap to [-d] once read as an [intptr_t].
    [malloc] finds no block that large, hands the increment to [sbrk],
    which lowers the break by [d], and returns a non-null pointer: the
    header written at the old break is the new head and records the full
    size, although no byte was obtained. *)
Theorem malloc_wrapped_request_lowers_break (s : heap) (d : Z) :
  reachable s -> 0 <= d <= allocated_size s ->
  exists s',
    malloc (2 ^ 64 - sizeof_mem_block - d) s
    = Done (brk s + sizeof_mem_block) s' /\
    brk s' = brk s - d /\ head s' = brk s /\
    hdrs s' !! brk s
    = Some (Block (2 ^ 64 - sizeof_mem_block - d) false
              (brk s + sizeof_mem_block) (head s) NULL) /\
    registry s' = Entry (brk s) (2 ^ 64 - sizeof_mem_block - d) false
                  :: registry s.
Proof.
  intros Hs Hd0.
  pose proof (reachable_repr s Hs) as Hr.
  assert (0 <= d <= brk s) as Hd.
  { destruct (reachable_inv s Hs) as (k & _ & Hinv).
    destruct (heap_inv_based _ _ Hinv) as (? & ? & ? & _). lia. }
  clear Hd0.
  remember (registry s) as l eqn:El.
  destruct s as [h by_ hd rq al bk lm]. cbn [brk head] in *.
  pose proof Hr as (Hh & Hseg & Hlay & Hb0 & Hb1 & Hb2).
  cbn in Hh, Hseg, Hlay, Hb0, Hb1, Hb2.
  set (size := 2 ^ 64 - sizeof_mem_block - d).
  assert (2 ^ 63 - 40 < size < 2 ^ 64) as Hsz
    by (unfold size, sizeof_mem_block; lia).
  rewrite (malloc_no_fit _ _ _ _ _ _ _ size _ Hr).
  2:{ lia. }
  2:{ right. apply Forall_forall. intros y Hy. unfold fits.
      destruct (repr_size_bound _ _ _ _ _ _ _ _ _ Hr Hy) as (? & ? & ? & ?).
      rewrite (proj2 (Z.leb_gt size (e_size y))) by lia.
      apply andb_false_r. }
  rewrite (grow_any _ _ _ _ _ _ _ _ size Hr).
  assert (to_intptr (wrap (sizeof_mem_block + size)) = - d) as ->.
  { replace (sizeof_mem_block + size) with (2 ^ 64 - d)
      by (unfold size; lia).
    destruct (Z.eq_dec d 0) as [->|Hnz]; [reflexivity|].
    rewrite wrap_small by lia. unfold to_intptr.
    rewrite (proj2 (Z.ltb_ge _ _)) by lia. lia. }
  rewrite (proj2 (Z.leb_le 0 (bk + - d))) by lia.
  rewrite (proj2 (Z.leb_le (bk + - d) lm)) by lia. cbn [andb].
  eexists. split; [reflexivity|]. cbn [brk head hdrs].
  split; [lia|]. split; [reflexivity|].
  assert (grown h bk size l !! bk
          = Some (Block size false (bk + sizeof_mem_block) hd NULL)) as Hlk.
  { destruct l as [|y l']; cbn [grown]; cbn in Hh; subst hd.
    - apply lookup_insert_eq.
    - cbn in Hlay.
      rewrite lookup_insert_ne by (unfold sizeof_mem_block in *; lia).
      apply lookup_insert_eq. }
  split; [exact Hlk|].
  assert (seg (grown h bk size l) NULL (Entry bk size false :: l) NULL) as Hs'.
  { cbn [seg e_addr]. split.
    - rewrite Hlk. unfold hdr_of. cbn [e_size e_free e_addr].
      now rewrite Hh.
    - destruct l as [|y l']; [exact I|]. cbn [grown].
      cbn in Hseg, Hlay. destruct Hseg as [Hy Hseg].
      destruct Hlay as (Y1 & Y2 & Y3 & Hlay).
      cbn [seg]. split; [apply lookup_insert_eq|].
      eapply seg_frame_below; [exact Hseg|exact Hlay|].
      intros a Ha.
      rewrite !lookup_insert_ne by (unfold sizeof_mem_block in *; lia).
      reflexivity. }
  assert (layout (bk + sizeof_mem_block + size) (Entry bk size false :: l))
    as Hlay'.
  { cbn [layout e_addr e_size]. repeat split; try lia. exact Hlay. }
  pose proof (seg_length _ _ _ _ _ Hs' Hlay') as Hlen.
  unfold registry, scan_fuel. cbn [head hdrs].
  apply (walk_seg _ NULL (Entry bk size false :: l)
           (bk + sizeof_mem_block + size) _ Hs' Hlay').
  lia.
Qed.

Lemma malloc_wrapped_request_lowers_break_witness :
  exists s',
    malloc (2 ^ 64 - sizeof_mem_block - 48) heap_hole
    = Done (brk heap_hole + sizeof_mem_block) s' /\
    brk s' = brk heap_hole - 48 /\ head s' = brk heap_hole /\
    hdrs s' !! brk heap_hole
    = Some (Block (2 ^ 64 - sizeof_mem_block - 48) false
              (brk heap_hole + sizeof_mem_block) (head heap_hole) NULL) /\
    registry s' = Entry (brk heap_hole) (2 ^ 64 - sizeof_mem_block - 48) false
                  :: registry heap_hole.
Proof.
  apply (malloc_wrapped_request_lowers_break heap_hole 48 reachable_heap_hole).
  split; [lia|]. vm_compute. discriminate.
Defined.
